(** * quantum_compute: the first-party logic of the Streamlit demos

    A shallow embedding of the code the demo pages run themselves:

    - [quantum_vs_classical_comp.py]: the linear scan [classical_search],
      the circuit builders [diffuser], [build_oracle] and
      [grover_circuit_builder], and the handling of [st.session_state];
    - [qkd.py]: the guarded import of the Aer simulator, the sifting of the
      BB84 keys, the key-agreement accuracy and the outcome histogram;
    - [entangelment.py]: the two-qubit entangling circuit.

    Python integers are [Z]; Python floats are IEEE 754 doubles; Python
    lists are [list]; a Python [dict] with string keys is a
    [gmap string _]; an exception is a result [None]. *)

From Stdlib Require Import ZArith List Lia Bool String Ascii QArith Qabs Reals Lra
  Uint63 Floats FunctionalExtensionality.
From stdpp Require Import gmap strings list fin_maps pretty.

#[local] Set Warnings "-register-all".

(** ** Circuits as the scripts build them

    A [QuantumCircuit] object is the list of the instructions appended to
    it, in order, together with its numbers of quantum and classical bits
    and its [name] attribute. The scripts never read a circuit back: they
    hand it to the simulator and to the drawing functions. *)

Module Circuit.

Local Open Scope Z_scope.

Inductive instr : Type :=
  | H (q : Z)
  | X (q : Z)
  | Zg (q : Z)
  | CX (c t : Z)
  | MCX (controls : list Z) (t : Z)
  | Measure (q c : Z)
  | Gate (gname : string) (body : list instr) (qubits : list Z).

Record QuantumCircuit : Type := mkQC {
  num_qubits : Z;
  num_clbits : Z;
  name : string;
  data : list instr
}.

(** [range(n)] *)
Definition range (n : Z) : list Z := map Z.of_nat (seq 0 (Z.to_nat n)).

(** [QuantumCircuit(n)] and [QuantumCircuit(n, m)]: a negative size is a
    [CircuitError]. The default name is not read by the scripts. *)
Definition new_circuit (n m : Z) : option QuantumCircuit :=
  if (0 <=? n) && (0 <=? m) then Some (mkQC n m "circuit" []) else None.

(** A qubit argument is an index into the circuit's qubits, with Python's
    convention for negative indices; out of range is a [CircuitError]. *)
Definition qubit_index (qc : QuantumCircuit) (q : Z) : option Z :=
  if (- num_qubits qc <=? q) && (q <? num_qubits qc)
  then Some (if q <? 0 then q + num_qubits qc else q)
  else None.

Definition clbit_index (qc : QuantumCircuit) (c : Z) : option Z :=
  if (- num_clbits qc <=? c) && (c <? num_clbits qc)
  then Some (if c <? 0 then c + num_clbits qc else c)
  else None.

Definition emit (qc : QuantumCircuit) (i : instr) : QuantumCircuit :=
  mkQC (num_qubits qc) (num_clbits qc) (name qc) (data qc ++ [i]).

Definition set_name (qc : QuantumCircuit) (s : string) : QuantumCircuit :=
  mkQC (num_qubits qc) (num_clbits qc) s (data qc).

(** [qc.h(q)], [qc.x(q)], [qc.z(q)] on one qubit *)
Definition gate1 (g : Z → instr) (q : Z) (qc : QuantumCircuit)
  : option QuantumCircuit :=
  q' ← qubit_index qc q; Some (emit qc (g q')).

(** [qc.h(range(n))]: the gate is broadcast over the qubits, in order *)
Fixpoint gate1_each (g : Z → instr) (qs : list Z) (qc : QuantumCircuit)
  : option QuantumCircuit :=
  match qs with
  | [] => Some qc
  | q :: qs' => qc' ← gate1 g q qc; gate1_each g qs' qc'
  end.

(** [qc.cx(c, t)] *)
Definition cx (c t : Z) (qc : QuantumCircuit) : option QuantumCircuit :=
  c' ← qubit_index qc c; t' ← qubit_index qc t; Some (emit qc (CX c' t')).

(** [qc.mcx(controls, t)] *)
Definition mcx (cs : list Z) (t : Z) (qc : QuantumCircuit)
  : option QuantumCircuit :=
  cs' ← mapM (qubit_index qc) cs; t' ← qubit_index qc t;
  Some (emit qc (MCX cs' t')).

(** [qc.measure(q, c)] *)
Definition measure (q c : Z) (qc : QuantumCircuit) : option QuantumCircuit :=
  q' ← qubit_index qc q; c' ← clbit_index qc c; Some (emit qc (Measure q' c')).

(** [qc.measure(range(n), range(n))]: pairwise, in order *)
Fixpoint measure_each (qcs : list (Z * Z)) (qc : QuantumCircuit)
  : option QuantumCircuit :=
  match qcs with
  | [] => Some qc
  | (q, c) :: rest => qc' ← measure q c qc; measure_each rest qc'
  end.

(** [qc.append(sub.to_gate(), qubits)]: the sub-circuit becomes one
    instruction carrying its name and body; it must span as many qubits as
    it is applied to. *)
Definition append_gate (sub : QuantumCircuit) (qs : list Z)
    (qc : QuantumCircuit) : option QuantumCircuit :=
  qs' ← mapM (qubit_index qc) qs;
  if Z.of_nat (length qs') =? num_qubits sub
  then Some (emit qc (Gate (name sub) (data sub) qs'))
  else None.

(** *** Vocabulary for the statements *)

(** The qubits of [qs] are all positions of the circuit [qc]. *)
Definition in_range (qc : QuantumCircuit) (qs : list Z) : Prop :=
  Forall (λ q, 0 ≤ q < num_qubits qc) qs.

(** A circuit with further instructions appended. *)
Definition extend (qc : QuantumCircuit) (more : list instr) : QuantumCircuit :=
  mkQC (num_qubits qc) (num_clbits qc) (name qc) (data qc ++ more).

End Circuit.

(** ** What a circuit means

    The scripts leave the execution of a circuit to the simulator. Its
    noise-free semantics is the textbook one: a register of [n] qubits is
    a vector of [2 ^ n] amplitudes, indexed by the basis states (bit [q]
    of the index is qubit [q]), and a gate is a unitary map on it. Every
    gate the scripts use has a real matrix, so real amplitudes suffice. *)

Module Statevector.

Import Circuit.
Local Open Scope R_scope.

Definition state : Type := Z → R.

(** All qubits in [|0>]. *)
Definition ket0 : state := λ i, if (i =? 0)%Z then 1 else 0.

(** The basis state that differs from [i] in qubit [q]. *)
Definition flip (q i : Z) : Z := Z.lxor i (Z.shiftl 1 q).

Definition apply_H (q : Z) (ψ : state) : state :=
  λ i, if Z.testbit i q
       then (ψ (flip q i) - ψ i) / R_sqrt.sqrt 2
       else (ψ i + ψ (flip q i)) / R_sqrt.sqrt 2.

Definition apply_X (q : Z) (ψ : state) : state := λ i, ψ (flip q i).

Definition apply_Z (q : Z) (ψ : state) : state :=
  λ i, if Z.testbit i q then - ψ i else ψ i.

Definition apply_MCX (cs : list Z) (t : Z) (ψ : state) : state :=
  λ i, if forallb (Z.testbit i) cs then ψ (flip t i) else ψ i.

(** Runs the instructions of a circuit whose measurements all come last:
    the final amplitudes and the (qubit, classical bit) pairs measured.
    A gate after a measurement, or a composite gate, is outside this
    semantics. *)
Fixpoint run (prog : list instr) (ψ : state) (meas : list (Z * Z))
    : option (state * list (Z * Z)) :=
  match prog with
  | [] => Some (ψ, meas)
  | Measure q c :: rest => run rest ψ (meas ++ [(q, c)])
  | Gate _ _ _ :: _ => None
  | g :: rest =>
      match meas with
      | [] =>
          run rest
            match g with
            | H q => apply_H q ψ
            | X q => apply_X q ψ
            | Zg q => apply_Z q ψ
            | CX c t => apply_MCX [c] t ψ
            | MCX cs t => apply_MCX cs t ψ
            | _ => ψ
            end []
      | _ :: _ => None
      end
  end.

(** Bit [c] of an outcome as the simulator prints it: the classical bits
    from the last one down to bit 0. *)
Definition outcome_bit (outcome : string) (c : Z) : bool :=
  let len := Z.of_nat (String.length outcome) in
  if ((0 <=? c) && (c <? len))%Z then
    match String.get (Z.to_nat (len - 1 - c)) outcome with
    | Some ch => bool_decide (ch = "1"%char)
    | None => false
    end
  else false.

(** The basis state [i] is read as [outcome]: measured bits agree with
    the qubits they were read from, the others stay 0. *)
Definition reads_as (meas : list (Z * Z)) (m : Z) (outcome : string) (i : Z)
    : bool :=
  forallb (λ qc : Z * Z, eqb (Z.testbit i qc.1) (outcome_bit outcome qc.2)) meas
  && forallb (λ c, bool_decide (c ∈ meas.*2) || negb (outcome_bit outcome c))
       (range m).

(** The probability of reading [outcome] from the classical register. *)
Definition outcome_prob (qc : QuantumCircuit) (outcome : string) : option R :=
  '(ψ, meas) ← run (data qc) ket0 [];
  Some (fold_right Rplus 0
          (map (λ i, if reads_as meas (num_clbits qc) outcome i
                     then ψ i * ψ i else 0)
               (range (2 ^ num_qubits qc)))).

End Statevector.

(** ** quantum_vs_classical_comp.py *)

Module Grover.

Import Circuit.
Local Open Scope Z_scope.

(** *** The classical baseline *)

Section ClassicalSearch.

(** The elements of [data] are compared with [==] and printed in the
    trace; the demo searches a list of integers. *)
Context {A : Type} `{EqDecision A} `{Pretty A}.

(** The line [st.write] shows at each step when [visualize] is set. *)
Definition step_line (steps i : Z) (val : A) : string :=
  "Step " +:+ pretty steps +:+ ": Checking index " +:+ pretty i
    +:+ " (value=" +:+ pretty val +:+ ")".

(** The [for i, val in enumerate(data)] loop, from index [i] on, with the
    counter at [steps] and the lines written so far in [out]. The result is
    the returned pair and the lines written. *)
Fixpoint search_from (visualize : bool) (target : A) (data : list A)
    (i steps : Z) (out : list string) : (Z * Z) * list string :=
  match data with
  | [] => ((-1, steps), out)
  | val :: rest =>
      let steps := steps + 1 in
      let out := if visualize then out ++ [step_line steps i val] else out in
      if decide (val = target) then ((i, steps), out)
      else search_from visualize target rest (i + 1) steps out
  end.

Definition classical_search (data : list A) (target : A)
    (visualize : bool) : (Z * Z) * list string :=
  search_from visualize target data 0 0 [].

End ClassicalSearch.

(** *** The oracle and the diffuser *)

(** The digits of [format(t, "b")], most significant first. *)
Fixpoint bin_digits (p : positive) : list ascii :=
  match p with
  | xH => ["1"%char]
  | xO p' => bin_digits p' ++ ["0"%char]
  | xI p' => bin_digits p' ++ ["1"%char]
  end.

Definition bin_abs (t : Z) : list ascii :=
  match t with
  | Z0 => ["0"%char]
  | Zpos p | Zneg p => bin_digits p
  end.

(** [f"{t:0{n}b}"]: the binary digits of [t], zero-padded on the left to
    [n] characters, the sign first; a negative width is no format
    specifier ([ValueError]). The string is kept as its characters. *)
Definition format_bin (t n : Z) : option (list ascii) :=
  if n <? 0 then None
  else
    let sign := if t <? 0 then ["-"%char] else [] in
    let digits := bin_abs t in
    let pad := (Z.to_nat n - length sign - length digits)%nat in
    Some (sign ++ repeat "0"%char pad ++ digits).

(** [for i, bit in enumerate(bits): if bit == '0': oracle.x(i)], from
    index [i] on. *)
Fixpoint x_where_zero (i : Z) (bits : list ascii) (qc : QuantumCircuit)
    : option QuantumCircuit :=
  match bits with
  | [] => Some qc
  | bit :: rest =>
      qc' ← (if decide (bit = "0"%char) then gate1 X i qc else Some qc);
      x_where_zero (i + 1) rest qc'
  end.

Definition diffuser (n_qubits : Z) : option QuantumCircuit :=
  qc ← new_circuit n_qubits 0;
  qc ← gate1_each H (range n_qubits) qc;
  qc ← gate1_each X (range n_qubits) qc;
  qc ← gate1 H (n_qubits - 1) qc;
  qc ← mcx (range (n_qubits - 1)) (n_qubits - 1) qc;
  qc ← gate1 H (n_qubits - 1) qc;
  qc ← gate1_each X (range n_qubits) qc;
  qc ← gate1_each H (range n_qubits) qc;
  Some (set_name qc "Diffuser").

Definition build_oracle (target_index n : Z) : option QuantumCircuit :=
  target_bin ← format_bin target_index n;
  oracle ← new_circuit n 0;
  oracle ← x_where_zero 0 (rev target_bin) oracle;
  oracle ← gate1 H (n - 1) oracle;
  oracle ← mcx (range (n - 1)) (n - 1) oracle;
  oracle ← gate1 H (n - 1) oracle;
  oracle ← x_where_zero 0 (rev target_bin) oracle;
  Some (set_name oracle "Oracle").

(** The gate lists these builders are expected to produce. *)

(** The character of bit [i] of [t]. *)
Definition bitchar (t i : Z) : ascii :=
  if Z.testbit t i then "1"%char else "0"%char.

(** The positions, from [i] on, at which [bits] has the character 0. *)
Fixpoint zero_positions (i : Z) (bits : list ascii) : list Z :=
  match bits with
  | [] => []
  | bit :: rest =>
      if decide (bit = "0"%char) then i :: zero_positions (i + 1) rest
      else zero_positions (i + 1) rest
  end.

(** The qubits [0 <= i < n] at which bit [i] of [t] is 0, in increasing
    order. *)
Definition zero_bits (t n : Z) : list Z :=
  filter (λ i, Z.testbit t i = false) (range n).

(** The marking circuit for [t] on [n] qubits, as the textbook gives it. *)
Definition oracle_gates (t n : Z) : list instr :=
  map X (zero_bits t n)
    ++ [H (n - 1); MCX (range (n - 1)) (n - 1); H (n - 1)]
    ++ map X (zero_bits t n).

(** The inversion about the mean on [n] qubits. *)
Definition diffuser_gates (n : Z) : list instr :=
  map H (range n) ++ map X (range n)
    ++ [H (n - 1); MCX (range (n - 1)) (n - 1); H (n - 1)]
    ++ map X (range n) ++ map H (range n).

(** *** The number of Grover iterations

    [int(round((math.pi / 4) * math.sqrt(2 ** n)))] is computed in IEEE
    double precision, here with the kernel's binary64 floats. *)

(** [math.pi] *)
Definition math_pi : float := 0x1.921fb54442d18p+1%float.

(** [float(2 ** n)], the conversion [math.sqrt] applies to its integer
    argument: exact up to [2 ** 1023], an [OverflowError] beyond. For a
    negative [n], [2 ** n] is already the float. *)
Definition float_of_pow2 (n : Z) : option float :=
  if n <? 1024 then Some (Z.ldexp 1%float n) else None.

(** [(math.pi / 4) * math.sqrt(2 ** n)] *)
Definition grover_angle (n : Z) : option float :=
  p ← float_of_pow2 n;
  Some (math_pi / 4 * PrimFloat.sqrt p)%float.

(** The integer nearest to [m * 2 ^ e], a tie going to the even one. *)
Definition round_half_even (m e : Z) : Z :=
  if 0 <=? e then m * 2 ^ e
  else
    let d := 2 ^ (- e) in
    let q := m / d in
    let r := m mod d in
    if 2 * r <? d then q
    else if d <? 2 * r then q + 1
    else if Z.even q then q else q + 1.

(** [round(x)] of a float, an [int]: exact, ties to even; an infinity is
    an [OverflowError] and a NaN a [ValueError]. *)
Definition py_round (x : float) : option Z :=
  match Prim2SF x with
  | S754_zero _ => Some 0
  | S754_finite s m e =>
      let v := round_half_even (Zpos m) e in
      Some (if s then - v else v)
  | S754_infinity _ | S754_nan => None
  end.

Definition grover_iterations (n : Z) : option Z :=
  x ← grover_angle n; py_round x.

(** [for _ in range(iterations)]: append the oracle, then the diffuser. *)
Fixpoint grover_iterate (k : nat) (oracle diff : QuantumCircuit)
    (qs : list Z) (qc : QuantumCircuit) : option QuantumCircuit :=
  match k with
  | O => Some qc
  | S k' =>
      qc ← append_gate oracle qs qc;
      qc ← append_gate diff qs qc;
      grover_iterate k' oracle diff qs qc
  end.

Definition grover_circuit_builder (target_index n : Z)
    : option (QuantumCircuit * Z * QuantumCircuit * QuantumCircuit) :=
  oracle ← build_oracle target_index n;
  diff ← diffuser n;
  qc ← new_circuit n n;
  qc ← gate1_each H (range n) qc;
  iterations ← grover_iterations n;
  qc ← grover_iterate (Z.to_nat iterations) oracle diff (range n) qc;
  qc ← measure_each (zip (range n) (range n)) qc;
  Some (qc, iterations, oracle, diff).

(** Rounding, floors and the expected shape of the full circuit. *)

(** The rational [m * 2 ^ e]: the value of a finite float with mantissa
    [m] and exponent [e]. *)
Definition dyadic (m e : Z) : Q :=
  if 0 <=? e then inject_Z (m * 2 ^ e) else Qmake m (Z.to_pos (2 ^ (- e))).

(** [k] is the integer nearest to [x]; if two are equally near, the even
    one. *)
Definition nearest_even (k : Z) (x : Q) : Prop :=
  (Qabs (inject_Z k - x) <= 1 # 2)%Q ∧
  ((Qabs (inject_Z k - x) == 1 # 2)%Q → Z.even k = true).

(** [k] is the floor of the real [x]. *)
Definition is_floor (k : Z) (x : R) : Prop :=
  (IZR k <= x < IZR k + 1)%R.

(** The real number [(pi / 4) * sqrt(2 ^ n)]. *)
Definition angle_R (n : Z) : R :=
  (PI / 4 * R_sqrt.sqrt (IZR (2 ^ n)))%R.

(** The circuit [grover_circuit_builder] assembles around [k] rounds. *)
Definition grover_gates (t n : Z) (k : nat) : list instr :=
  map H (range n)
    ++ concat (replicate k [Gate "Oracle" (oracle_gates t n) (range n);
                            Gate "Diffuser" (diffuser_gates n) (range n)])
    ++ map (λ q, Measure q q) (range n).

(** The float [(math.pi / 4) * math.sqrt(2 ** n)] is finite and positive. *)
Definition angle_is_positive (n : Z) : bool :=
  match grover_angle n with
  | Some x =>
      match Prim2SF x with S754_finite false _ _ => true | _ => false end
  | None => false
  end.

(** *** The page's session state

    [st.session_state] is a dictionary that outlives a run of the script;
    the page keeps the keys ["data"], ["target"] and ["num_items"] there.
    A run is determined by the values of the widgets and by the draws of
    [random.choice]. *)

Inductive pyval : Type :=
  | PInt (z : Z)
  | PList (l : list Z).

#[export] Instance pyval_eq_dec : EqDecision pyval.
Proof. solve_decision. Defined.

Record widgets : Type := mkWidgets {
  num_items_selected : Z;   (* the selectbox *)
  reset_target : bool;      (* the Reset Target button *)
  show_data : bool;         (* the Show Data List checkbox *)
  run_classical : bool;     (* the Run Classical Search button *)
  run_grover : bool         (* the Run Grover Search button *)
}.

(** The values the selectbox offers. *)
Definition num_items_options : list Z := [4; 8; 16; 32].

(** [random.choice(seq)] with the draw [r]: some element of [seq]; an
    [IndexError] on an empty one. *)
Definition random_choice (r : nat) (l : list Z) : option Z :=
  l !! (r mod length l)%nat.

(** Reading [st.session_state.data] as a list and [.target] as a value;
    a missing key is an [AttributeError]. *)
Definition session_data (ss : gmap string pyval) : option (list Z) :=
  v ← ss !! "data"; match v with PList l => Some l | PInt _ => None end.

Definition session_target (ss : gmap string pyval) : option pyval :=
  ss !! "target".

(** [data.index(target)]: the first position, a [ValueError] if absent. *)
Fixpoint list_index (target : pyval) (data : list Z) (i : Z) : option Z :=
  match data with
  | [] => None
  | val :: rest =>
      if decide (PInt val = target) then Some i
      else list_index target rest (i + 1)
  end.

(** Lines 77 to 80: the state is (re)initialised when it has no ["data"]
    or when the stored ["num_items"] differs from the selected one. *)
Definition init_session (num_items : Z) (r : nat) (ss : gmap string pyval)
    : option (gmap string pyval) :=
  if bool_decide (ss !! "data" = None)
     || bool_decide (ss !! "num_items" ≠ Some (PInt num_items))
  then
    let ss := <["data" := PList (range num_items)]> ss in
    d ← session_data ss;
    t ← random_choice r d;
    let ss := <["target" := PInt t]> ss in
    Some (<["num_items" := PInt num_items]> ss)
  else Some ss.

(** How a run of the script ends, with the session state it leaves:
    [st.experimental_rerun()] abandons the run and asks for another one;
    otherwise the page is rendered to its end, which writes nothing more
    to the session state. *)
Inductive run_end : Type :=
  | Rerun (ss : gmap string pyval)
  | Rendered (ss : gmap string pyval) (target_index : Z).

Definition final_session (e : run_end) : gmap string pyval :=
  match e with Rerun ss | Rendered ss _ => ss end.

(** One run of the script, as far as the session state goes, with the
    draws [r1] (initialisation) and [r2] (reset). *)
Definition script_run (w : widgets) (r1 r2 : nat) (ss : gmap string pyval)
    : option run_end :=
  ss ← init_session (num_items_selected w) r1 ss;
  data ← session_data ss;
  target ← session_target ss;
  if reset_target w then
    t ← random_choice r2 data;
    Some (Rerun (<["target" := PInt t]> ss))
  else
    idx ← list_index target data 0;
    Some (Rendered ss idx).

(** What the page relies on between runs. *)
Definition session_ok (ss : gmap string pyval) : Prop :=
  ∃ (data : list Z) (t : Z),
    ss !! "data" = Some (PList data) ∧
    ss !! "target" = Some (PInt t) ∧
    t ∈ data.

End Grover.

(** ** qkd.py *)

Module QKD.

Local Open Scope Z_scope.

(** *** The guarded import of the simulator *)

(** The two modules the page tries to import [Aer] from, in this order. *)
Inductive aer_module : Type :=
  | qiskit_aer
  | qiskit_providers_aer.

(** Which of them the installation has: importing a missing one raises
    [ImportError]. *)
Record installation : Type := mkInstallation {
  has_qiskit_aer : bool;
  has_qiskit_providers_aer : bool
}.

Definition import_from (inst : installation) (m : aer_module)
    : option aer_module :=
  match m with
  | qiskit_aer => if has_qiskit_aer inst then Some m else None
  | qiskit_providers_aer =>
      if has_qiskit_providers_aer inst then Some m else None
  end.

(** What the page has shown so far. *)
Inductive shown : Type :=
  | StError (msg : string)
  | StWarning (msg : string)
  | StSuccess (msg : string).

(** The page after lines 8 to 16: stopped by [st.stop()], or going on
    with [Aer] bound to the module it came from. *)
Inductive page : Type :=
  | Stopped (out : list shown)
  | Proceeds (aer : aer_module) (out : list shown).

Definition aer_not_found : string :=
  "Qiskit Aer simulator not found. Please install qiskit-aer.".

Definition import_aer (inst : installation) : page :=
  match import_from inst qiskit_aer with
  | Some aer => Proceeds aer []
  | None =>
      match import_from inst qiskit_providers_aer with
      | Some aer => Proceeds aer []
      | None => Stopped [StError aer_not_found]
      end
  end.

(** *** Sifting the keys *)

(** [l[i]] for a non-negative index; [None] is an [IndexError]. The
    bases are the one-letter strings ['Z'] and ['X']. *)

(** [a[i] == b[i]] *)
Definition bases_agree (alice_bases bob_bases : list string) (i : nat)
    : option bool :=
  a ← alice_bases !! i; b ← bob_bases !! i; Some (bool_decide (a = b)).

(** [[i for i in idxs if alice_bases[i] == bob_bases[i]]], in the order
    of [idxs]. *)
Fixpoint keep_agreeing (alice_bases bob_bases : list string)
    (idxs : list nat) : option (list nat) :=
  match idxs with
  | [] => Some []
  | i :: rest =>
      same ← bases_agree alice_bases bob_bases i;
      kept ← keep_agreeing alice_bases bob_bases rest;
      Some (if (same : bool) then i :: kept else kept)
  end.

Definition matching_indices (num_bits : nat)
    (alice_bases bob_bases : list string) : option (list nat) :=
  keep_agreeing alice_bases bob_bases (seq 0 num_bits).

(** The positions below [num_bits] at which the two bases agree, in
    increasing order. *)
Definition agreeing_positions (num_bits : nat)
    (alice_bases bob_bases : list string) : list nat :=
  filter (λ i, alice_bases !! i = bob_bases !! i) (seq 0 num_bits).

(** [[bits[i] for i in matching_indices]] *)
Definition sift (bits : list Z) (idxs : list nat) : option (list Z) :=
  mapM (λ i : nat, bits !! i) idxs.

(** *** Key agreement *)

(** [sum(a == b for a, b in zip(alice_key, bob_key))] *)
Fixpoint count_equal (alice_key bob_key : list Z) : Z :=
  match alice_key, bob_key with
  | a :: ak, b :: bk => (if decide (a = b) then 1 else 0) + count_equal ak bk
  | _, _ => 0
  end.

(** *** Double precision

    [matches / total * 100] is evaluated in IEEE 754 double precision.
    Every finite double is a whole number of units of [2^-1074], the
    least positive double; a double is kept here as that number of units,
    or as an infinity. The sign of a zero is not kept and there is no
    NaN: nothing below tells the two zeros apart or gives a NaN. *)
Inductive double : Type :=
  | Units (u : Z)
  | Infinite (negative : bool).

(** [n / d] rounded to the nearest integer, a tie going to the even one
    ([d] positive). *)
Definition round_ties_even (n d : Z) : Z :=
  let (q, r) := Z.div_eucl n d in
  if 2 * r <? d then q
  else if d <? 2 * r then q + 1
  else if Z.even q then q else q + 1.

(** [n / d] units ([n] not negative, [d] positive) rounded to the nearest
    double, a tie going to the even significand. A double has 53
    significant bits: from [2^53] units on, only the multiples of [2^e]
    are doubles, where [e] is the position of the leading bit of [n / d]
    less 52. *)
Definition round_units (n d : Z) : Z :=
  let e := Z.max 0 (Z.log2 (n / d) - 52) in
  round_ties_even n (d * 2 ^ e) * 2 ^ e.

(** The double nearest to [n / d] units, with the sign given ([n] not
    negative, [d] positive). The largest finite double is
    [2^1024 - 2^971]; what rounds to [2^1024], that is to [2^2098] units,
    or beyond is an infinity. *)
Definition nearest_double (negative : bool) (n d : Z) : double :=
  let u := round_units n d in
  if 2 ^ 2098 <=? u then Infinite negative
  else Units (if negative then - u else u).

(** [a / b] on integers, the correctly rounded quotient: a
    [ZeroDivisionError] when [b] is 0, an [OverflowError] when the
    quotient is too large for a float. *)
Definition int_true_div (a b : Z) : option double :=
  if b =? 0 then None
  else match nearest_double (xorb (a <? 0) (b <? 0))
               (Z.abs a * 2 ^ 1074) (Z.abs b) with
       | Units u => Some (Units u)
       | Infinite _ => None
       end.

(** [x * 100] on a float: the integer 100 is converted exactly and the
    product is rounded; a product too large is an infinity. *)
Definition times_100 (x : double) : double :=
  match x with
  | Units u => nearest_double (u <? 0) (Z.abs u * 100) 1
  | Infinite negative => Infinite negative
  end.

(** The value of [accuracy]: the float of the division, or the integer
    of the [else] branch. *)
Inductive number : Type :=
  | NInt (z : Z)
  | NFloat (x : double).

(** [(matches / total * 100) if total > 0 else 0] *)
Definition accuracy (matches total : Z) : option number :=
  if 0 <? total
  then q ← int_true_div matches total; Some (NFloat (times_100 q))
  else Some (NInt 0).

(** [a == k] and [a > k] for an integer [k]: the interpreter compares a
    float with an integer by their exact values. *)
Definition num_eqb (a : number) (k : Z) : bool :=
  match a with
  | NInt z => z =? k
  | NFloat (Units u) => u =? k * 2 ^ 1074
  | NFloat (Infinite _) => false
  end.

Definition num_gtb (a : number) (k : Z) : bool :=
  match a with
  | NInt z => k <? z
  | NFloat (Units u) => k * 2 ^ 1074 <? u
  | NFloat (Infinite negative) => negb negative
  end.

(** The exact value of a number, when it is finite. *)
Definition number_value (a : number) : option Q :=
  match a with
  | NInt z => Some (inject_Z z)
  | NFloat (Units u) => Some (u # Z.to_pos (2 ^ 1074))
  | NFloat (Infinite _) => None
  end.

(** The same expression on the kernel's binary64 floats, for integers
    below [2^53], which convert to floats exactly. *)
Definition accuracy_double (matches total : Z) : float :=
  if 0 <? total
  then (PrimFloat.of_uint63 (Uint63.of_Z matches)
        / PrimFloat.of_uint63 (Uint63.of_Z total) * 100)%float
  else 0%float.

(** The number of units [2^-1074] in a finite kernel float. *)
Definition units_of_float (x : float) : option Z :=
  match Prim2SF x with
  | S754_zero _ => Some 0
  | S754_finite s m e =>
      if -1074 <=? e
      then Some ((if s then -1 else 1) * Zpos m * 2 ^ (e + 1074))
      else None
  | S754_infinity _ | S754_nan => None
  end.

(** Steps 4 and 5 of the page, from the bits, bases and results of a run:
    the matching indices, the two keys, and [matches], [total] and
    [accuracy]. *)
Record sifted : Type := mkSifted {
  s_indices : list nat;
  s_alice_key : list Z;
  s_bob_key : list Z;
  s_matches : Z;
  s_total : Z;
  s_accuracy : number
}.

Definition key_agreement (num_bits : nat) (alice_bits : list Z)
    (alice_bases bob_bases : list string) (bob_results : list Z)
    : option sifted :=
  idxs ← matching_indices num_bits alice_bases bob_bases;
  alice_key ← sift alice_bits idxs;
  bob_key ← sift bob_results idxs;
  let matches := count_equal alice_key bob_key in
  let total := Z.of_nat (length idxs) in
  acc ← accuracy matches total;
  Some (mkSifted idxs alice_key bob_key matches total acc).

(** *** The outcome histogram *)

(** [counts[str(bit)] = counts.get(str(bit), 0) + 1] *)
Definition tally (counts : gmap string Z) (bit : Z) : gmap string Z :=
  <[pretty bit := default 0 (counts !! pretty bit) + 1]> counts.

(** [counts = {}] and the loop over [bob_results]. *)
Definition histogram (bob_results : list Z) : gmap string Z :=
  fold_left tally bob_results ∅.

(** The sum of a dictionary's values. *)
Definition total_count (counts : gmap string Z) : Z :=
  map_fold (λ _ v acc, v + acc) 0 counts.

(** How often [bit] occurs in [bob_results]. *)
Definition occurrences (bit : Z) (bob_results : list Z) : Z :=
  Z.of_nat (length (filter (λ b, b = bit) bob_results)).

End QKD.

(** ** entangelment.py *)

Module Entanglement.

Import Circuit.
Local Open Scope Z_scope.

(** Lines 16 to 20. *)
Definition qc : option QuantumCircuit :=
  qc ← new_circuit 2 2;
  qc ← gate1 H 0 qc;
  qc ← cx 0 1 qc;
  qc ← measure 0 0 qc;
  measure 1 1 qc.

(** The state the H and CNOT gates prepare from [|00>]. *)
Definition bell_state : Statevector.state :=
  Statevector.apply_MCX [0] 1 (Statevector.apply_H 0 Statevector.ket0).

End Entanglement.

(** * The rest of the pages

    What the five scripts do besides the places above: further vocabulary
    for the scan, the meaning of composite gates, the BB84 circuits and
    verdict, and the circuits of the superposition and interference
    pages. *)

Module ScanParts.

Import Grover.
Local Open Scope Z_scope.

Section Parts.

Context {A : Type} `{EqDecision A} `{Pretty A}.

(** What the loop of [classical_search] returns, from index [i] on with
    the counter at [steps]. *)
Fixpoint scan_result (target : A) (data : list A) (i steps : Z) : Z * Z :=
  match data with
  | [] => (-1, steps)
  | val :: rest =>
      if decide (val = target) then (i, steps + 1)
      else scan_result target rest (i + 1) (steps + 1)
  end.

(** The lines it writes on the way when [visualize] is set. *)
Fixpoint scan_lines (target : A) (data : list A) (i steps : Z)
    : list string :=
  match data with
  | [] => []
  | val :: rest =>
      step_line (steps + 1) i val
        :: (if decide (val = target) then []
            else scan_lines target rest (i + 1) (steps + 1))
  end.

End Parts.

End ScanParts.

(** ** Gates as maps on the amplitudes *)

Module Unitary.

Import Circuit Statevector.
Local Open Scope R_scope.

(** What one gate does to the amplitudes: the step [run] takes. *)
Definition gate_action (g : instr) (ψ : state) : state :=
  match g with
  | H q => apply_H q ψ
  | X q => apply_X q ψ
  | Zg q => apply_Z q ψ
  | CX c t => apply_MCX [c] t ψ
  | MCX cs t => apply_MCX cs t ψ
  | Measure _ _ | Gate _ _ _ => ψ
  end.

Definition is_unitary (g : instr) : bool :=
  match g with
  | Measure _ _ | Gate _ _ _ => false
  | _ => true
  end.

(** A run of gates, first to last. *)
Definition gates_action (gs : list instr) (ψ : state) : state :=
  fold_left (λ ψ0 g, gate_action g ψ0) gs ψ.

(** A composite gate stands for its body on the qubits it is applied to:
    qubit [j] of the body is the [j]-th of those. *)
Definition qubit_of (qs : list Z) (j : Z) : Z :=
  default j (qs !! Z.to_nat j).

Definition rename (qs : list Z) (g : instr) : instr :=
  match g with
  | H q => H (qubit_of qs q)
  | X q => X (qubit_of qs q)
  | Zg q => Zg (qubit_of qs q)
  | CX c t => CX (qubit_of qs c) (qubit_of qs t)
  | MCX cs t => MCX (map (qubit_of qs) cs) (qubit_of qs t)
  | Measure q c => Measure (qubit_of qs q) c
  | Gate gname body qs' => Gate gname body (map (qubit_of qs) qs')
  end.

Fixpoint inline (g : instr) : list instr :=
  match g with
  | Gate _ body qs =>
      map (rename qs)
        ((fix go (bs : list instr) : list instr :=
            match bs with
            | [] => []
            | b :: rest => inline b ++ go rest
            end) body)
  | _ => [g]
  end.

(** The circuit with its composite gates replaced by their bodies, as it
    is executed. *)
Definition inlined (qc : QuantumCircuit) : QuantumCircuit :=
  mkQC (num_qubits qc) (num_clbits qc) (name qc) (flat_map inline (data qc)).

(** H on each of the qubits [0 .. n-1], in this order. *)
Definition hadamards (n : nat) (ψ : state) : state :=
  fold_left (λ ψ0 q, apply_H q ψ0) (range (Z.of_nat n)) ψ.

(** X on each qubit of [qs]. *)
Definition flips (qs : list Z) (i : Z) : Z := fold_right flip i qs.

(** The sign of the basis states whose [n] low bits are those of [t] is
    flipped. *)
Definition phase_flip (n t : Z) (ψ : state) : state :=
  λ i, if (i mod 2 ^ n =? t mod 2 ^ n)%Z then - ψ i else ψ i.

(** The sum of the [2 ^ n] amplitudes from basis state [b] on. *)
Definition block_sum (n : nat) (ψ : state) (b : Z) : R :=
  fold_right Rplus 0 (map (λ j, ψ (b + j)%Z) (range (2 ^ Z.of_nat n))).

(** The mean of the amplitudes of the basis states [0 .. 2^n - 1]. *)
Definition mean (n : nat) (ψ : state) : R := block_sum n ψ 0 / 2 ^ n.

(** The amplitudes [ψ] with each replaced by its mirror image about their
    mean. *)
Definition inversion_about_mean (n : nat) (ψ : state) : state :=
  λ i, 2 * mean n ψ - ψ i.

End Unitary.

(** ** Vocabulary for Grover's rounds *)

Module Rounds.

Import Circuit Statevector Unitary.
Local Open Scope R_scope.

(** Each amplitude less twice the mean of its block of [2^n] basis
    states: the inversion about the mean, negated. *)
Definition diffuse (n : nat) (ψ : state) : state :=
  λ i, ψ i - 2 * (block_sum n ψ (i - i mod 2 ^ Z.of_nat n)%Z / 2 ^ n).

(** One round: the oracle of [t], then the diffuser. *)
Definition grover_round (n : nat) (t : Z) (ψ : state) : state :=
  diffuse n (phase_flip (Z.of_nat n) t ψ).

End Rounds.

(** ** qkd.py: the transmission of one qubit, and the verdict *)

Module Transmission.

Import Circuit Statevector QKD.
Local Open Scope Z_scope.

(** Lines 55 to 76: Alice prepares her bit in her basis, Bob turns to his
    basis and measures. Any basis other than ['Z'] is prepared as ['X'];
    Bob measures in the Z basis unless his is ['X']. *)
Definition transmit_circuit (bit : Z) (basis bob_basis : string)
    : option QuantumCircuit :=
  qc ← new_circuit 1 1;
  qc ← (if decide (basis = "Z")
        then (if decide (bit = 1) then gate1 X 0 qc else Some qc)
        else (qc ← gate1 H 0 qc;
              if decide (bit = 1) then gate1 Zg 0 qc else Some qc));
  qc ← (if decide (bob_basis = "X") then gate1 H 0 qc else Some qc);
  measure 0 0 qc.

(** The one shot of the circuit can come out as [r]: [measured_bit] is
    the integer of the only key of [counts], an outcome of positive
    probability. *)
Definition may_measure (qc : QuantumCircuit) (r : Z) : Prop :=
  (r = 0 ∨ r = 1) ∧
  ∃ p, outcome_prob qc (pretty r) = Some p ∧ (0 < p)%R.

(** Bob's results are ones the transmissions can produce. *)
Definition possible_results (alice_bits : list Z)
    (alice_bases bob_bases : list string) (bob_results : list Z) : Prop :=
  ∀ (i : nat) (a : Z) (ba bb : string) (r : Z),
    alice_bits !! i = Some a → alice_bases !! i = Some ba →
    bob_bases !! i = Some bb → bob_results !! i = Some r →
    ∃ qc, transmit_circuit a ba bb = Some qc ∧ may_measure qc r.

(** Lines 111 to 116. *)
Definition verdict (acc : number) : shown :=
  if num_eqb acc 100 then
    StSuccess "Perfect key agreement — communication is secure!"
  else if num_gtb acc 50 then
    StWarning "Partial key agreement — some errors, possible eavesdropping or noise."
  else
    StError "Low key agreement — communication not secure.".

End Transmission.

(** The gates [transmit_circuit] puts before the measurement. *)

Module TransmissionParts.

Import Circuit.
Local Open Scope Z_scope.

Definition transmit_gates (bit : Z) (basis bob_basis : string) : list instr :=
  (if decide (basis = "Z")
   then (if decide (bit = 1) then [X 0] else [])
   else H 0 :: (if decide (bit = 1) then [Zg 0] else []))
  ++ (if decide (bob_basis = "X") then [H 0] else []).

End TransmissionParts.

(** ** superposition.py *)

Module Superposition.

Import Circuit.
Local Open Scope Z_scope.

(** Lines 36 to 40, for the radio button's value [initial_state]. *)
Definition qc (initial_state : string) : option QuantumCircuit :=
  qc ← new_circuit 1 1;
  qc ← (if decide (initial_state = "|1⟩") then gate1 X 0 qc else Some qc);
  qc ← gate1 H 0 qc;
  measure 0 0 qc.

(** Lines 77 to 80: the same gates without the measurement, for the
    Bloch sphere. *)
Definition qc_bloch (initial_state : string) : option QuantumCircuit :=
  qc ← new_circuit 1 0;
  qc ← (if decide (initial_state = "|1⟩") then gate1 X 0 qc else Some qc);
  gate1 H 0 qc.

End Superposition.

(** ** interference.py *)

Module Interference.

Import Circuit Statevector Unitary.
Local Open Scope Z_scope.

(** The page uses one gate more than the others: the controlled Z. *)
Inductive xinstr : Type :=
  | Std (g : instr)
  | CZ (c t : Z).

(** Lines 22 to 72: the calls on [qc], in order; [qc.measure([0, 1],
    [0, 1])] measures qubit 0 into bit 0 and qubit 1 into bit 1. *)
Definition qc_gates : list xinstr :=
  [Std (H 0); Std (H 1); CZ 0 1; Std (H 0); Std (H 1);
   Std (Measure 0 0); Std (Measure 1 1)].

(** The sign flips where both qubits are set. *)
Definition apply_CZ (c t : Z) (ψ : state) : state :=
  λ i, if Z.testbit i c && Z.testbit i t then (- ψ i)%R else ψ i.

(** [run], with the controlled Z. *)
Fixpoint run_x (prog : list xinstr) (ψ : state) (meas : list (Z * Z))
    : option (state * list (Z * Z)) :=
  match prog with
  | [] => Some (ψ, meas)
  | Std (Measure q c) :: rest => run_x rest ψ (meas ++ [(q, c)])
  | Std (Gate _ _ _) :: _ => None
  | Std g :: rest =>
      match meas with
      | [] => run_x rest (gate_action g ψ) []
      | _ :: _ => None
      end
  | CZ c t :: rest =>
      match meas with
      | [] => run_x rest (apply_CZ c t ψ) []
      | _ :: _ => None
      end
  end.

(** The probability of reading [outcome] from the two classical bits of
    the page's circuit. *)
Definition outcome_prob_x (outcome : string) : option R :=
  '(ψ, meas) ← run_x qc_gates ket0 [];
  Some (fold_right Rplus 0%R
          (map (λ i, if reads_as meas 2 outcome i then (ψ i * ψ i)%R else 0%R)
               (range (2 ^ 2)))).

(** *** The coin labels *)

(** A [dict] in its insertion order. *)
Definition coin_labels : list (string * string) :=
  [("00", "🪙🪙 Heads-Heads"); ("01", "🪙🔁 Heads-Tails");
   ("10", "🔁🪙 Tails-Heads"); ("11", "🔁🔁 Tails-Tails")].

(** [d.get(k, default)] *)
Definition dict_get {V : Type} (d : list (string * V)) (k : string)
    (default : V) : V :=
  match list_find (λ kv, kv.1 = k) d with
  | Some (_, (_, v)) => v
  | None => default
  end.

(** [d[k] = v]: an existing key keeps its place and takes the new value;
    a new key goes last. *)
Fixpoint dict_set {V : Type} (d : list (string * V)) (k : string) (v : V)
    : list (string * V) :=
  match d with
  | [] => [(k, v)]
  | (k', v') :: rest =>
      if decide (k' = k) then (k, v) :: rest
      else (k', v') :: dict_set rest k v
  end.

(** [{coin_labels.get(k, k): v for k, v in counts.items()}] *)
Definition readable_counts (counts : list (string * Z))
    : list (string * Z) :=
  fold_left (λ d kv, dict_set d (dict_get coin_labels kv.1 kv.1) kv.2)
    counts [].

End Interference.

(** ** quantum_vs_classical_comp.py: the page around the builders *)

Module SearchPage.

Import Circuit Grover.
Local Open Scope Z_scope.

(** [int(math.log2(num_items))]: a [ValueError] unless [num_items] is
    positive. [math.log2] is exact on the powers of two, which are all
    the selectbox offers; the truncation is [Z.log2] as long as the float
    logarithm of a number just below a power of two does not round up to
    the next integer, which takes more than 2^47 items. *)
Definition qubits_for (num_items : Z) : option Z :=
  if 0 <? num_items then Some (Z.log2 num_items) else None.

(** The state a run leaves for [num_items] items: the data is
    [list(range(num_items))], the stored size is [num_items], and the
    target is one of the data. *)
Definition session_for (num_items : Z) (ss : gmap string pyval) : Prop :=
  ss !! "data" = Some (PList (range num_items)) ∧
  ss !! "num_items" = Some (PInt num_items) ∧
  ∃ t, ss !! "target" = Some (PInt t) ∧ 0 ≤ t < num_items.

(** "Run Grover Search", lines 103 and 104: the circuit for the target's
    index in the data. *)
Definition grover_button (ss : gmap string pyval) (num_items : Z)
    : option (QuantumCircuit * Z * QuantumCircuit * QuantumCircuit) :=
  n ← qubits_for num_items;
  data ← session_data ss;
  target ← session_target ss;
  target_idx ← list_index target data 0;
  grover_circuit_builder target_idx n.

(** How a session value is printed: an integer in decimal, a list as
    Python lists are. *)
#[export] Instance pretty_pyval : Pretty pyval := λ v,
  match v with
  | PInt z => pretty z
  | PList l =>
      "[" +:+ foldr (λ s acc, if decide (acc = "") then s else s +:+ ", " +:+ acc)
                "" (pretty <$> l) +:+ "]"
  end.

(** "Run Classical Search", line 96, on the session's data and target. *)
Definition classical_button (ss : gmap string pyval)
    : option ((Z * Z) * list string) :=
  data ← session_data ss;
  target ← session_target ss;
  Some (classical_search (PInt <$> data) target true).

End SearchPage.

(** * Properties *)

(** ** The classical scan *)

Module SearchFacts.

Import Grover.
Local Open Scope Z_scope.

Section Scan.

Context {A : Type} `{EqDecision A} `{Pretty A}.

(** The loop started at index [i] with counter [steps], on a list that
    holds the target: it stops at the first occurrence, [k] places on. *)
Lemma search_from_found (v : bool) (target : A) (data : list A) :
  target ∈ data →
  ∀ (i steps : Z) (out : list string),
  ∃ (k : nat) (out' : list string),
    data !! k = Some target ∧
    (∀ j : nat, (j < k)%nat → data !! j ≠ Some target) ∧
    search_from v target data i steps out
      = ((i + Z.of_nat k, steps + Z.of_nat k + 1), out') ∧
    length out' = (length out + if v then S k else 0)%nat.
Proof.
  induction data as [|val rest IH]; intros Hin i steps out.
  - by apply elem_of_nil in Hin.
  - cbn [search_from]. destruct (decide (val = target)) as [->|Hne].
    + exists 0%nat. eexists. split; [done|]. split; [lia|].
      split; [f_equal; f_equal; lia|].
      destruct v; [rewrite length_app; cbn; lia | lia].
    + apply elem_of_cons in Hin as [Heq|Hin]; [congruence|].
      destruct (IH Hin (i + 1) (steps + 1)
                  (if v then out ++ [step_line (steps + 1) i val] else out))
        as (k & out' & Hk & Hfirst & Hres & Hlen).
      exists (S k), out'. split; [done|]. split.
      { intros [|j] Hj; cbn; [congruence | apply Hfirst; lia]. }
      split; [rewrite Hres; f_equal; f_equal; lia|].
      rewrite Hlen. destruct v; [rewrite length_app; cbn; lia | lia].
Qed.

(** The loop on a list without the target: it runs to the end. *)
Lemma search_from_absent (v : bool) (target : A) (data : list A) :
  target ∉ data →
  ∀ (i steps : Z) (out : list string),
  ∃ out' : list string,
    search_from v target data i steps out
      = ((-1, steps + Z.of_nat (length data)), out') ∧
    length out' = (length out + if v then length data else 0)%nat.
Proof.
  induction data as [|val rest IH]; intros Hnin i steps out.
  - exists out. cbn. split; [f_equal; f_equal; lia | destruct v; lia].
  - cbn [search_from]. apply not_elem_of_cons in Hnin as [Hne Hnin].
    destruct (decide (val = target)) as [->|_]; [done|].
    destruct (IH Hnin (i + 1) (steps + 1)
                (if v then out ++ [step_line (steps + 1) i val] else out))
      as (out' & Hres & Hlen).
    exists out'. split.
    + rewrite Hres. f_equal. f_equal. cbn [length]. lia.
    + rewrite Hlen. destruct v; [rewrite length_app; cbn; lia | cbn; lia].
Qed.

(** C1. When [target] occurs in [data], [classical_search] returns the
    index [k] of its first occurrence and the step count [k + 1]; the
    steps, one per element visited (and one trace line each when
    visualised), are at most the length of [data]. *)
Theorem classical_search_found (data : list A) (target : A) (v : bool) :
  target ∈ data →
  ∃ k : nat,
    data !! k = Some target ∧
    (∀ j : nat, (j < k)%nat → data !! j ≠ Some target) ∧
    (classical_search data target v).1 = (Z.of_nat k, Z.of_nat k + 1) ∧
    Z.of_nat k + 1 ≤ Z.of_nat (length data) ∧
    length (classical_search data target v).2 = (if v then S k else 0%nat).
Proof.
  intros Hin. unfold classical_search.
  destruct (search_from_found v target data Hin 0 0 [])
    as (k & out' & Hk & Hfirst & Hres & Hlen).
  exists k. rewrite Hres. cbn [fst snd].
  split; [done|]. split; [done|]. split; [f_equal; lia|].
  split; [|by rewrite Hlen].
  apply lookup_lt_Some in Hk. lia.
Qed.

(** C3. When [target] does not occur in [data], [classical_search]
    returns the sentinel index [-1] and a step count equal to the length
    of [data]. *)
Theorem classical_search_absent (data : list A) (target : A) (v : bool) :
  target ∉ data →
  (classical_search data target v).1 = (-1, Z.of_nat (length data)).
Proof.
  intros Hnin. unfold classical_search.
  destruct (search_from_absent v target data Hnin 0 0 []) as (out' & -> & _).
  cbn. f_equal.
Qed.

End Scan.

Lemma classical_search_found_witness :
  ∃ k : nat,
    [3; 1; 4; 1; 5] !! k = Some 1 ∧
    (∀ j : nat, (j < k)%nat → [3; 1; 4; 1; 5] !! j ≠ Some 1) ∧
    (classical_search [3; 1; 4; 1; 5] 1 true).1 = (Z.of_nat k, Z.of_nat k + 1) ∧
    Z.of_nat k + 1 ≤ Z.of_nat (length [3; 1; 4; 1; 5]) ∧
    length (classical_search [3; 1; 4; 1; 5] 1 true).2 = S k.
Proof.
  apply (classical_search_found [3; 1; 4; 1; 5] 1 true).
  apply list_elem_of_In. cbn. tauto.
Defined.

Lemma classical_search_absent_witness :
  (classical_search [3; 1; 4; 1; 5] 7 false).1 = (-1, 5).
Proof.
  apply (classical_search_absent [3; 1; 4; 1; 5] 7 false).
  intros Hin. apply list_elem_of_In in Hin. cbn in Hin. intuition lia.
Defined.

End SearchFacts.

(** ** Building circuits *)

Module CircuitFacts.

Import Circuit.
Local Open Scope Z_scope.

Lemma extend_extend qc xs ys : extend (extend qc xs) ys = extend qc (xs ++ ys).
Proof. unfold extend. cbn. by rewrite <- app_assoc. Qed.

Lemma emit_extend qc i : emit qc i = extend qc [i].
Proof. done. Qed.

Lemma range_in_range (qc : QuantumCircuit) (n : Z) :
  n ≤ num_qubits qc → in_range qc (range n).
Proof.
  intros Hn. unfold in_range, range. apply Forall_forall.
  intros q Hq. apply list_elem_of_fmap in Hq as (k & -> & Hk).
  apply elem_of_seq in Hk. lia.
Qed.

Lemma range_length (n : Z) : 0 ≤ n → Z.of_nat (length (range n)) = n.
Proof. intros Hn. unfold range. rewrite length_map, length_seq. lia. Qed.

Lemma qubit_index_in_range qc q :
  0 ≤ q < num_qubits qc → qubit_index qc q = Some q.
Proof.
  intros Hq. unfold qubit_index.
  destruct (Z.leb_spec (- num_qubits qc) q); [|lia].
  destruct (Z.ltb_spec q (num_qubits qc)); [|lia].
  destruct (Z.ltb_spec q 0); [lia|]. done.
Qed.

Lemma clbit_index_in_range qc c :
  0 ≤ c < num_clbits qc → clbit_index qc c = Some c.
Proof.
  intros Hc. unfold clbit_index.
  destruct (Z.leb_spec (- num_clbits qc) c); [|lia].
  destruct (Z.ltb_spec c (num_clbits qc)); [|lia].
  destruct (Z.ltb_spec c 0); [lia|]. done.
Qed.

Lemma qubit_indices_in_range qc qs :
  in_range qc qs → mapM (qubit_index qc) qs = Some qs.
Proof.
  unfold in_range. induction 1 as [|q qs Hq _ IH]; [done|].
  cbn. rewrite qubit_index_in_range by done. cbn. by rewrite IH.
Qed.

Lemma gate1_in_range g q qc :
  0 ≤ q < num_qubits qc → gate1 g q qc = Some (extend qc [g q]).
Proof. intros Hq. unfold gate1. by rewrite qubit_index_in_range. Qed.

Lemma gate1_each_in_range g qs qc :
  in_range qc qs → gate1_each g qs qc = Some (extend qc (map g qs)).
Proof.
  unfold in_range. intros Hqs. revert qc Hqs.
  induction qs as [|q qs IH]; intros qc Hqs.
  - cbn. unfold extend. rewrite app_nil_r. by destruct qc.
  - apply Forall_cons in Hqs as [Hq Hqs]. cbn [gate1_each].
    rewrite gate1_in_range by done. cbn [mbind option_bind].
    rewrite IH by done. by rewrite extend_extend.
Qed.

Lemma mcx_in_range cs t qc :
  in_range qc cs → 0 ≤ t < num_qubits qc →
  mcx cs t qc = Some (extend qc [MCX cs t]).
Proof.
  intros Hcs Ht. unfold mcx. rewrite qubit_indices_in_range by done.
  cbn. by rewrite qubit_index_in_range.
Qed.

Lemma append_gate_in_range sub qs qc :
  in_range qc qs → Z.of_nat (length qs) = num_qubits sub →
  append_gate sub qs qc = Some (extend qc [Gate (name sub) (data sub) qs]).
Proof.
  intros Hqs Hlen. unfold append_gate. rewrite qubit_indices_in_range by done.
  cbn. by rewrite Hlen, Z.eqb_refl.
Qed.

Lemma measure_each_in_range (qs : list Z) qc :
  in_range qc qs → Forall (λ c, 0 ≤ c < num_clbits qc) qs →
  measure_each (zip qs qs) qc
    = Some (extend qc (map (λ q, Measure q q) qs)).
Proof.
  unfold in_range. intros Hqs Hcs. revert qc Hqs Hcs.
  induction qs as [|q qs IH]; intros qc Hqs Hcs.
  - cbn. unfold extend. rewrite app_nil_r. by destruct qc.
  - apply Forall_cons in Hqs as [Hq Hqs]. apply Forall_cons in Hcs as [Hc Hcs].
    cbn [zip zip_with measure_each]. unfold measure.
    rewrite qubit_index_in_range, clbit_index_in_range by done.
    cbn [mbind option_bind]. rewrite emit_extend, IH by done.
    by rewrite extend_extend.
Qed.

End CircuitFacts.

(** ** The oracle and the diffuser *)

Module OracleFacts.

Import Circuit CircuitFacts Grover.
Local Open Scope Z_scope.

Lemma range_succ (k : nat) :
  range (Z.of_nat (S k)) = 0 :: map Z.succ (range (Z.of_nat k)).
Proof.
  unfold range. rewrite !Nat2Z.id. cbn [seq map]. f_equal.
  rewrite <- seq_shift, !map_map. apply map_ext. intros a. lia.
Qed.

Lemma map_const_repeat {A B : Type} (f : A → B) (c : B) (l : list A) :
  (∀ a, f a = c) → map f l = repeat c (length l).
Proof.
  intros Hf. induction l as [|a l IH]; [done|]. cbn. by rewrite Hf, IH.
Qed.

Lemma bitchar_above_one (k : nat) :
  map (λ i, bitchar 1 (Z.succ i)) (range (Z.of_nat k)) = repeat "0"%char k.
Proof.
  unfold range. rewrite Nat2Z.id, map_map.
  rewrite (map_const_repeat _ "0"%char), length_seq; [done|].
  intros a. unfold bitchar. rewrite Z.bits_above_log2; [done|lia|cbn; lia].
Qed.

Lemma bitchar_zero (k : nat) :
  map (bitchar 0) (range (Z.of_nat k)) = repeat "0"%char k.
Proof.
  unfold range. rewrite Nat2Z.id, map_map.
  rewrite (map_const_repeat _ "0"%char), length_seq; [done|].
  intros a. unfold bitchar. by rewrite Z.bits_0.
Qed.

Lemma repeat_snoc {A : Type} (x : A) (k : nat) :
  repeat x k ++ [x] = x :: repeat x k.
Proof. induction k as [|k IH]; [done|]. cbn. by rewrite IH. Qed.

Lemma rev_repeat {A : Type} (x : A) (k : nat) : rev (repeat x k) = repeat x k.
Proof.
  induction k as [|k IH]; [done|]. cbn [repeat rev]. rewrite IH.
  apply repeat_snoc.
Qed.

(** The digits of [p], least significant first and padded with zeros to
    [n] characters, are the characters of the bits [0 .. n-1] of [p]. *)
Lemma bin_digits_bits (p : positive) :
  ∀ n : nat, Zpos p < 2 ^ Z.of_nat n →
  rev (bin_digits p) ++ repeat "0"%char (n - length (bin_digits p))
    = map (bitchar (Zpos p)) (range (Z.of_nat n)).
Proof.
  induction p as [p IH|p IH|]; intros [|n] Hlt;
    try (cbn in Hlt; lia).
  - rewrite Nat2Z.inj_succ, Z.pow_succ_r in Hlt by lia.
    cbn [bin_digits]. rewrite rev_app_distr, length_app. cbn [rev app length].
    replace (S n - (length (bin_digits p) + 1))%nat
      with (n - length (bin_digits p))%nat by lia.
    rewrite IH by lia. rewrite range_succ. cbn [map]. f_equal.
    rewrite map_map. apply map_ext_in. intros i Hi.
    unfold bitchar. rewrite Pos2Z.inj_xI, Z.testbit_odd_succ; [done|].
    apply in_map_iff in Hi as (k & <- & _). lia.
  - rewrite Nat2Z.inj_succ, Z.pow_succ_r in Hlt by lia.
    cbn [bin_digits]. rewrite rev_app_distr, length_app. cbn [rev app length].
    replace (S n - (length (bin_digits p) + 1))%nat
      with (n - length (bin_digits p))%nat by lia.
    rewrite IH by lia. rewrite range_succ. cbn [map]. f_equal.
    rewrite map_map. apply map_ext_in. intros i Hi.
    unfold bitchar. rewrite Pos2Z.inj_xO, Z.testbit_even_succ; [done|].
    apply in_map_iff in Hi as (k & <- & _). lia.
  - cbn [bin_digits rev app length]. rewrite range_succ. cbn [map].
    rewrite map_map, bitchar_above_one. f_equal. f_equal. lia.
Qed.

(** [reversed(target_bin)] spells the bits [0 .. n-1] of the target. *)
Lemma format_bin_bits (t n : Z) :
  1 ≤ n → 0 ≤ t < 2 ^ n →
  ∃ target_bin, format_bin t n = Some target_bin ∧
    rev target_bin = map (bitchar t) (range n).
Proof.
  intros Hn Ht. unfold format_bin.
  destruct (Z.ltb_spec n 0); [lia|]. destruct (Z.ltb_spec t 0); [lia|].
  eexists. split; [done|]. cbn [app length].
  rewrite rev_app_distr, rev_repeat, Nat.sub_0_r.
  rewrite <- (Z2Nat.id n) in * by lia. set (k := Z.to_nat n) in *.
  rewrite Nat2Z.id. destruct t as [|p|p]; [|apply bin_digits_bits; lia|lia].
  cbn [bin_abs rev app length]. rewrite bitchar_zero.
  destruct k as [|k]; [lia|]. cbn [repeat]. f_equal. f_equal. lia.
Qed.

Lemma x_where_zero_in_range (bits : list ascii) :
  ∀ (i : Z) (qc : QuantumCircuit),
  0 ≤ i → i + Z.of_nat (length bits) ≤ num_qubits qc →
  x_where_zero i bits qc = Some (extend qc (map X (zero_positions i bits))).
Proof.
  induction bits as [|bit rest IH]; intros i qc Hi Hlen.
  - cbn. unfold extend. rewrite app_nil_r. by destruct qc.
  - cbn [length] in Hlen. cbn [x_where_zero zero_positions].
    destruct (decide (bit = "0"%char)) as [_|_].
    + rewrite gate1_in_range by lia. cbn [mbind option_bind].
      rewrite IH by (cbn; lia). by rewrite extend_extend.
    + cbn [mbind option_bind]. by rewrite IH by lia.
Qed.

Lemma zero_positions_bitchar (t : Z) (m : nat) :
  ∀ k : nat,
  zero_positions (Z.of_nat k) (map (bitchar t) (map Z.of_nat (seq k m)))
    = filter (λ i, Z.testbit t i = false) (map Z.of_nat (seq k m)).
Proof.
  induction m as [|m IH]; intros k; [done|].
  cbn [seq map zero_positions]. rewrite filter_cons.
  replace (Z.of_nat k + 1) with (Z.of_nat (S k)) by lia. rewrite IH.
  unfold bitchar. destruct (Z.testbit t (Z.of_nat k)).
  - rewrite decide_False by done. by rewrite decide_False by done.
  - rewrite decide_True by done. by rewrite decide_True by done.
Qed.

Lemma zero_positions_bits (t n : Z) :
  zero_positions 0 (map (bitchar t) (range n)) = zero_bits t n.
Proof. apply (zero_positions_bitchar t (Z.to_nat n) 0). Qed.

Lemma zero_bits_spec (t n i : Z) :
  i ∈ zero_bits t n ↔ 0 ≤ i < n ∧ Z.testbit t i = false.
Proof.
  unfold zero_bits, range. rewrite list_elem_of_filter, list_elem_of_fmap.
  split.
  - intros (Hbit & k & -> & Hk). apply elem_of_seq in Hk. split; [lia|done].
  - intros (Hi & Hbit). split; [done|]. exists (Z.to_nat i).
    split; [lia|]. apply elem_of_seq. lia.
Qed.

(** The circuit [build_oracle] returns. *)
Lemma build_oracle_gates (t n : Z) :
  1 ≤ n → 0 ≤ t < 2 ^ n →
  build_oracle t n = Some (mkQC n 0 "Oracle" (oracle_gates t n)).
Proof.
  intros Hn Ht. unfold build_oracle.
  destruct (format_bin_bits t n Hn Ht) as (target_bin & -> & Hrev).
  cbn [mbind option_bind]. rewrite Hrev. unfold new_circuit.
  destruct (Z.leb_spec 0 n); [|lia]. cbn [andb Z.leb Z.compare mbind option_bind].
  rewrite x_where_zero_in_range, zero_positions_bits
    by (rewrite ?length_map, ?range_length; cbn; lia).
  cbn [mbind option_bind].
  rewrite gate1_in_range by (cbn; lia). cbn [mbind option_bind].
  rewrite mcx_in_range by (try apply range_in_range; cbn; lia).
  cbn [mbind option_bind].
  rewrite gate1_in_range by (cbn; lia). cbn [mbind option_bind].
  rewrite x_where_zero_in_range, zero_positions_bits
    by (rewrite ?length_map, ?range_length; cbn; lia).
  cbn [mbind option_bind]. rewrite !extend_extend.
  unfold extend, set_name, oracle_gates. cbn. done.
Qed.

(** The circuit [diffuser] returns. *)
Lemma diffuser_circuit (n : Z) :
  1 ≤ n → diffuser n = Some (mkQC n 0 "Diffuser" (diffuser_gates n)).
Proof.
  intros Hn. unfold diffuser, new_circuit.
  destruct (Z.leb_spec 0 n); [|lia]. cbn [andb Z.leb Z.compare mbind option_bind].
  rewrite gate1_each_in_range by (apply range_in_range; cbn; lia).
  cbn [mbind option_bind].
  rewrite gate1_each_in_range by (apply range_in_range; cbn; lia).
  cbn [mbind option_bind].
  rewrite gate1_in_range by (cbn; lia). cbn [mbind option_bind].
  rewrite mcx_in_range by (try apply range_in_range; cbn; lia).
  cbn [mbind option_bind].
  rewrite gate1_in_range by (cbn; lia). cbn [mbind option_bind].
  rewrite gate1_each_in_range by (apply range_in_range; cbn; lia).
  cbn [mbind option_bind].
  rewrite gate1_each_in_range by (apply range_in_range; cbn; lia).
  cbn [mbind option_bind]. rewrite !extend_extend.
  unfold extend, set_name, diffuser_gates. cbn. done.
Qed.

(** C4. For [n >= 1] and [0 <= target_index < 2^n], [build_oracle]
    returns the marking circuit of that index: X gates on exactly the
    qubits [i] at which bit [i] of the index is 0 (bit 0 first), before
    and after the H, multi-controlled X, H stage, and nowhere else. The
    diffuser is the same circuit for every target: [grover_circuit_builder]
    hands back [diffuser n], which depends on [n] only. *)
Theorem build_oracle_marks_target (t n : Z) :
  1 ≤ n → 0 ≤ t < 2 ^ n →
  build_oracle t n
    = Some (mkQC n 0 "Oracle"
        (map X (zero_bits t n)
         ++ [H (n - 1); MCX (range (n - 1)) (n - 1); H (n - 1)]
         ++ map X (zero_bits t n))) ∧
  (∀ i, i ∈ zero_bits t n ↔ 0 ≤ i < n ∧ Z.testbit t i = false) ∧
  diffuser n = Some (mkQC n 0 "Diffuser" (diffuser_gates n)) ∧
  (∀ qc k oracle diff,
     grover_circuit_builder t n = Some (qc, k, oracle, diff) →
     build_oracle t n = Some oracle ∧ diffuser n = Some diff).
Proof.
  intros Hn Ht. split; [by apply build_oracle_gates|].
  split; [intros i; apply zero_bits_spec|].
  split; [by apply diffuser_circuit|].
  intros qc k oracle diff. unfold grover_circuit_builder.
  destruct (build_oracle t n) as [o|]; [|done].
  destruct (diffuser n) as [d|]; [|done]. cbn [mbind option_bind].
  intros Hrun. repeat (apply bind_Some in Hrun as (? & _ & Hrun)).
  by simplify_eq.
Qed.

Lemma build_oracle_marks_target_witness :
  build_oracle 5 4
    = Some (mkQC 4 0 "Oracle"
        (map X (zero_bits 5 4)
         ++ [H (4 - 1); MCX (range (4 - 1)) (4 - 1); H (4 - 1)]
         ++ map X (zero_bits 5 4))) ∧
  (∀ i, i ∈ zero_bits 5 4 ↔ 0 ≤ i < 4 ∧ Z.testbit 5 i = false) ∧
  diffuser 4 = Some (mkQC 4 0 "Diffuser" (diffuser_gates 4)) ∧
  (∀ qc k oracle diff,
     grover_circuit_builder 5 4 = Some (qc, k, oracle, diff) →
     build_oracle 5 4 = Some oracle ∧ diffuser 4 = Some diff).
Proof. apply (build_oracle_marks_target 5 4); lia. Defined.

End OracleFacts.

(** ** The number of Grover iterations *)

Module IterationFacts.

Import Circuit CircuitFacts Grover OracleFacts.
Local Open Scope Z_scope.

Lemma round_half_even_nearest_Z (m d : Z) :
  0 < d →
  let q := m / d in
  let r := m mod d in
  let k := if 2 * r <? d then q
           else if d <? 2 * r then q + 1
           else if Z.even q then q else q + 1 in
  2 * Z.abs (k * d - m) ≤ d ∧ (2 * Z.abs (k * d - m) = d → Z.even k = true).
Proof.
  intros Hd q r k. subst k.
  pose proof (Z.div_mod m d ltac:(lia)) as Hm.
  pose proof (Z.mod_pos_bound m d Hd) as Hr. fold q r in Hm, Hr.
  destruct (Z.ltb_spec (2 * r) d); [split; [nia|intros; nia]|].
  destruct (Z.ltb_spec d (2 * r)); [split; [nia|intros; nia]|].
  destruct (Z.even q) eqn:Hq; [split; [nia|done]|].
  split; [nia|]. intros _. rewrite Z.even_add, Hq. done.
Qed.

(** [round_half_even] rounds to the nearest integer, ties to even. *)
Lemma round_half_even_nearest (m e : Z) :
  nearest_even (round_half_even m e) (dyadic m e).
Proof.
  unfold nearest_even, round_half_even, dyadic.
  destruct (Z.leb_spec 0 e) as [He|He].
  - assert (inject_Z (m * 2 ^ e) - inject_Z (m * 2 ^ e) == 0)%Q as Hz by ring.
    rewrite Hz. split; [done|]. intros Habs. by apply Qeq_bool_iff in Habs.
  - assert (0 < 2 ^ (- e)) as Hd by (apply Z.pow_pos_nonneg; lia).
    pose proof (round_half_even_nearest_Z m (2 ^ (- e)) Hd) as [Hle Htie].
    cbv zeta in Hle, Htie.
    set (k := if 2 * (m mod 2 ^ (- e)) <? 2 ^ (- e) then _ else _) in *.
    unfold Qminus, Qplus, Qopp, Qabs, Qle, Qeq, inject_Z. cbn [Qnum Qden].
    rewrite Pos.mul_1_l, Z2Pos.id by done. split; [lia|].
    intros Heq. apply Htie. lia.
Qed.

Lemma grover_iterate_in_range (k : nat) (oracle diff : QuantumCircuit)
    (qs : list Z) :
  ∀ qc : QuantumCircuit,
  in_range qc qs →
  Z.of_nat (length qs) = num_qubits oracle →
  Z.of_nat (length qs) = num_qubits diff →
  grover_iterate k oracle diff qs qc
    = Some (extend qc
        (concat (replicate k [Gate (name oracle) (data oracle) qs;
                              Gate (name diff) (data diff) qs]))).
Proof.
  induction k as [|k IH]; intros qc Hqs Ho Hd.
  - cbn. unfold extend. rewrite app_nil_r. by destruct qc.
  - cbn [grover_iterate]. rewrite append_gate_in_range by done.
    cbn [mbind option_bind]. rewrite append_gate_in_range by done.
    cbn [mbind option_bind]. rewrite IH by done.
    rewrite !extend_extend. done.
Qed.

(** The angle is a finite positive float for every exponent the
    conversion to a float accepts. *)
Lemma angle_positive_upto_1023 :
  forallb (λ n, angle_is_positive (Z.of_nat n)) (seq 0 1024) = true.
Proof. vm_compute. reflexivity. Qed.

Lemma grover_angle_positive (n : Z) :
  0 ≤ n < 1024 →
  ∃ x m e, grover_angle n = Some x ∧ Prim2SF x = S754_finite false m e.
Proof.
  intros Hn. pose proof angle_positive_upto_1023 as Hall.
  rewrite forallb_forall in Hall. specialize (Hall (Z.to_nat n)).
  rewrite Z2Nat.id in Hall by lia. unfold angle_is_positive in Hall.
  destruct (grover_angle n) as [x|]; [|discriminate Hall; apply in_seq; lia].
  destruct (Prim2SF x) as [| | |[] m e] eqn:Hx;
    try (discriminate Hall; apply in_seq; lia).
  by exists x, m, e.
Qed.

Lemma round_half_even_nonneg (m e : Z) : 0 ≤ m → 0 ≤ round_half_even m e.
Proof.
  intros Hm. unfold round_half_even.
  destruct (Z.leb_spec 0 e); [apply Z.mul_nonneg_nonneg; [done|]; by apply Z.pow_nonneg|].
  assert (0 < 2 ^ (- e)) as Hd by (apply Z.pow_pos_nonneg; lia).
  pose proof (Z.div_pos m (2 ^ (- e)) Hm Hd).
  repeat case_match; lia.
Qed.

(** From 1024 qubits on, [math.sqrt(2 ** n)] raises [OverflowError]. *)
Lemma grover_iterations_overflow (n : Z) :
  1024 ≤ n → grover_iterations n = None.
Proof.
  intros Hn. unfold grover_iterations, grover_angle, float_of_pow2.
  by destruct (Z.ltb_spec n 1024); [lia|].
Qed.

(** The counts for the sizes the page offers (4, 8, 16 and 32 items). *)
Lemma grover_iterations_offered :
  map grover_iterations [2; 3; 4; 5] = [Some 2; Some 2; Some 3; Some 4].
Proof. vm_compute. reflexivity. Qed.

(** At [n = 2] the real angle is [pi / 2], whose floor is 1. *)
Lemma angle_R_2_floor : is_floor 1 (angle_R 2) ∧ ¬ is_floor 2 (angle_R 2).
Proof.
  unfold is_floor, angle_R. change (2 ^ 2) with 4.
  replace (IZR 4) with (2 * 2)%R by lra. rewrite sqrt_square by lra.
  pose proof PI2_3_2 as Hlo. pose proof pi2_int as [_ Hhi].
  unfold PI in *. split; [lra|]. intros [Hle _]. lra.
Qed.

(** C2. On 2 qubits (4 items, a size the page offers) the code departs
    from the claim: [grover_circuit_builder] returns 2 iterations, the
    rounded [pi / 2], while the floor of [(pi / 4) * sqrt(4)] is 1. *)
Lemma grover_iterations_not_floor :
  ∃ qc oracle diff,
    grover_circuit_builder 3 2 = Some (qc, 2, oracle, diff) ∧
    is_floor 1 (angle_R 2) ∧ ¬ is_floor 2 (angle_R 2).
Proof.
  do 3 eexists. split; [vm_compute; reflexivity|]. apply angle_R_2_floor.
Qed.

(** The count the code computes. For [1 <= n < 1024] and a target below
    [2^n], [grover_circuit_builder] returns the iteration count [k] that is the
    integer nearest to the double-precision product
    [(math.pi / 4) * math.sqrt(2 ** n)] (Python's [round]: a tie goes to
    the even integer), and its circuit is the initial H gates, then [k]
    times the oracle followed by the diffuser, then the measurements. *)
Theorem grover_iterations_nearest (t n : Z) :
  1 ≤ n < 1024 → 0 ≤ t < 2 ^ n →
  ∃ (x : float) (m : positive) (e k : Z),
    grover_angle n = Some x ∧
    Prim2SF x = S754_finite false m e ∧
    nearest_even k (dyadic (Zpos m) e) ∧
    0 ≤ k ∧
    grover_circuit_builder t n
      = Some (mkQC n n "circuit" (grover_gates t n (Z.to_nat k)), k,
              mkQC n 0 "Oracle" (oracle_gates t n),
              mkQC n 0 "Diffuser" (diffuser_gates n)).
Proof.
  intros Hn Ht.
  destruct (grover_angle_positive n ltac:(lia)) as (x & m & e & Hx & Hsf).
  exists x, m, e, (round_half_even (Zpos m) e).
  split; [done|]. split; [done|].
  split; [apply round_half_even_nearest|].
  split; [by apply round_half_even_nonneg|].
  unfold grover_circuit_builder.
  rewrite build_oracle_gates, diffuser_circuit by lia.
  cbn [mbind option_bind]. unfold new_circuit.
  destruct (Z.leb_spec 0 n); [|lia]. cbn [andb mbind option_bind].
  rewrite gate1_each_in_range by (apply range_in_range; cbn; lia).
  cbn [mbind option_bind]. unfold grover_iterations, py_round.
  rewrite Hx. cbn [mbind option_bind]. rewrite Hsf. cbn [mbind option_bind].
  rewrite grover_iterate_in_range
    by (try apply range_in_range; rewrite ?range_length; cbn; lia).
  cbn [mbind option_bind].
  rewrite measure_each_in_range
    by (try apply range_in_range; try apply (range_in_range (mkQC n n "" []));
        cbn; lia).
  cbn [mbind option_bind]. rewrite !extend_extend.
  unfold extend, grover_gates. cbn. done.
Qed.

Lemma grover_iterations_nearest_witness :
  ∃ (x : float) (m : positive) (e k : Z),
    grover_angle 2 = Some x ∧
    Prim2SF x = S754_finite false m e ∧
    nearest_even k (dyadic (Zpos m) e) ∧
    0 ≤ k ∧
    grover_circuit_builder 3 2
      = Some (mkQC 2 2 "circuit" (grover_gates 3 2 (Z.to_nat k)), k,
              mkQC 2 0 "Oracle" (oracle_gates 3 2),
              mkQC 2 0 "Diffuser" (diffuser_gates 2)).
Proof. apply (grover_iterations_nearest 3 2); lia. Defined.

End IterationFacts.

(** ** The session state of the search page *)

Module SessionFacts.

Import Circuit Grover.
Local Open Scope Z_scope.

Lemma random_choice_elem (r : nat) (l : list Z) :
  l ≠ [] → ∃ t, random_choice r l = Some t ∧ t ∈ l.
Proof.
  intros Hl. unfold random_choice.
  assert (r mod length l < length l)%nat as Hlt.
  { apply Nat.mod_upper_bound. destruct l; [done|cbn; lia]. }
  destruct (lookup_lt_is_Some_2 l _ Hlt) as [t Ht].
  exists t. split; [done|]. by eapply list_elem_of_lookup_2.
Qed.

Lemma list_index_elem (t : Z) (data : list Z) :
  t ∈ data → ∀ i, ∃ idx, list_index (PInt t) data i = Some idx.
Proof.
  induction data as [|val rest IH]; intros Hin i.
  - by apply elem_of_nil in Hin.
  - cbn [list_index]. destruct (decide (PInt val = PInt t)); [by eexists|].
    apply elem_of_cons in Hin as [->|Hin]; [done|]. by apply IH.
Qed.

Lemma range_nonempty (n : Z) : 0 < n → range n ≠ [].
Proof.
  intros Hn Hnil. apply (f_equal length) in Hnil. unfold range in Hnil.
  rewrite length_map, length_seq in Hnil. cbn in Hnil. lia.
Qed.

Lemma options_positive (n : Z) : n ∈ num_items_options → 0 < n.
Proof.
  unfold num_items_options. intros Hn.
  repeat (apply elem_of_cons in Hn as [->|Hn]; [lia|]).
  by apply elem_of_nil in Hn.
Qed.

(** The tail of a run, once the state is initialised: it renders the page
    with the state as it is, or redraws the target and asks for a rerun. *)
Lemma run_tail (reset : bool) (r2 : nat) (ss : gmap string pyval) :
  session_ok ss →
  ∃ e,
    (data ← session_data ss;
     target ← session_target ss;
     if reset then
       t ← random_choice r2 data; Some (Rerun (<["target" := PInt t]> ss))
     else
       idx ← list_index target data 0; Some (Rendered ss idx)) = Some e ∧
    session_ok (final_session e) ∧
    (reset = false → final_session e = ss).
Proof.
  intros (data & t & Hdata & Htarget & Hin).
  unfold session_data, session_target. rewrite Hdata, Htarget.
  cbn [mbind option_bind]. destruct reset.
  - destruct (random_choice_elem r2 data) as (t' & -> & Hin').
    { intros ->. by apply elem_of_nil in Hin. }
    cbn [mbind option_bind]. eexists. split; [done|]. split; [|done].
    exists data, t'. cbn [final_session].
    rewrite lookup_insert_ne by done. by rewrite lookup_insert_eq.
  - destruct (list_index_elem t data Hin 0) as (idx & ->).
    cbn [mbind option_bind]. eexists. split; [done|]. split; [|done].
    by exists data, t.
Qed.

(** C6. A run of the page from a well-formed session (with one of the
    offered sizes selected) succeeds and leaves the session well formed:
    the target is a member of the data list. If the selected number of
    items is the stored one and Reset Target is not pressed, the run
    leaves the session state, and so the target, exactly as it was,
    whatever the other widgets and the random draws are. *)
Theorem session_target_stable (w : widgets) (r1 r2 : nat)
    (ss : gmap string pyval) :
  session_ok ss →
  num_items_selected w ∈ num_items_options →
  ∃ e,
    script_run w r1 r2 ss = Some e ∧
    session_ok (final_session e) ∧
    (ss !! "num_items" = Some (PInt (num_items_selected w)) →
     reset_target w = false →
     final_session e = ss).
Proof.
  intros Hok Hsel. unfold script_run, init_session.
  destruct (bool_decide (ss !! "data" = None)
            || bool_decide (ss !! "num_items" ≠ Some (PInt (num_items_selected w))))
    eqn:Hinit.
  - assert (session_data (<["data" := PList (range (num_items_selected w))]> ss)
            = Some (range (num_items_selected w))) as ->.
    { unfold session_data. by rewrite lookup_insert_eq. }
    cbn [mbind option_bind].
    destruct (random_choice_elem r1 (range (num_items_selected w)))
      as (t & -> & Hin).
    { apply range_nonempty. by apply options_positive. }
    cbn [mbind option_bind].
    set (ss' := <["num_items" := _]> _).
    assert (session_ok ss') as Hok'.
    { exists (range (num_items_selected w)), t. subst ss'.
      split; [|split; [|done]].
      - rewrite !lookup_insert_ne by done. by rewrite lookup_insert_eq.
      - rewrite lookup_insert_ne by done. by rewrite lookup_insert_eq. }
    destruct (run_tail (reset_target w) r2 ss' Hok') as (e & He & Hoke & _).
    exists e. split; [done|]. split; [done|].
    intros Hsame _. apply orb_true_iff in Hinit as [Hd|Hn].
    + apply bool_decide_eq_true in Hd. destruct Hok as (? & ? & ? & _). congruence.
    + by apply bool_decide_eq_true in Hn.
  - cbn [mbind option_bind].
    destruct (run_tail (reset_target w) r2 ss Hok) as (e & He & Hoke & Hsame).
    exists e. split; [done|]. split; [done|]. intros _ Hreset. by apply Hsame.
Qed.

Lemma session_target_stable_witness :
  ∃ e,
    script_run (mkWidgets 4 false true true false) 7 9
      (<["num_items" := PInt 4]>
         (<["target" := PInt 2]> (<["data" := PList [0; 1; 2; 3]]> (∅ : gmap string pyval))))
      = Some e ∧
    session_ok (final_session e) ∧
    ((<["num_items" := PInt 4]>
         (<["target" := PInt 2]> (<["data" := PList [0; 1; 2; 3]]> (∅ : gmap string pyval))))
       !! "num_items" = Some (PInt (num_items_selected (mkWidgets 4 false true true false))) →
     reset_target (mkWidgets 4 false true true false) = false →
     final_session e
       = <["num_items" := PInt 4]>
           (<["target" := PInt 2]> (<["data" := PList [0; 1; 2; 3]]> (∅ : gmap string pyval)))).
Proof.
  apply (session_target_stable (mkWidgets 4 false true true false) 7 9).
  - exists [0; 1; 2; 3], 2. split; [reflexivity|]. split; [reflexivity|].
    apply list_elem_of_In. cbn. tauto.
  - apply list_elem_of_In. cbn. tauto.
Defined.

End SessionFacts.

(** ** Double-precision arithmetic *)

Module DoubleFacts.

Import QKD.
Local Open Scope Z_scope.

Lemma round_ties_even_eq (n d : Z) :
  round_ties_even n d
    = if 2 * (n mod d) <? d then n / d
      else if d <? 2 * (n mod d) then n / d + 1
      else if Z.even (n / d) then n / d else n / d + 1.
Proof.
  unfold round_ties_even, Z.div, Z.modulo. by destruct (Z.div_eucl n d).
Qed.

Lemma round_ties_even_le (n d K : Z) :
  0 < d → n ≤ K * d → round_ties_even n d ≤ K.
Proof.
  intros Hd Hn. rewrite round_ties_even_eq.
  pose proof (Z.div_mod n d ltac:(lia)) as Hm.
  pose proof (Z.mod_pos_bound n d Hd) as Hr.
  repeat case_match; nia.
Qed.

Lemma round_ties_even_ge (n d K : Z) :
  0 < d → K * d ≤ n → K ≤ round_ties_even n d.
Proof.
  intros Hd Hn. rewrite round_ties_even_eq.
  pose proof (Z.div_mod n d ltac:(lia)) as Hm.
  pose proof (Z.mod_pos_bound n d Hd) as Hr.
  repeat case_match; nia.
Qed.

Lemma round_ties_even_below (n d K : Z) :
  0 < d → 2 * n < (2 * K - 1) * d → round_ties_even n d ≤ K - 1.
Proof.
  intros Hd Hn. rewrite round_ties_even_eq.
  pose proof (Z.div_mod n d ltac:(lia)) as Hm.
  pose proof (Z.mod_pos_bound n d Hd) as Hr.
  destruct (Z.ltb_spec (2 * (n mod d)) d); [nia|].
  destruct (Z.ltb_spec d (2 * (n mod d))); [nia|].
  case_match; nia.
Qed.


Lemma ulp_exponent_le (U d b c : Z) :
  0 < d → 0 ≤ c → 0 < b < 2 ^ 53 → U ≤ b * 2 ^ c * d →
  Z.max 0 (Z.log2 (U / d) - 52) ≤ c.
Proof.
  intros Hd Hc Hb HU.
  assert (U / d ≤ b * 2 ^ c) as Hq by (apply Z.div_le_upper_bound; lia).
  apply Z.log2_le_mono in Hq. rewrite Z.log2_mul_pow2 in Hq by lia.
  assert (Z.log2 b < 53) by (apply Z.log2_lt_pow2; lia). lia.
Qed.

(** Rounding does not pass a double: what is at most [b * 2^c] rounds
    to at most that. *)
Lemma round_units_le (U d b c : Z) :
  0 < d → 0 ≤ c → 0 < b < 2 ^ 53 → U ≤ b * 2 ^ c * d →
  round_units U d ≤ b * 2 ^ c.
Proof.
  intros Hd Hc Hb HU. pose proof (ulp_exponent_le U d b c Hd Hc Hb HU) as He.
  unfold round_units. set (e := Z.max 0 _) in *.
  assert (0 ≤ e) as He0 by (subst e; lia).
  assert (0 < 2 ^ e) as Hpe by (apply Z.pow_pos_nonneg; lia).
  assert (2 ^ c = 2 ^ (c - e) * 2 ^ e) as Hsplit
    by (rewrite <- Z.pow_add_r by lia; f_equal; lia).
  rewrite Hsplit in HU |- *. rewrite Z.mul_assoc.
  apply Z.mul_le_mono_nonneg_r; [lia|].
  apply round_ties_even_le; [lia|]. lia.
Qed.

Lemma div_lt_inv (U d K : Z) : 0 < d → U / d < K → U < K * d.
Proof.
  intros Hd Hq. destruct (Z.lt_ge_cases U (K * d)) as [|Hge]; [done|].
  rewrite Z.mul_comm in Hge. apply Z.div_le_lower_bound in Hge; lia.
Qed.

Lemma round_units_ge (U d b c : Z) :
  0 < d → 0 ≤ c → (2 ^ 52 ≤ b ∨ c = 0) → 0 ≤ b < 2 ^ 53 →
  b * 2 ^ c * d ≤ U → b * 2 ^ c ≤ round_units U d.
Proof.
  intros Hd Hc Hnorm Hb HU.
  assert (0 < 2 ^ c) as Hpc by (apply Z.pow_pos_nonneg; lia).
  assert (b * 2 ^ c ≤ U / d) as Hq by (apply Z.div_le_lower_bound; lia).
  unfold round_units. set (e := Z.max 0 _).
  assert (c ≤ e) as Hce.
  { destruct Hnorm as [Hn| ->]; [|subst e; lia].
    apply Z.log2_le_mono in Hq. rewrite Z.log2_mul_pow2 in Hq by lia.
    assert (52 ≤ Z.log2 b) by (apply Z.log2_le_pow2; lia). subst e. lia. }
  assert (0 < 2 ^ e) as Hpe by (apply Z.pow_pos_nonneg; lia).
  destruct (decide (e = c)) as [->|Hne].
  - apply Z.mul_le_mono_nonneg_r; [lia|].
    apply round_ties_even_ge; [lia|]. lia.
  - assert (0 < e) as He by lia.
    assert (e = Z.log2 (U / d) - 52) as Hlog by (subst e; lia).
    assert (0 < U / d) as Hpos.
    { destruct (Z.lt_ge_cases 0 (U / d)) as [|Hle]; [done|].
      rewrite (Z.log2_nonpos _ Hle) in Hlog. lia. }
    pose proof (Z.log2_spec _ Hpos) as [Hlo _].
    replace (Z.log2 (U / d)) with (52 + e) in Hlo by lia.
    rewrite Z.pow_add_r in Hlo by lia.
    pose proof (Z.mul_div_le U d Hd) as Hmd.
    assert (2 ^ 52 ≤ round_ties_even U (d * 2 ^ e)) as Hr
      by (apply round_ties_even_ge; nia).
    assert (2 ^ e = 2 ^ (e - c) * 2 ^ c) as Hsplit
      by (rewrite <- Z.pow_add_r by lia; f_equal; lia).
    assert (2 ^ 1 ≤ 2 ^ (e - c)) as Hge by (apply Z.pow_le_mono_r; lia).
    change (2 ^ 1) with 2 in Hge.
    set (r := round_ties_even _ _) in *.
    rewrite Hsplit, Z.mul_assoc. apply Z.mul_le_mono_nonneg_r; [lia|].
    assert (2 ^ 53 = 2 ^ 52 * 2) as H53 by reflexivity.
    transitivity (2 ^ 52 * 2); [lia|].
    apply Z.mul_le_mono_nonneg; lia.
Qed.

(** What lies below the middle between a double and the one before it
    rounds to at most the one before. *)
Lemma round_units_below (U d b c : Z) :
  0 < d → 0 ≤ c → 2 ^ 52 < b < 2 ^ 53 →
  2 * U < (2 * b - 1) * 2 ^ c * d →
  round_units U d ≤ (b - 1) * 2 ^ c.
Proof.
  intros Hd Hc Hb HU.
  assert (0 < 2 ^ c) as Hpc by (apply Z.pow_pos_nonneg; lia).
  assert (U ≤ b * 2 ^ c * d) as HU' by nia.
  pose proof (ulp_exponent_le U d b c Hd Hc ltac:(lia) HU') as He.
  destruct (decide (Z.max 0 (Z.log2 (U / d) - 52) = c)) as [Heq|Hne].
  - unfold round_units. rewrite Heq.
    apply Z.mul_le_mono_nonneg_r; [lia|].
    apply round_ties_even_below; [lia|]. lia.
  - assert (Z.log2 (U / d) < 52 + c) as Hlog by lia.
    assert (U / d < 2 ^ (52 + c)) as Hq.
    { destruct (Z.lt_ge_cases 0 (U / d)) as [Hpos|Hle].
      - by apply Z.log2_lt_pow2.
      - assert (0 < 2 ^ (52 + c)) by (apply Z.pow_pos_nonneg; lia). lia. }
    apply div_lt_inv in Hq; [|done]. rewrite Z.pow_add_r in Hq by lia.
    transitivity (2 ^ 52 * 2 ^ c).
    + apply round_units_le; [done|done|lia|lia].
    + apply Z.mul_le_mono_nonneg_r; lia.
Qed.

Lemma round_units_nonneg (U d : Z) : 0 < d → 0 ≤ U → 0 ≤ round_units U d.
Proof.
  intros Hd HU. pose proof (round_units_ge U d 0 0 Hd) as H.
  rewrite !Z.mul_0_l in H. apply H; lia.
Qed.


(** The powers of two met below, as multiples of [2^1021]. *)
Lemma powers_of_two :
  2 ^ 1074 = 9007199254740992 * 2 ^ 1021 ∧
  2 ^ 1073 = 4503599627370496 * 2 ^ 1021 ∧
  2 ^ 1028 = 128 * 2 ^ 1021 ∧
  2 ^ 1027 = 64 * 2 ^ 1021 ∧
  2 ^ 1022 = 2 * 2 ^ 1021 ∧
  2 ^ 2098 = 2 ^ 1024 * 2 ^ 1074 ∧
  2 ^ 53 = 9007199254740992 ∧
  2 ^ 52 = 4503599627370496 ∧
  2 ^ 46 = 70368744177664 ∧
  2 ^ 47 = 140737488355328 ∧
  0 < 2 ^ 1021 ∧ 100 < 2 ^ 1024.
Proof. repeat split. Qed.

Ltac in_units :=
  let H := fresh in
  pose proof powers_of_two
    as (H1074 & H1073 & H1028 & H1027 & H1022 & H2098 & H53 & H52 & H46 & H47
        & HX & H1024);
  rewrite ?H1074, ?H1073, ?H1028, ?H1027, ?H1022, ?H53, ?H52, ?H46, ?H47 in *;
  set (X := 2 ^ 1021) in *.

(** The quotient of two counts, [matches] out of [total]: no
    [OverflowError], and a double between 0 and 1. *)
Lemma int_true_div_counts (m t : Z) :
  0 ≤ m ≤ t → 0 < t →
  int_true_div m t = Some (Units (round_units (m * 2 ^ 1074) t)) ∧
  0 ≤ round_units (m * 2 ^ 1074) t ≤ 2 ^ 1074.
Proof.
  intros Hm Ht.
  assert (0 ≤ round_units (m * 2 ^ 1074) t ≤ 2 ^ 1074) as Hq.
  { split; [apply round_units_nonneg; [done|]; apply Z.mul_nonneg_nonneg; lia|].
    rewrite <- (Z.mul_1_l (2 ^ 1074)) at 2.
    apply round_units_le; [done|done|done|]. nia. }
  split; [|done]. unfold int_true_div.
  destruct (Z.eqb_spec t 0); [lia|].
  destruct (Z.ltb_spec m 0); [lia|]. destruct (Z.ltb_spec t 0); [lia|].
  rewrite !Z.abs_eq by lia. unfold nearest_double. cbn [xorb].
  destruct (Z.leb_spec (2 ^ 2098) (round_units (m * 2 ^ 1074) t)); [|done].
  assert (2 ^ 1074 < 2 ^ 2098) by (by apply Z.pow_lt_mono_r). lia.
Qed.

(** A double between 0 and 1, times 100: a double between 0 and 100. *)
Lemma times_100_fraction (q : Z) :
  0 ≤ q ≤ 2 ^ 1074 →
  times_100 (Units q)
    = Units (round_units (q * 100) 1) ∧
  0 ≤ round_units (q * 100) 1 ≤ 100 * 2 ^ 1074.
Proof.
  intros Hq.
  assert (0 ≤ round_units (q * 100) 1 ≤ 100 * 2 ^ 1074) as Ha.
  { split; [apply round_units_nonneg; lia|].
    apply round_units_le; [done|done|done|]. lia. }
  split; [|done]. unfold times_100, nearest_double.
  destruct (Z.ltb_spec q 0); [lia|]. rewrite Z.abs_eq by lia.
  destruct (Z.leb_spec (2 ^ 2098) (round_units (q * 100) 1)); [|done].
  pose proof powers_of_two
    as (_ & _ & _ & _ & _ & H2098 & _ & _ & _ & _ & _ & H1024).
  rewrite H2098 in *. nia.
Qed.


(** [matches / total * 100] on two counts, in units. *)
Lemma accuracy_counts (m t : Z) :
  0 ≤ m ≤ t → 0 < t →
  accuracy m t
    = Some (NFloat (Units
        (round_units (round_units (m * 2 ^ 1074) t * 100) 1))).
Proof.
  intros Hm Ht. unfold accuracy. destruct (Z.ltb_spec 0 t); [|lia].
  destruct (int_true_div_counts m t Hm Ht) as [-> Hq].
  cbn [mbind option_bind]. by destruct (times_100_fraction _ Hq) as [-> _].
Qed.

(** A whole key in agreement gives exactly 100.0. *)
Lemma percent_all (t : Z) :
  0 < t →
  round_units (round_units (t * 2 ^ 1074) t * 100) 1
    = 100 * 2 ^ 1074.
Proof.
  intros Ht.
  assert (round_units (t * 2 ^ 1074) t = 2 ^ 1074) as ->.
  { apply Z.le_antisymm.
    - rewrite <- (Z.mul_1_l (2 ^ 1074)) at 2.
      apply round_units_le; [done|done|done|lia].
    - pose proof (round_units_ge (t * 2 ^ 1074) t (2 ^ 52) 1022 Ht) as Hge.
      change (2 ^ 52 * 2 ^ 1022) with (2 ^ 1074) in Hge.
      apply Hge; [done|by left|done|lia]. }
  apply Z.le_antisymm.
  - apply round_units_le; [done|done|done|lia].
  - pose proof (round_units_ge (2 ^ 1074 * 100) 1
                  (100 * 2 ^ 46) 1028 Z.lt_0_1) as Hge.
    change (100 * 2 ^ 46 * 2 ^ 1028) with (100 * 2 ^ 1074) in Hge.
    apply Hge; [done|by left|done|lia].
Qed.

(** Less than the whole key, of at most [2^53] bits, gives less than
    100.0. *)
Lemma percent_less (m t : Z) :
  0 ≤ m < t → t ≤ 2 ^ 53 →
  round_units (round_units (m * 2 ^ 1074) t * 100) 1
    < 100 * 2 ^ 1074.
Proof.
  intros Hm Ht.
  assert (round_units (m * 2 ^ 1074) t ≤ (2 ^ 53 - 1) * 2 ^ 1021) as Hq.
  { apply round_units_le; [lia|done|done|]. in_units. nia. }
  pose proof (round_units_below
                (round_units (m * 2 ^ 1074) t * 100) 1
                (100 * 2 ^ 46) 1028 Z.lt_0_1) as Hlt.
  eapply Z.le_lt_trans; [apply Hlt; [done|done|]|].
  - revert Hq. generalize (round_units (m * 2 ^ 1074) t). intros q Hq.
    in_units. nia.
  - in_units. lia.
Qed.

(** More than half of a key of at most [2^52] bits gives more than
    50.0. *)
Lemma percent_more_than_half (m t : Z) :
  m ≤ t → t < 2 * m → t ≤ 2 ^ 52 →
  50 * 2 ^ 1074
    < round_units (round_units (m * 2 ^ 1074) t * 100) 1.
Proof.
  intros Hm Hhalf Ht.
  assert ((2 ^ 52 + 1) * 2 ^ 1021 ≤ round_units (m * 2 ^ 1074) t) as Hq.
  { apply round_units_ge; [lia|done|left; lia|done|]. in_units. nia. }
  pose proof (round_units_ge
                (round_units (m * 2 ^ 1074) t * 100) 1
                (50 * 2 ^ 47 + 1) 1027 Z.lt_0_1) as Hge.
  eapply Z.lt_le_trans; [|apply Hge; [done|by left|done|]].
  - in_units. lia.
  - revert Hq. generalize (round_units (m * 2 ^ 1074) t). intros q Hq.
    in_units. nia.
Qed.

(** At most half of the key gives at most 50.0. *)
Lemma percent_at_most_half (m t : Z) :
  0 ≤ m → 0 < t → 2 * m ≤ t →
  round_units (round_units (m * 2 ^ 1074) t * 100) 1
    ≤ 50 * 2 ^ 1074.
Proof.
  intros Hm Ht Hhalf.
  assert (round_units (m * 2 ^ 1074) t ≤ 1 * 2 ^ 1073) as Hq.
  { apply round_units_le; [lia|done|done|]. in_units. nia. }
  apply round_units_le; [done|done|done|].
  revert Hq. generalize (round_units (m * 2 ^ 1074) t). intros q Hq.
  in_units. nia.
Qed.


(** Rounding moves by at most half a step. *)
Lemma round_ties_even_near (n d : Z) :
  0 < d → 2 * Z.abs (round_ties_even n d * d - n) ≤ d.
Proof.
  intros Hd. rewrite round_ties_even_eq.
  pose proof (Z.div_mod n d ltac:(lia)) as Hm.
  pose proof (Z.mod_pos_bound n d Hd) as Hr.
  destruct (Z.ltb_spec (2 * (n mod d)) d); [nia|].
  destruct (Z.ltb_spec d (2 * (n mod d))); [nia|].
  case_match; nia.
Qed.

Lemma round_units_near (U d b c : Z) :
  0 < d → 0 ≤ c → 0 < b < 2 ^ 53 → U ≤ b * 2 ^ c * d →
  2 * Z.abs (round_units U d * d - U) ≤ d * 2 ^ c.
Proof.
  intros Hd Hc Hb HU. pose proof (ulp_exponent_le U d b c Hd Hc Hb HU) as He.
  unfold round_units. set (e := Z.max 0 _) in *.
  assert (0 ≤ e) as He0 by (subst e; lia).
  assert (0 < 2 ^ e) as Hpe by (apply Z.pow_pos_nonneg; lia).
  pose proof (round_ties_even_near U (d * 2 ^ e) ltac:(lia)) as Hnear.
  assert (2 ^ e ≤ 2 ^ c) as Hle by (apply Z.pow_le_mono_r; lia).
  set (k := round_ties_even _ _) in *.
  replace (k * 2 ^ e * d) with (k * (d * 2 ^ e)) by ring. nia.
Qed.

(** The accuracy of [m] matches out of [t]: a double between 0 and 100,
    within [164 * 2^-53] of the exact [m / t * 100]. *)
Lemma accuracy_value (m t : Z) :
  0 ≤ m ≤ t → 0 < t →
  ∃ u, accuracy m t = Some (NFloat (Units u)) ∧
    0 ≤ u ≤ 100 * 2 ^ 1074 ∧
    Z.abs (u * t - 100 * m * 2 ^ 1074) ≤ 164 * 2 ^ 1021 * t.
Proof.
  intros Hm Ht. eexists. split; [by apply accuracy_counts|].
  destruct (int_true_div_counts m t Hm Ht) as [_ Hq].
  destruct (times_100_fraction _ Hq) as [_ Ha]. split; [done|].
  pose proof (round_units_near (m * 2 ^ 1074) t (2 ^ 52) 1022 Ht) as Hn1.
  pose proof (round_units_near
                (round_units (m * 2 ^ 1074) t * 100) 1
                (100 * 2 ^ 46) 1028 Z.lt_0_1) as Hn2.
  change (2 ^ 52 * 2 ^ 1022) with (2 ^ 1074) in Hn1.
  change (100 * 2 ^ 46 * 2 ^ 1028) with (100 * 2 ^ 1074) in Hn2.
  specialize (Hn1 ltac:(done) ltac:(done) ltac:(nia)).
  specialize (Hn2 ltac:(done) ltac:(done) ltac:(nia)).
  revert Hq Ha Hn1 Hn2.
  generalize (round_units (round_units (m * 2 ^ 1074) t * 100) 1).
  generalize (round_units (m * 2 ^ 1074) t). intros q a Hq Ha Hn1 Hn2.
  in_units. nia.
Qed.

End DoubleFacts.

(** ** The BB84 page *)

Module QKDFacts.

Import QKD DoubleFacts.
Local Open Scope Z_scope.

(** *** The import guard *)

(** C5. If neither module provides [Aer], the page shows the error
    message and stops; if [qiskit_aer] does, or else
    [qiskit.providers.aer] does, the page goes on with [Aer] from that
    module and the guard has shown nothing. *)
Theorem import_aer_guard (inst : installation) :
  (has_qiskit_aer inst = false ∧ has_qiskit_providers_aer inst = false →
   import_aer inst = Stopped [StError aer_not_found]) ∧
  (has_qiskit_aer inst = true → import_aer inst = Proceeds qiskit_aer []) ∧
  (has_qiskit_aer inst = false ∧ has_qiskit_providers_aer inst = true →
   import_aer inst = Proceeds qiskit_providers_aer []) ∧
  (∀ aer out, import_aer inst = Proceeds aer out →
   import_from inst aer = Some aer ∧ out = []).
Proof.
  unfold import_aer, import_from. destruct inst as [[] []]; cbn.
  all: repeat split; try (intros; intuition congruence).
  all: by simplify_eq.
Qed.

Lemma import_aer_guard_witness :
  import_aer (mkInstallation false false) = Stopped [StError aer_not_found] ∧
  import_aer (mkInstallation false true) = Proceeds qiskit_providers_aer [].
Proof.
  split.
  - by apply (import_aer_guard (mkInstallation false false)).
  - by apply (import_aer_guard (mkInstallation false true)).
Defined.

(** *** Sifting *)

Lemma keep_agreeing_filter (alice_bases bob_bases : list string)
    (idxs : list nat) :
  Forall (λ i, (i < length alice_bases)%nat ∧ (i < length bob_bases)%nat) idxs →
  keep_agreeing alice_bases bob_bases idxs
    = Some (filter (λ i, alice_bases !! i = bob_bases !! i) idxs).
Proof.
  induction 1 as [|i idxs [Ha Hb] _ IH]; [done|].
  cbn [keep_agreeing]. unfold bases_agree.
  destruct (lookup_lt_is_Some_2 _ _ Ha) as [a Hla].
  destruct (lookup_lt_is_Some_2 _ _ Hb) as [b Hlb].
  rewrite Hla, Hlb, IH. cbn [mbind option_bind]. rewrite filter_cons.
  rewrite Hla, Hlb. f_equal.
  destruct (decide (a = b)) as [->|Hne].
  - rewrite bool_decide_eq_true_2 by done. by rewrite decide_True.
  - rewrite bool_decide_eq_false_2 by done. rewrite decide_False; [done|congruence].
Qed.

Lemma sift_lookup (bits : list Z) (idxs : list nat) :
  Forall (λ i, (i < length bits)%nat) idxs →
  ∃ key, sift bits idxs = Some key ∧ length key = length idxs ∧
    ∀ (j i : nat), idxs !! j = Some i →
      is_Some (bits !! i) ∧ key !! j = bits !! i.
Proof.
  intros Hidx. unfold sift.
  destruct (mapM_is_Some_2 (λ i : nat, bits !! i) idxs) as [key Hkey].
  { eapply Forall_impl; [done|]. intros i Hi. by apply lookup_lt_is_Some_2. }
  exists key. split; [done|]. apply mapM_Some_1 in Hkey.
  split; [symmetry; by eapply Forall2_length|].
  intros j i Hj. destruct (Forall2_lookup_l _ _ _ _ _ Hkey Hj) as (b & Hb & Hbit).
  rewrite Hb, Hbit. eauto.
Qed.

Lemma count_equal_filter (ak bk : list Z) :
  count_equal ak bk
    = Z.of_nat (length (filter (λ p : Z * Z, p.1 = p.2) (zip ak bk))).
Proof.
  revert bk. induction ak as [|a ak IH]; intros [|b bk]; try done.
  cbn [count_equal zip zip_with]. rewrite filter_cons, IH. cbn [fst snd].
  destruct (decide (a = b)); cbn [length]; lia.
Qed.

Lemma count_equal_bounds (ak bk : list Z) :
  0 ≤ count_equal ak bk ≤ Z.of_nat (length ak).
Proof.
  revert bk. induction ak as [|a ak IH]; intros [|b bk]; cbn; try lia.
  specialize (IH bk). destruct (decide (a = b)); lia.
Qed.

(** The guard [total > 0] keeps the division from a zero divisor, and
    the quotient of [matches] out of [total] is never too large for a
    float. The accuracy is a number between 0 and 100, within [2^-45] of
    the exact [matches / total * 100]. *)
Lemma accuracy_defined (matches total : Z) :
  0 ≤ matches ≤ total →
  ∃ acc, accuracy matches total = Some acc ∧
    (total = 0 → acc = NInt 0) ∧
    (0 < total →
     ∃ q, int_true_div matches total = Some q ∧ acc = NFloat (times_100 q)) ∧
    ∃ v, number_value acc = Some v ∧ (0 <= v <= inject_Z 100)%Q ∧
      (0 < total →
       (Qabs (v - inject_Z matches / inject_Z total * inject_Z 100)
          <= 1 # 2 ^ 45)%Q).
Proof.
  intros Hm. destruct (decide (total = 0)) as [->|Hne].
  - exists (NInt 0). split; [done|]. split; [done|]. split; [lia|].
    exists 0%Q. split; [done|]. split; [done|lia].
  - assert (0 < total) as Ht by lia.
    destruct (accuracy_value matches total Hm Ht) as (u & Hacc & Hu & Hnear).
    exists (NFloat (Units u)). split; [done|]. split; [lia|]. split.
    { intros _. destruct (int_true_div_counts matches total Hm Ht) as [Hq _].
      eexists. split; [exact Hq|]. rewrite accuracy_counts in Hacc by done.
      destruct (int_true_div_counts matches total Hm Ht) as [_ Hb].
      destruct (times_100_fraction _ Hb) as [-> _]. congruence. }
    eexists. split; [reflexivity|].
    assert (0 < 2 ^ 1074) as HP by done.
    split; [split|].
    + unfold Qle. cbn [Qnum Qden inject_Z]. lia.
    + unfold Qle. cbn [Qnum Qden inject_Z]. rewrite Z2Pos.id by done. lia.
    + intros _. destruct total as [|p|p]; try lia.
      unfold Qle, Qabs, Qminus, Qplus, Qopp, Qdiv, Qmult, Qinv, inject_Z.
      cbn [Qnum Qden Z.mul Z.opp].
      rewrite !Pos2Z.inj_mul, Z2Pos.id by done.
      change (Z.pos (2 ^ 45)) with 35184372088832.
      replace (u * (1 * Z.pos p * 1) + - (matches * 1 * 100) * 2 ^ 1074)
        with (u * Z.pos p - 100 * matches * 2 ^ 1074) by ring.
      revert Hnear. generalize (Z.abs (u * Z.pos p - 100 * matches * 2 ^ 1074)).
      intros k Hk. in_units. nia.
Qed.

(** Steps 4 and 5 succeed on lists of [num_bits] elements. *)
Lemma key_agreement_runs (num_bits : nat) (alice_bits : list Z)
    (alice_bases bob_bases : list string) (bob_results : list Z) :
  length alice_bits = num_bits → length alice_bases = num_bits →
  length bob_bases = num_bits → length bob_results = num_bits →
  ∃ idxs ak bk acc,
    idxs = agreeing_positions num_bits alice_bases bob_bases ∧
    sift alice_bits idxs = Some ak ∧ sift bob_results idxs = Some bk ∧
    accuracy (count_equal ak bk) (Z.of_nat (length idxs)) = Some acc ∧
    key_agreement num_bits alice_bits alice_bases bob_bases bob_results
      = Some (mkSifted idxs ak bk (count_equal ak bk) (Z.of_nat (length idxs))
                acc).
Proof.
  intros Hab Hbases Hbob Hres. unfold key_agreement, matching_indices.
  rewrite keep_agreeing_filter.
  2:{ apply Forall_forall. intros i Hi. apply elem_of_seq in Hi. lia. }
  fold (agreeing_positions num_bits alice_bases bob_bases).
  set (idxs := agreeing_positions num_bits alice_bases bob_bases).
  assert (Forall (λ i, (i < num_bits)%nat) idxs) as Hidx.
  { apply Forall_forall. intros i Hi. subst idxs. unfold agreeing_positions in Hi.
    apply list_elem_of_filter in Hi as [_ Hi]. apply elem_of_seq in Hi. lia. }
  destruct (sift_lookup alice_bits idxs) as (ak & Hak & Hlen & _);
    [by rewrite Hab|].
  destruct (sift_lookup bob_results idxs) as (bk & Hbk & _); [by rewrite Hres|].
  destruct (accuracy_defined (count_equal ak bk) (Z.of_nat (length idxs)))
    as (acc & Hacc & _).
  { pose proof (count_equal_bounds ak bk). lia. }
  exists idxs, ak, bk, acc. cbn [mbind option_bind]. rewrite Hak, Hbk.
  cbn [mbind option_bind]. by rewrite Hacc.
Qed.

(** C8. On lists of [num_bits] elements, the matching indices are exactly
    the positions where Alice's and Bob's bases agree, in increasing
    order; both keys have as many elements as there are such positions,
    and element [j] of each key is Alice's bit, respectively Bob's
    result, at the [j]-th matching index. *)
Theorem sifted_keys_positions (num_bits : nat) (alice_bits : list Z)
    (alice_bases bob_bases : list string) (bob_results : list Z) :
  length alice_bits = num_bits → length alice_bases = num_bits →
  length bob_bases = num_bits → length bob_results = num_bits →
  ∃ s,
    key_agreement num_bits alice_bits alice_bases bob_bases bob_results
      = Some s ∧
    s_indices s
      = filter (λ i, alice_bases !! i = bob_bases !! i) (seq 0 num_bits) ∧
    length (s_alice_key s) = length (s_indices s) ∧
    length (s_bob_key s) = length (s_indices s) ∧
    ∀ (j i : nat), s_indices s !! j = Some i →
      ∃ a b, alice_bits !! i = Some a ∧ bob_results !! i = Some b ∧
        s_alice_key s !! j = Some a ∧ s_bob_key s !! j = Some b.
Proof.
  intros Hab Hbases Hbob Hres.
  destruct (key_agreement_runs num_bits alice_bits alice_bases bob_bases
              bob_results Hab Hbases Hbob Hres)
    as (idxs & ak & bk & acc & Hidxs & Hak & Hbk & _ & Hrun).
  assert (Forall (λ i, (i < num_bits)%nat) idxs) as Hidx.
  { apply Forall_forall. intros i Hi. subst idxs. unfold agreeing_positions in Hi.
    apply list_elem_of_filter in Hi as [_ Hi]. apply elem_of_seq in Hi. lia. }
  destruct (sift_lookup alice_bits idxs) as (ak' & Hak' & Hlena & Hgeta);
    [by rewrite Hab|].
  destruct (sift_lookup bob_results idxs) as (bk' & Hbk' & Hlenb & Hgetb);
    [by rewrite Hres|].
  simplify_eq. eexists. split; [exact Hrun|]. cbn [s_indices s_alice_key s_bob_key].
  split; [done|]. split; [done|]. split; [done|].
  intros j i Hj. destruct (Hgeta j i Hj) as [[a Ha] Hka].
  destruct (Hgetb j i Hj) as [[b Hb] Hkb].
  exists a, b. by rewrite Hka, Hkb.
Qed.

Lemma sifted_keys_positions_witness :
  ∃ s,
    key_agreement 4 [1; 0; 1; 1] ["Z"; "X"; "X"; "Z"] ["Z"; "Z"; "X"; "X"]
      [1; 1; 1; 0] = Some s ∧
    s_indices s
      = filter (λ i, ["Z"; "X"; "X"; "Z"] !! i = ["Z"; "Z"; "X"; "X"] !! i)
          (seq 0 4) ∧
    length (s_alice_key s) = length (s_indices s) ∧
    length (s_bob_key s) = length (s_indices s) ∧
    ∀ (j i : nat), s_indices s !! j = Some i →
      ∃ a b, [1; 0; 1; 1] !! i = Some a ∧ [1; 1; 1; 0] !! i = Some b ∧
        s_alice_key s !! j = Some a ∧ s_bob_key s !! j = Some b.
Proof.
  apply (sifted_keys_positions 4 [1; 0; 1; 1] ["Z"; "X"; "X"; "Z"]
           ["Z"; "Z"; "X"; "X"] [1; 1; 1; 0]); reflexivity.
Defined.

(** *** Key agreement *)

(** The model of double precision agrees with the kernel's binary64
    floats: for every number of matching bases the page's slider allows
    (at most 32), the accuracy is the double that the kernel computes
    for [matches / total * 100]. *)
Lemma accuracy_agrees_with_kernel_floats :
  forallb (λ total : nat,
    forallb (λ m : nat,
      match accuracy (Z.of_nat m) (Z.of_nat total),
            units_of_float (accuracy_double (Z.of_nat m) (Z.of_nat total)) with
      | Some (NFloat (Units u)), Some v => u =? v
      | _, _ => false
      end)
      (seq 0 (S total)))
    (seq 1 32) = true.
Proof. vm_compute. reflexivity. Qed.

(** Two thirds of a key: the double 66.66666666666666
    ([0x1.0aaaaaaaaaaaap+6]), not the exact 200/3. *)
Lemma accuracy_two_of_three :
  ∃ u, accuracy 2 3 = Some (NFloat (Units u)) ∧
    units_of_float 0x1.0aaaaaaaaaaaap+6%float = Some u ∧
    ¬ (u # Z.to_pos (2 ^ 1074) == 200 # 3)%Q.
Proof.
  eexists. split; [vm_compute; reflexivity|].
  split; [vm_compute; reflexivity|].
  intros Heq. vm_compute in Heq. discriminate Heq.
Qed.

(** C9. The key-agreement step never divides by zero. On lists of
    [num_bits] elements it returns; [total] is the number of positions
    at which the bases agree and [matches] the number of positions at
    which the two keys sifted there agree; with no matching basis
    ([total = 0]) the accuracy is the integer 0; with [total > 0] it is
    the float [matches / total * 100], which is within [2^-45] of the
    exact quotient; in both cases it lies between 0 and 100. *)
Theorem accuracy_in_range (num_bits : nat) (alice_bits : list Z)
    (alice_bases bob_bases : list string) (bob_results : list Z) :
  length alice_bits = num_bits → length alice_bases = num_bits →
  length bob_bases = num_bits → length bob_results = num_bits →
  ∃ s,
    key_agreement num_bits alice_bits alice_bases bob_bases bob_results
      = Some s ∧
    s_indices s
      = filter (λ i, alice_bases !! i = bob_bases !! i) (seq 0 num_bits) ∧
    length (s_alice_key s) = length (s_indices s) ∧
    length (s_bob_key s) = length (s_indices s) ∧
    (∀ (j i : nat), s_indices s !! j = Some i →
       s_alice_key s !! j = alice_bits !! i ∧
       s_bob_key s !! j = bob_results !! i) ∧
    s_total s = Z.of_nat (length (s_indices s)) ∧
    s_matches s
      = Z.of_nat (length (filter (λ p : Z * Z, p.1 = p.2)
                            (zip (s_alice_key s) (s_bob_key s)))) ∧
    (s_total s = 0 → s_accuracy s = NInt 0) ∧
    (0 < s_total s →
     ∃ q, int_true_div (s_matches s) (s_total s) = Some q ∧
       s_accuracy s = NFloat (times_100 q)) ∧
    ∃ v, number_value (s_accuracy s) = Some v ∧
      (0 <= v <= inject_Z 100)%Q ∧
      (0 < s_total s →
       (Qabs (v - inject_Z (s_matches s) / inject_Z (s_total s) * inject_Z 100)
          <= 1 # 2 ^ 45)%Q).
Proof.
  intros Hab Hbases Hbob Hres.
  destruct (key_agreement_runs num_bits alice_bits alice_bases bob_bases
              bob_results Hab Hbases Hbob Hres)
    as (idxs & ak & bk & acc & Hidxs & Hak & Hbk & Hacc & Hrun).
  assert (Forall (λ i, (i < num_bits)%nat) idxs) as Hidx.
  { apply Forall_forall. intros i Hi. subst idxs. unfold agreeing_positions in Hi.
    apply list_elem_of_filter in Hi as [_ Hi]. apply elem_of_seq in Hi. lia. }
  destruct (sift_lookup alice_bits idxs) as (ak' & Hak' & Hlena & Hgeta);
    [by rewrite Hab|].
  destruct (sift_lookup bob_results idxs) as (bk' & Hbk' & Hlenb & Hgetb);
    [by rewrite Hres|].
  assert (ak' = ak) as -> by congruence.
  assert (bk' = bk) as -> by congruence.
  eexists. split; [exact Hrun|].
  cbn [s_indices s_alice_key s_bob_key s_total s_matches s_accuracy].
  split; [done|]. split; [done|]. split; [done|].
  split; [intros j i Hj; split; [by apply Hgeta|by apply Hgetb]|].
  split; [done|]. split; [apply count_equal_filter|].
  destruct (accuracy_defined (count_equal ak bk) (Z.of_nat (length idxs)))
    as (acc' & Hacc' & Hzero & Hpos & Hval).
  { pose proof (count_equal_bounds ak bk). lia. }
  assert (acc' = acc) as -> by congruence. done.
Qed.

Lemma accuracy_in_range_witness :
  ∃ s,
    key_agreement 4 [1; 0; 1; 1] ["Z"; "X"; "X"; "Z"] ["Z"; "Z"; "X"; "X"]
      [1; 1; 0; 0] = Some s ∧
    s_indices s
      = filter (λ i, ["Z"; "X"; "X"; "Z"] !! i = ["Z"; "Z"; "X"; "X"] !! i)
          (seq 0 4) ∧
    length (s_alice_key s) = length (s_indices s) ∧
    length (s_bob_key s) = length (s_indices s) ∧
    (∀ (j i : nat), s_indices s !! j = Some i →
       s_alice_key s !! j = [1; 0; 1; 1] !! i ∧
       s_bob_key s !! j = [1; 1; 0; 0] !! i) ∧
    s_total s = Z.of_nat (length (s_indices s)) ∧
    s_matches s
      = Z.of_nat (length (filter (λ p : Z * Z, p.1 = p.2)
                            (zip (s_alice_key s) (s_bob_key s)))) ∧
    (s_total s = 0 → s_accuracy s = NInt 0) ∧
    (0 < s_total s →
     ∃ q, int_true_div (s_matches s) (s_total s) = Some q ∧
       s_accuracy s = NFloat (times_100 q)) ∧
    ∃ v, number_value (s_accuracy s) = Some v ∧
      (0 <= v <= inject_Z 100)%Q ∧
      (0 < s_total s →
       (Qabs (v - inject_Z (s_matches s) / inject_Z (s_total s) * inject_Z 100)
          <= 1 # 2 ^ 45)%Q).
Proof.
  apply (accuracy_in_range 4 [1; 0; 1; 1] ["Z"; "X"; "X"; "Z"]
           ["Z"; "Z"; "X"; "X"] [1; 1; 0; 0]); reflexivity.
Defined.

(** *** The histogram *)

Lemma total_count_insert (counts : gmap string Z) (k : string) (v : Z) :
  counts !! k = None → total_count (<[k := v]> counts) = v + total_count counts.
Proof.
  intros Hk. unfold total_count. rewrite map_fold_insert_L; [done| |done].
  intros. cbn. lia.
Qed.

Lemma total_count_tally (counts : gmap string Z) (bit : Z) :
  total_count (tally counts bit) = total_count counts + 1.
Proof.
  unfold tally. destruct (counts !! pretty bit) as [v|] eqn:Hk; cbn [default].
  - rewrite <- (insert_delete_id counts (pretty bit) v Hk).
    rewrite insert_insert_eq.
    rewrite !total_count_insert by apply lookup_delete_eq. unfold Datatypes.id. lia.
  - rewrite total_count_insert by done. lia.
Qed.

Lemma occurrences_cons (bit b : Z) (l : list Z) :
  occurrences bit (b :: l)
    = (if decide (b = bit) then 1 else 0) + occurrences bit l.
Proof.
  unfold occurrences. rewrite filter_cons.
  destruct (decide (b = bit)); cbn [length]; lia.
Qed.

Lemma occurrences_nonneg (bit : Z) (l : list Z) : 0 ≤ occurrences bit l.
Proof. unfold occurrences. lia. Qed.

Lemma occurrences_pos (bit : Z) (l : list Z) : bit ∈ l → 0 < occurrences bit l.
Proof.
  induction l as [|b l IH]; intros Hin; [by apply elem_of_nil in Hin|].
  rewrite occurrences_cons. pose proof (occurrences_nonneg bit l).
  destruct (decide (b = bit)); [lia|].
  apply elem_of_cons in Hin as [->|Hin]; [done|]. apply IH in Hin. lia.
Qed.

Lemma occurrences_absent (bit : Z) (l : list Z) :
  bit ∉ l → occurrences bit l = 0.
Proof.
  induction l as [|b l IH]; intros Hnin; [done|].
  apply not_elem_of_cons in Hnin as [Hne Hnin].
  rewrite occurrences_cons, IH by done. by rewrite decide_False.
Qed.

(** The loop over [bob_results], started from the dictionary [counts]. *)
Lemma fold_tally (bob_results : list Z) :
  ∀ counts : gmap string Z,
  (∀ bit : Z,
     fold_left tally bob_results counts !! pretty bit
       = if decide (bit ∈ bob_results)
         then Some (default 0 (counts !! pretty bit) + occurrences bit bob_results)
         else counts !! pretty bit) ∧
  (∀ key : string,
     (∀ bit : Z, bit ∈ bob_results → key ≠ pretty bit) →
     fold_left tally bob_results counts !! key = counts !! key) ∧
  total_count (fold_left tally bob_results counts)
    = total_count counts + Z.of_nat (length bob_results).
Proof.
  induction bob_results as [|b l IH]; intros counts.
  - cbn. split; [|split; [done|lia]]. intros bit.
    rewrite decide_False; [done|]. apply not_elem_of_nil.
  - cbn [fold_left]. destruct (IH (tally counts b)) as (Hget & Hother & Hsum).
    split; [|split].
    + intros bit. rewrite Hget, occurrences_cons. unfold tally.
      destruct (decide (b = bit)) as [->|Hne].
      * rewrite lookup_insert_eq. cbn [default]. unfold Datatypes.id.
        rewrite (decide_True (P := bit ∈ bit :: l)) by (apply elem_of_cons; by left).
        destruct (decide (bit ∈ l)) as [Hin|Hnin]; [f_equal; lia|].
        f_equal. rewrite occurrences_absent by done. lia.
      * assert (pretty b ≠ (pretty bit : string)) as Hpne.
        { intros Heq. by apply (inj pretty) in Heq. }
        rewrite lookup_insert_ne by done.
        destruct (decide (bit ∈ l)) as [Hin|Hnin].
        -- by rewrite decide_True by (apply elem_of_cons; by right).
        -- rewrite decide_False; [done|].
           intros Hin. apply elem_of_cons in Hin as [->|Hin]; done.
    + intros key Hkey. rewrite Hother.
      * unfold tally. rewrite lookup_insert_ne; [done|].
        intros Heq. eapply Hkey; [apply elem_of_cons; by left|done].
      * intros bit Hin. apply Hkey. apply elem_of_cons. by right.
    + rewrite Hsum, total_count_tally. cbn [length]. lia.
Qed.

(** C10. The histogram is computed from Bob's results alone: the
    dictionary maps the string form of each bit that occurs in
    [bob_results] to the number of its occurrences, has no other key, and
    its values add up to the length of [bob_results]. *)
Theorem histogram_counts (bob_results : list Z) :
  (∀ bit : Z, bit ∈ bob_results →
     histogram bob_results !! pretty bit = Some (occurrences bit bob_results)) ∧
  (∀ key : string,
     (∀ bit : Z, bit ∈ bob_results → key ≠ pretty bit) →
     histogram bob_results !! key = None) ∧
  total_count (histogram bob_results) = Z.of_nat (length bob_results).
Proof.
  unfold histogram.
  destruct (fold_tally bob_results ∅) as (Hget & Hother & Hsum).
  split; [|split].
  - intros bit Hin. rewrite Hget, decide_True by done.
    by rewrite lookup_empty.
  - intros key Hkey. rewrite Hother by done. apply lookup_empty.
  - rewrite Hsum. unfold total_count. rewrite map_fold_empty. lia.
Qed.

Lemma histogram_counts_witness :
  histogram [1; 0; 1; 1] !! pretty 1 = Some (occurrences 1 [1; 0; 1; 1]) ∧
  total_count (histogram [1; 0; 1; 1]) = Z.of_nat (length [1; 0; 1; 1]).
Proof.
  destruct (histogram_counts [1; 0; 1; 1]) as (Hget & _ & Hsum).
  split; [apply Hget; apply list_elem_of_In; cbn; tauto | exact Hsum].
Defined.

End QKDFacts.

(** ** The entangling circuit *)

Module EntanglementFacts.

Import Circuit Statevector Entanglement.

Local Open Scope R_scope.

(** Decides the tests on concrete basis states in the goal. *)
Ltac eval_conditions :=
  repeat match goal with
  | |- context [if ?c then _ else _] =>
      let b := eval vm_compute in c in
      change c with b; cbv iota
  end.

Lemma sqrt2_inv_sqr : 1 / R_sqrt.sqrt 2 * (1 / R_sqrt.sqrt 2) = 1 / 2.
Proof.
  assert (0 < R_sqrt.sqrt 2) as Hpos by (apply sqrt_lt_R0; lra).
  assert (R_sqrt.sqrt 2 * R_sqrt.sqrt 2 = 2) as Hsq by (apply sqrt_def; lra).
  field_simplify_eq; [|lra]. lra.
Qed.

(** Its amplitudes: [1/sqrt 2] on [|00>] and [|11>], none elsewhere. *)
Lemma bell_state_amplitudes :
  bell_state 0%Z = 1 / R_sqrt.sqrt 2 ∧ bell_state 1%Z = 0 ∧
  bell_state 2%Z = 0 ∧ bell_state 3%Z = 1 / R_sqrt.sqrt 2.
Proof.
  unfold bell_state, apply_MCX, apply_H, flip, ket0. cbn [forallb andb].
  repeat split; eval_conditions; lra.
Qed.

(** C7. The circuit of [entangelment.py] (H on qubit 0, CNOT from qubit 0
    to qubit 1, both qubits measured) reads 01 and 10 with probability 0;
    the outcomes 00 and 11 have probability 1/2 each. *)
Theorem bell_outcomes_correlated :
  ∃ qc p00 p01 p10 p11,
    Entanglement.qc = Some qc ∧
    data qc = [H 0; CX 0 1; Measure 0 0; Measure 1 1] ∧
    outcome_prob qc "00" = Some p00 ∧
    outcome_prob qc "01" = Some p01 ∧
    outcome_prob qc "10" = Some p10 ∧
    outcome_prob qc "11" = Some p11 ∧
    p01 = 0 ∧ p10 = 0 ∧ p00 = 1 / 2 ∧ p11 = 1 / 2.
Proof.
  eexists. do 4 eexists. split; [vm_compute; reflexivity|].
  split; [reflexivity|].
  unfold outcome_prob. cbn [data run mbind option_bind num_clbits num_qubits].
  fold bell_state. change (range (2 ^ 2)) with [0; 1; 2; 3]%Z.
  cbn [map foldr]. eval_conditions.
  destruct bell_state_amplitudes as (-> & -> & -> & ->).
  do 4 (split; [reflexivity|]).
  rewrite sqrt2_inv_sqr. repeat split; lra.
Qed.

End EntanglementFacts.

(** ** More on the classical scan *)

Module SearchMore.

Import Circuit Grover ScanParts SearchFacts.
Local Open Scope Z_scope.

(** The two ways the page locates the target, [data.index(target)] and the
    scan, from the same offset. *)
Lemma list_index_search_from (v : bool) (t : Z) (data : list Z) :
  t ∈ data →
  ∀ (i steps : Z) (out : list string),
  ∃ (k : nat) (out' : list string),
    list_index (PInt t) data i = Some (i + Z.of_nat k) ∧
    search_from v t data i steps out
      = ((i + Z.of_nat k, steps + Z.of_nat k + 1), out').
Proof.
  induction data as [|val rest IH]; intros Hin i steps out.
  - by apply elem_of_nil in Hin.
  - cbn [list_index search_from].
    destruct (decide (val = t)) as [->|Hne].
    + rewrite decide_True by done. exists 0%nat. eexists.
      split; f_equal; [lia|]. f_equal; lia.
    + rewrite decide_False by congruence.
      apply elem_of_cons in Hin as [Heq|Hin]; [congruence|].
      destruct (IH Hin (i + 1) (steps + 1)
                  (if v then out ++ [step_line (steps + 1) i val] else out))
        as (k & out' & Hidx & Hres).
      exists (S k), out'. rewrite Hidx, Hres.
      split; f_equal; [lia|]. f_equal; lia.
Qed.

(** The scan finds the target where [data.index(target)] does: the index
    the page shows beside the target is the one "Run Classical Search"
    reports, and the step count is that index plus one. *)
Theorem classical_search_agrees_with_index (data : list Z) (t : Z) (v : bool) :
  t ∈ data →
  ∃ idx,
    list_index (PInt t) data 0 = Some idx ∧
    (classical_search data t v).1 = (idx, idx + 1).
Proof.
  intros Hin. unfold classical_search.
  destruct (list_index_search_from v t data Hin 0 0 [])
    as (k & out' & Hidx & Hres).
  exists (Z.of_nat k). rewrite Hidx, Hres. cbn [fst].
  split; f_equal; lia.
Qed.

Lemma classical_search_agrees_with_index_witness :
  ∃ idx,
    list_index (PInt 4) [3; 1; 4; 1; 5] 0 = Some idx ∧
    (classical_search [3; 1; 4; 1; 5] 4 true).1 = (idx, idx + 1).
Proof.
  apply (classical_search_agrees_with_index [3; 1; 4; 1; 5] 4 true).
  apply list_elem_of_In. cbn. tauto.
Defined.

Lemma range_lookup (n : Z) (k : nat) (x : Z) :
  range n !! k = Some x → x = Z.of_nat k ∧ Z.of_nat k < n.
Proof.
  unfold range. rewrite list_lookup_fmap. intros Hk.
  apply fmap_Some in Hk as (j & Hj & ->).
  apply lookup_seq in Hj as [-> Hlt]. lia.
Qed.

Lemma range_elem (n t : Z) : t ∈ range n ↔ 0 ≤ t < n.
Proof.
  unfold range. rewrite list_elem_of_fmap. split.
  - intros (k & -> & Hk). apply elem_of_seq in Hk. lia.
  - intros Ht. exists (Z.to_nat t). split; [lia|]. apply elem_of_seq. lia.
Qed.

(** On the page's own data, [list(range(n))], the scan for a target [t]
    below [n] stops at index [t] after [t + 1] steps: the last element
    costs [n] steps. *)
Theorem classical_search_on_range (n t : Z) (v : bool) :
  0 ≤ t < n →
  (classical_search (range n) t v).1 = (t, t + 1).
Proof.
  intros Ht. unfold classical_search.
  destruct (search_from_found v t (range n) (proj2 (range_elem n t) Ht) 0 0 [])
    as (k & out' & Hk & _ & Hres & _).
  apply range_lookup in Hk as [-> _]. rewrite Hres. cbn [fst].
  f_equal; lia.
Qed.

Lemma classical_search_on_range_witness :
  (classical_search (range 16) 15 false).1 = (15, 15 + 1).
Proof. apply (classical_search_on_range 16 15 false). lia. Defined.

Section Trace.

Context {A : Type} `{EqDecision A} `{Pretty A}.

(** The scan splits into what it returns and what it writes: neither the
    flag nor the lines written before change the returned pair. *)
Lemma search_from_split (v : bool) (target : A) (data : list A) :
  ∀ (i steps : Z) (out : list string),
  search_from v target data i steps out
    = (scan_result target data i steps,
       if v then out ++ scan_lines target data i steps else out).
Proof.
  induction data as [|val rest IH]; intros i steps out.
  - cbn. destruct v; by rewrite ?app_nil_r.
  - cbn [search_from scan_result scan_lines].
    destruct (decide (val = target)); [by destruct v|].
    rewrite IH. destruct v; [by rewrite <- app_assoc|done].
Qed.

Lemma scan_lines_lookup (target : A) (data : list A) :
  ∀ (i steps : Z) (j : nat) (line : string),
  scan_lines target data i steps !! j = Some line →
  ∃ x, data !! j = Some x ∧
    line = step_line (steps + Z.of_nat j + 1) (i + Z.of_nat j) x.
Proof.
  induction data as [|val rest IH]; intros i steps j line Hj; [done|].
  cbn [scan_lines] in Hj.
  assert (j = 0%nat ∧ line = step_line (steps + 1) i val
          ∨ ∃ j', j = S j' ∧ val ≠ target
              ∧ scan_lines target rest (i + 1) (steps + 1) !! j' = Some line)
    as [[-> ->]|(j' & -> & _ & Hj')].
  { destruct (decide (val = target)); destruct j as [|j']; cbn in Hj;
      simplify_eq; eauto. }
  - exists val. split; [done|]. f_equal; lia.
  - destruct (IH _ _ _ _ Hj') as (x & Hx & ->).
    exists x. split; [done|]. f_equal; lia.
Qed.

Lemma scan_lines_length (target : A) (data : list A) :
  ∀ (i steps : Z),
  Z.of_nat (length (scan_lines target data i steps))
    = (scan_result target data i steps).2 - steps.
Proof.
  induction data as [|val rest IH]; intros i steps; [cbn; lia|].
  cbn [scan_lines scan_result].
  destruct (decide (val = target)); cbn [length snd]; [lia|].
  rewrite Nat2Z.inj_succ, IH. lia.
Qed.

(** With [visualize] set, the scan writes one line per element it visits,
    "Step j+1: Checking index j (value=data[j])" for the [j]-th, as many
    lines as the step count it returns; without it the scan writes
    nothing; and the returned pair is the same either way. *)
Theorem classical_search_trace (data : list A) (target : A) :
  (classical_search data target true).1
    = (classical_search data target false).1 ∧
  (classical_search data target false).2 = [] ∧
  Z.of_nat (length (classical_search data target true).2)
    = (classical_search data target true).1.2 ∧
  ∀ (j : nat) (line : string),
    (classical_search data target true).2 !! j = Some line →
    ∃ x, data !! j = Some x ∧
      line = step_line (Z.of_nat j + 1) (Z.of_nat j) x.
Proof.
  unfold classical_search. rewrite !search_from_split. cbn [fst snd app].
  split; [done|]. split; [done|].
  split; [rewrite scan_lines_length; lia|].
  intros j line Hj. apply scan_lines_lookup in Hj as (x & Hx & ->).
  exists x. split; [done|]. f_equal; lia.
Qed.

End Trace.

End SearchMore.

(** ** The builders at and beyond their bounds *)

Module BuilderBounds.

Import Circuit CircuitFacts Grover OracleFacts.
Local Open Scope Z_scope.

Lemma x_where_zero_num_qubits (bits : list ascii) :
  ∀ (i : Z) (qc qc' : QuantumCircuit),
  x_where_zero i bits qc = Some qc' → num_qubits qc' = num_qubits qc.
Proof.
  induction bits as [|bit rest IH]; intros i qc qc' Hrun.
  - cbn in Hrun. by simplify_eq.
  - cbn [x_where_zero] in Hrun. apply bind_Some in Hrun as (qc1 & Hstep & Hrest).
    apply IH in Hrest. rewrite Hrest.
    destruct (decide (bit = "0"%char)); [|by simplify_eq].
    unfold gate1 in Hstep. apply bind_Some in Hstep as (q & _ & Hq).
    by simplify_eq.
Qed.

Lemma gate1_out_of_range g q qc :
  num_qubits qc ≤ q → gate1 g q qc = None.
Proof.
  intros Hq. unfold gate1, qubit_index.
  destruct (Z.ltb_spec q (num_qubits qc)); [lia|].
  by rewrite andb_false_r.
Qed.

(** Without a qubit there is no circuit: the last qubit, [n - 1], does not
    exist. *)
Theorem builders_need_a_qubit (t n : Z) :
  n ≤ 0 →
  build_oracle t n = None ∧ diffuser n = None ∧
  grover_circuit_builder t n = None.
Proof.
  intros Hn. assert (build_oracle t n = None) as Horacle.
  { unfold build_oracle, format_bin. destruct (Z.ltb_spec n 0); [done|].
    assert (n = 0) as -> by lia. cbn [mbind option_bind]. unfold new_circuit.
    cbn [Z.leb Z.compare andb mbind option_bind].
    destruct (x_where_zero 0 _ _) as [qc|] eqn:Hx; [|done].
    apply x_where_zero_num_qubits in Hx. cbn [mbind option_bind].
    unfold gate1, qubit_index. rewrite Hx. done. }
  split; [done|]. split.
  - unfold diffuser, new_circuit. destruct (Z.leb_spec 0 n); [|done].
    by assert (n = 0) as -> by lia.
  - unfold grover_circuit_builder. by rewrite Horacle.
Qed.

Lemma builders_need_a_qubit_witness :
  build_oracle 0 0 = None ∧ diffuser 0 = None ∧
  grover_circuit_builder 0 0 = None.
Proof. apply (builders_need_a_qubit 0 0). lia. Defined.

(** The binary digits of a positive number are as many as its size. *)
Lemma bin_digits_bound (p : positive) :
  2 ^ Z.of_nat (length (bin_digits p)) ≤ 2 * Zpos p
  ∧ Zpos p < 2 ^ Z.of_nat (length (bin_digits p)).
Proof.
  induction p as [p IH|p IH|]; cbn [bin_digits]; [| |cbn; lia].
  - rewrite length_app. cbn [length].
    replace (Z.of_nat (length (bin_digits p) + 1))
      with (Z.succ (Z.of_nat (length (bin_digits p)))) by lia.
    rewrite Z.pow_succ_r by lia. lia.
  - rewrite length_app. cbn [length].
    replace (Z.of_nat (length (bin_digits p) + 1))
      with (Z.succ (Z.of_nat (length (bin_digits p)))) by lia.
    rewrite Z.pow_succ_r by lia. lia.
Qed.

Lemma bin_digits_length (p : positive) :
  Z.of_nat (length (bin_digits p)) = Z.log2 (Zpos p) + 1.
Proof.
  destruct (bin_digits_bound p) as [Hlo Hhi].
  assert (0 < length (bin_digits p))%nat as Hpos.
  { destruct p; cbn [bin_digits]; rewrite ?length_app; cbn; lia. }
  symmetry. apply Z.add_move_r. apply Z.log2_unique; [lia|].
  replace (Z.succ (Z.of_nat (length (bin_digits p)) - 1))
    with (Z.of_nat (length (bin_digits p))) by lia.
  split; [|done].
  replace (Z.of_nat (length (bin_digits p)))
    with (Z.succ (Z.of_nat (length (bin_digits p)) - 1)) in Hlo by lia.
  rewrite Z.pow_succ_r in Hlo by lia. lia.
Qed.

(** [reversed(target_bin)] for a non-negative target of any size: the
    bits of the target up to its highest one, or up to [n] if that is
    more. *)
Lemma format_bin_bits_wide (t n : Z) :
  1 ≤ n → 0 ≤ t →
  ∃ target_bin, format_bin t n = Some target_bin ∧
    rev target_bin = map (bitchar t) (range (Z.max n (Z.log2 t + 1))).
Proof.
  intros Hn Ht. destruct (Z.ltb_spec t (2 ^ n)) as [Hlt|Hge].
  - destruct (format_bin_bits t n Hn (conj Ht Hlt)) as (s & Hs & Hrev).
    exists s. split; [done|]. rewrite Hrev. f_equal. f_equal.
    destruct (Z.eq_dec t 0) as [->|Hne]; [cbn; lia|].
    assert (Z.log2 t < n) by (apply Z.log2_lt_pow2; lia). lia.
  - assert (0 < 2 ^ n) by (apply Z.pow_pos_nonneg; lia).
    destruct t as [|p|p]; [lia| |lia].
    unfold format_bin. destruct (Z.ltb_spec n 0); [lia|].
    destruct (Z.ltb_spec (Z.pos p) 0); [lia|].
    eexists. split; [done|]. cbn [app length bin_abs].
    rewrite rev_app_distr, rev_repeat, Nat.sub_0_r.
    assert (n ≤ Z.log2 (Z.pos p)) as Hlog by (apply Z.log2_le_pow2; lia).
    pose proof (bin_digits_length p) as Hlen.
    replace (Z.max n (Z.log2 (Z.pos p) + 1))
      with (Z.of_nat (length (bin_digits p))) by lia.
    rewrite <- bin_digits_bits by apply bin_digits_bound.
    f_equal. f_equal. lia.
Qed.

(** The X pass over a run of bit characters: it goes through when every
    zero bit sits on a qubit of the circuit. *)
Lemma x_where_zero_fits (t : Z) (m : nat) :
  ∀ (k : nat) (qc : QuantumCircuit),
  (∀ j : nat, (k ≤ j < k + m)%nat → Z.testbit t (Z.of_nat j) = false →
     Z.of_nat j < num_qubits qc) →
  x_where_zero (Z.of_nat k) (map (bitchar t) (map Z.of_nat (seq k m))) qc
    = Some (extend qc
        (map X (filter (λ i, Z.testbit t i = false)
                  (map Z.of_nat (seq k m))))).
Proof.
  induction m as [|m IH]; intros k qc Hfit.
  - cbn. unfold extend. rewrite app_nil_r. by destruct qc.
  - cbn [seq map x_where_zero]. rewrite filter_cons.
    replace (Z.of_nat k + 1) with (Z.of_nat (S k)) by lia.
    destruct (Z.testbit t (Z.of_nat k)) eqn:Hbit.
    + assert (bitchar t (Z.of_nat k) = "1"%char) as ->
        by (unfold bitchar; by rewrite Hbit).
      rewrite decide_False by done. rewrite decide_False by done.
      cbn [mbind option_bind]. apply IH. intros j Hj. apply Hfit. lia.
    + assert (bitchar t (Z.of_nat k) = "0"%char) as ->
        by (unfold bitchar; by rewrite Hbit).
      rewrite decide_True by done. rewrite decide_True by done.
      rewrite gate1_in_range by (split; [lia|apply Hfit; [lia|done]]).
      cbn [mbind option_bind]. rewrite IH.
      * by rewrite extend_extend.
      * intros j Hj. cbn [extend num_qubits]. apply Hfit. lia.
Qed.

(** It fails at the first zero bit that has no qubit. *)
Lemma x_where_zero_overflows (t : Z) (m : nat) :
  ∀ (k : nat) (qc : QuantumCircuit) (j : nat),
  (k ≤ j < k + m)%nat → Z.testbit t (Z.of_nat j) = false →
  num_qubits qc ≤ Z.of_nat j →
  x_where_zero (Z.of_nat k) (map (bitchar t) (map Z.of_nat (seq k m))) qc
    = None.
Proof.
  induction m as [|m IH]; intros k qc j Hj Hbit Hout; [lia|].
  cbn [seq map x_where_zero].
  replace (Z.of_nat k + 1) with (Z.of_nat (S k)) by lia.
  destruct (decide (j = k)) as [->|Hne].
  - assert (bitchar t (Z.of_nat k) = "0"%char) as ->
      by (unfold bitchar; by rewrite Hbit).
    rewrite decide_True by done.
    by rewrite gate1_out_of_range.
  - destruct (decide (_ = "0"%char)).
    + destruct (gate1 X (Z.of_nat k) qc) as [qc1|] eqn:Hg; [|done].
      cbn [mbind option_bind]. apply (IH _ _ j); [lia|done|].
      unfold gate1 in Hg. apply bind_Some in Hg as (q & _ & Hq).
      by simplify_eq.
    + cbn [mbind option_bind]. apply (IH _ _ j); [lia|done|done].
Qed.

Lemma filter_all_set (t : Z) (l : list Z) :
  (∀ i, i ∈ l → Z.testbit t i = true) →
  filter (λ i, Z.testbit t i = false) l = [].
Proof.
  induction l as [|a l IH]; intros Hall; [done|].
  rewrite filter_cons, decide_False.
  - apply IH. intros i Hi. apply Hall. apply elem_of_cons. by right.
  - rewrite Hall; [done|]. apply elem_of_cons. by left.
Qed.

Lemma zero_bits_wide (t n k : Z) :
  0 ≤ n ≤ k → (∀ i, n ≤ i < k → Z.testbit t i = true) →
  filter (λ i, Z.testbit t i = false) (range k) = zero_bits t n.
Proof.
  intros Hnk Hset. unfold zero_bits, range.
  replace (Z.to_nat k) with (Z.to_nat n + Z.to_nat (k - n))%nat by lia.
  rewrite seq_app, map_app, filter_app.
  rewrite (filter_all_set t (map _ (seq (0 + _) _))); [by rewrite app_nil_r|].
  intros i Hi. apply list_elem_of_fmap in Hi as (j & -> & Hj).
  apply elem_of_seq in Hj. apply Hset. lia.
Qed.

Lemma filter_same_bits (t t' : Z) (l : list Z) :
  (∀ i, i ∈ l → Z.testbit t i = Z.testbit t' i) →
  filter (λ i, Z.testbit t i = false) l
    = filter (λ i, Z.testbit t' i = false) l.
Proof.
  induction l as [|a l IH]; intros Hsame; [done|].
  rewrite !filter_cons, IH, (Hsame a); [done| |].
  - apply elem_of_cons. by left.
  - intros i Hi. apply Hsame. apply elem_of_cons. by right.
Qed.

Lemma zero_bits_mod (t n : Z) :
  0 ≤ n → zero_bits (t mod 2 ^ n) n = zero_bits t n.
Proof.
  intros Hn. unfold zero_bits. apply filter_same_bits.
  intros i Hi. apply SearchMore.range_elem in Hi.
  apply Z.mod_pow2_bits_low. lia.
Qed.

(** An out-of-range target is refused only if it has a zero bit at or
    above position [n]: [oracle.x(i)] then names a qubit that does not
    exist. *)
Theorem build_oracle_rejects_high_zero (t n i : Z) :
  1 ≤ n → 0 ≤ t → n ≤ i ≤ Z.log2 t → Z.testbit t i = false →
  build_oracle t n = None.
Proof.
  intros Hn Ht Hi Hbit. unfold build_oracle.
  destruct (format_bin_bits_wide t n Hn Ht) as (target_bin & -> & Hrev).
  cbn [mbind option_bind]. rewrite Hrev. unfold new_circuit.
  destruct (Z.leb_spec 0 n); [|lia]. cbn [andb Z.leb Z.compare mbind option_bind].
  unfold range.
  rewrite (x_where_zero_overflows t _ 0 _ (Z.to_nat i)); [done| | |].
  - lia.
  - by rewrite Z2Nat.id by lia.
  - cbn [num_qubits]. lia.
Qed.

Lemma build_oracle_rejects_high_zero_witness : build_oracle 9 2 = None.
Proof.
  apply (build_oracle_rejects_high_zero 9 2 2);
    [lia | lia | change (Z.log2 9) with 3; lia | reflexivity].
Defined.

(** Any other non-negative target is accepted, in range or not: the
    circuit built is the marking circuit of the target's [n] low bits, so
    a target beyond [2^n - 1] whose high bits are all ones silently marks
    [target mod 2^n]. *)
Theorem build_oracle_marks_low_bits (t n : Z) :
  1 ≤ n → 0 ≤ t →
  (∀ i, n ≤ i ≤ Z.log2 t → Z.testbit t i = true) →
  build_oracle t n = Some (mkQC n 0 "Oracle" (oracle_gates t n)) ∧
  build_oracle t n = build_oracle (t mod 2 ^ n) n.
Proof.
  intros Hn Ht Hset.
  assert (build_oracle t n = Some (mkQC n 0 "Oracle" (oracle_gates t n)))
    as Hbuilt.
  { unfold build_oracle.
    destruct (format_bin_bits_wide t n Hn Ht) as (target_bin & -> & Hrev).
    cbn [mbind option_bind]. rewrite Hrev. unfold new_circuit.
    destruct (Z.leb_spec 0 n); [|lia].
    cbn [andb Z.leb Z.compare mbind option_bind].
    set (k := Z.max n (Z.log2 t + 1)).
    assert (∀ qc, num_qubits qc = n →
              x_where_zero 0 (map (bitchar t) (range k)) qc
                = Some (extend qc (map X (zero_bits t n)))) as Hpass.
    { intros qc Hqc. unfold range.
      rewrite (x_where_zero_fits t _ 0).
      - fold (range k). rewrite (zero_bits_wide t n k); [done|lia|].
        intros i Hi. apply Hset. lia.
      - intros j Hj Hbit. rewrite Hqc.
        destruct (Z_lt_dec (Z.of_nat j) n) as [|Hge]; [done|].
        rewrite Hset in Hbit; [done|lia]. }
    rewrite Hpass by done. cbn [mbind option_bind].
    rewrite gate1_in_range by (cbn; lia). cbn [mbind option_bind].
    rewrite mcx_in_range by (try apply range_in_range; cbn; lia).
    cbn [mbind option_bind].
    rewrite gate1_in_range by (cbn; lia). cbn [mbind option_bind].
    rewrite Hpass by done. cbn [mbind option_bind]. rewrite !extend_extend.
    unfold extend, set_name, oracle_gates. cbn. done. }
  split; [done|]. rewrite Hbuilt.
  assert (0 < 2 ^ n) by (apply Z.pow_pos_nonneg; lia).
  pose proof (Z.mod_pos_bound t (2 ^ n) ltac:(lia)).
  rewrite build_oracle_gates by lia.
  unfold oracle_gates. by rewrite zero_bits_mod by lia.
Qed.

Lemma build_oracle_marks_low_bits_witness :
  build_oracle 7 2 = Some (mkQC 2 0 "Oracle" (oracle_gates 7 2)) ∧
  build_oracle 7 2 = build_oracle (7 mod 2 ^ 2) 2.
Proof.
  apply (build_oracle_marks_low_bits 7 2); try lia.
  intros i Hi. change (Z.log2 7) with 2 in Hi.
  assert (i = 2) as -> by lia. reflexivity.
Defined.

End BuilderBounds.

(** ** What the oracle and the diffuser do to the amplitudes *)

Module UnitaryFacts.

Import Circuit CircuitFacts Statevector Unitary Grover OracleFacts.
Local Open Scope Z_scope.

(** *** Basis states and their bits *)

Lemma testbit_flip (q i p : Z) :
  0 ≤ q → 0 ≤ p →
  Z.testbit (flip q i) p = xorb (Z.testbit i p) (q =? p).
Proof.
  intros Hq Hp. unfold flip.
  by rewrite Z.lxor_spec, Z.shiftl_1_l, Z.pow2_bits_eqb.
Qed.

Lemma flip_flip (q i : Z) : flip q (flip q i) = i.
Proof.
  unfold flip. by rewrite Z.lxor_assoc, Z.lxor_nilpotent, Z.lxor_0_r.
Qed.

Lemma flip_comm (p q i : Z) : flip p (flip q i) = flip q (flip p i).
Proof.
  unfold flip. rewrite !Z.lxor_assoc. f_equal. apply Z.lxor_comm.
Qed.

Lemma flip_clear (q i : Z) :
  0 ≤ q → Z.testbit i q = false → flip q i = i + 2 ^ q.
Proof.
  intros Hq Hbit. unfold flip. rewrite Z.shiftl_1_l.
  symmetry. apply Z.add_nocarry_lxor. apply Z.bits_inj'. intros p Hp.
  rewrite Z.land_spec, Z.bits_0, Z.pow2_bits_eqb by done.
  destruct (Z.eqb_spec q p) as [->|_]; [by rewrite Hbit|apply andb_false_r].
Qed.

Lemma flip_set (q i : Z) :
  0 ≤ q → Z.testbit i q = true → flip q i = i - 2 ^ q.
Proof.
  intros Hq Hbit.
  assert (Z.testbit (flip q i) q = false) as Hclear.
  { by rewrite testbit_flip, Hbit, Z.eqb_refl. }
  apply (flip_clear q _ Hq) in Hclear. rewrite flip_flip in Hclear. lia.
Qed.

(** A number is its [k] low bits, bit [k], and the rest. *)
Lemma mod_pow2_succ (k i : Z) :
  0 ≤ k →
  i mod 2 ^ (k + 1)
    = i mod 2 ^ k + (if Z.testbit i k then 2 ^ k else 0).
Proof.
  intros Hk. assert (0 < 2 ^ k) by (apply Z.pow_pos_nonneg; lia).
  rewrite Z.pow_add_r, Z.pow_1_r by lia. rewrite Z.rem_mul_r by lia.
  f_equal. destruct (Z.testbit i k) eqn:Hbit.
  - apply Z.testbit_true in Hbit; [|done]. rewrite Hbit. lia.
  - apply Z.testbit_false in Hbit; [|done]. rewrite Hbit. lia.
Qed.

(** Two numbers have the same [n] low bits exactly when they agree on
    the bits [0 .. n-1]. *)
Lemma same_low_bits (n i t : Z) :
  0 ≤ n →
  i mod 2 ^ n = t mod 2 ^ n ↔
  ∀ p, 0 ≤ p < n → Z.testbit i p = Z.testbit t p.
Proof.
  intros Hn. split.
  - intros Heq p Hp.
    rewrite <- (Z.mod_pow2_bits_low i n p), <- (Z.mod_pow2_bits_low t n p) by lia.
    by rewrite Heq.
  - intros Hbits. apply Z.bits_inj'. intros p Hp.
    destruct (Z_lt_dec p n).
    + rewrite !Z.mod_pow2_bits_low by lia. apply Hbits. lia.
    + by rewrite !Z.mod_pow2_bits_high by lia.
Qed.

End UnitaryFacts.

Module AmplitudeFacts.

Import Circuit CircuitFacts Statevector Unitary Grover OracleFacts UnitaryFacts.
Local Open Scope R_scope.

(** *** Single gates *)

Lemma sqrt2_sqr : R_sqrt.sqrt 2 * R_sqrt.sqrt 2 = 2.
Proof. apply sqrt_def. lra. Qed.

Lemma sqrt2_pos : 0 < R_sqrt.sqrt 2.
Proof. apply sqrt_lt_R0. lra. Qed.

Lemma half_twice (x : R) : x / R_sqrt.sqrt 2 / R_sqrt.sqrt 2 = x / 2.
Proof.
  pose proof sqrt2_pos. pose proof sqrt2_sqr as Hs.
  apply (Rmult_eq_reg_r 2); [|lra]. rewrite <- Hs at 3.
  field. lra.
Qed.

Lemma apply_H_involutive (q : Z) (ψ : state) :
  (0 <= q)%Z → apply_H q (apply_H q ψ) = ψ.
Proof.
  intros Hq. apply functional_extensionality. intros i. unfold apply_H.
  rewrite testbit_flip, Z.eqb_refl, flip_flip by done.
  destruct (Z.testbit i q); cbn [xorb negb].
  - transitivity ((2 * ψ i) / R_sqrt.sqrt 2 / R_sqrt.sqrt 2);
      [|rewrite half_twice; lra].
    pose proof sqrt2_pos. field. lra.
  - transitivity ((2 * ψ i) / R_sqrt.sqrt 2 / R_sqrt.sqrt 2);
      [|rewrite half_twice; lra].
    pose proof sqrt2_pos. field. lra.
Qed.

Lemma apply_H_comm (p q : Z) (ψ : state) :
  (0 <= p)%Z → (0 <= q)%Z → p ≠ q →
  apply_H p (apply_H q ψ) = apply_H q (apply_H p ψ).
Proof.
  intros Hp Hq Hne. apply functional_extensionality. intros i.
  unfold apply_H. rewrite !testbit_flip by done.
  rewrite (proj2 (Z.eqb_neq p q)), (proj2 (Z.eqb_neq q p)) by done.
  rewrite !xorb_false_r, (flip_comm q p).
  pose proof sqrt2_pos.
  destruct (Z.testbit i p), (Z.testbit i q); field; lra.
Qed.

Lemma apply_H_linear (q : Z) (a b : state) (c : R) :
  apply_H q (λ i, a i - c * b i)
    = λ i, apply_H q a i - c * apply_H q b i.
Proof.
  apply functional_extensionality. intros i. unfold apply_H.
  pose proof sqrt2_pos. destruct (Z.testbit i q); field; lra.
Qed.

(** The controls of a gate do not see a flip of another qubit. *)
Lemma controls_flip (cs : list Z) (t i : Z) :
  (0 <= t)%Z → Forall (λ c, (0 <= c)%Z) cs → t ∉ cs →
  forallb (Z.testbit (flip t i)) cs = forallb (Z.testbit i) cs.
Proof.
  intros Ht Hcs Hnin. induction Hcs as [|c cs Hc _ IH]; [done|].
  apply not_elem_of_cons in Hnin as [Hne Hnin]. cbn [forallb].
  rewrite IH by done. rewrite testbit_flip by done.
  rewrite (proj2 (Z.eqb_neq t c)) by done. by rewrite xorb_false_r.
Qed.

(** H, multi-controlled X, H on the target is a multi-controlled Z: the
    sign flips where all controls and the target are set. *)
Lemma controlled_Z (cs : list Z) (t : Z) (ψ : state) :
  (0 <= t)%Z → Forall (λ c, (0 <= c)%Z) cs → t ∉ cs →
  apply_H t (apply_MCX cs t (apply_H t ψ))
    = λ i, if forallb (Z.testbit i) cs && Z.testbit i t then - ψ i else ψ i.
Proof.
  intros Ht Hcs Hnin. apply functional_extensionality. intros i.
  unfold apply_H, apply_MCX.
  rewrite !controls_flip, !testbit_flip, !Z.eqb_refl, !flip_flip by done.
  pose proof sqrt2_pos.
  destruct (forallb (Z.testbit i) cs), (Z.testbit i t);
    cbn [xorb negb andb].
  - transitivity ((- (2 * ψ i)) / R_sqrt.sqrt 2 / R_sqrt.sqrt 2);
      [field; lra|rewrite half_twice; lra].
  - transitivity ((2 * ψ i) / R_sqrt.sqrt 2 / R_sqrt.sqrt 2);
      [field; lra|rewrite half_twice; lra].
  - transitivity ((2 * ψ i) / R_sqrt.sqrt 2 / R_sqrt.sqrt 2);
      [field; lra|rewrite half_twice; lra].
  - transitivity ((2 * ψ i) / R_sqrt.sqrt 2 / R_sqrt.sqrt 2);
      [field; lra|rewrite half_twice; lra].
Qed.

(** *** Runs of gates *)

Lemma run_gates (gs rest : list instr) (ψ : state) :
  forallb is_unitary gs = true →
  run (gs ++ rest) ψ [] = run rest (gates_action gs ψ) [].
Proof.
  revert ψ. induction gs as [|g gs IH]; intros ψ Hgs; [done|].
  cbn [forallb] in Hgs. apply andb_true_iff in Hgs as [Hg Hgs].
  cbn [app]. unfold gates_action. cbn [fold_left].
  rewrite <- (IH _ Hgs). by destruct g.
Qed.

Lemma gates_action_app (gs hs : list instr) (ψ : state) :
  gates_action (gs ++ hs) ψ = gates_action hs (gates_action gs ψ).
Proof. unfold gates_action. apply fold_left_app. Qed.

Lemma gates_action_H (qs : list Z) (ψ : state) :
  gates_action (map H qs) ψ = fold_left (λ ψ0 q, apply_H q ψ0) qs ψ.
Proof.
  unfold gates_action. revert ψ.
  induction qs as [|q qs IH]; intros ψ; [done|]. cbn. apply IH.
Qed.

Lemma gates_action_X (qs : list Z) (ψ : state) :
  gates_action (map X qs) ψ = λ i, ψ (flips qs i).
Proof.
  unfold gates_action. revert ψ.
  induction qs as [|q qs IH]; intros ψ; [done|]. cbn [map fold_left].
  rewrite IH. done.
Qed.

(** *** The oracle *)

Lemma testbit_flips (qs : list Z) (i p : Z) :
  NoDup qs → Forall (λ q, (0 <= q)%Z) qs → (0 <= p)%Z →
  Z.testbit (flips qs i) p = xorb (Z.testbit i p) (bool_decide (p ∈ qs)).
Proof.
  intros Hnd Hqs Hp. induction Hqs as [|q qs Hq _ IH].
  - rewrite bool_decide_eq_false_2 by apply not_elem_of_nil.
    by rewrite xorb_false_r.
  - apply NoDup_cons in Hnd as [Hnin Hnd]. cbn [flips fold_right].
    fold (flips qs i). rewrite testbit_flip, IH by done.
    destruct (Z.eqb_spec q p) as [->|Hne].
    + rewrite (bool_decide_eq_false_2 (p ∈ qs)) by done.
      rewrite bool_decide_eq_true_2 by (apply elem_of_cons; by left).
      by rewrite xorb_false_r.
    + rewrite xorb_false_r. f_equal. apply bool_decide_ext.
      rewrite elem_of_cons. split; [by right|]. by intros [->|].
Qed.

Lemma zero_bits_NoDup (t n : Z) : NoDup (zero_bits t n).
Proof.
  unfold zero_bits, range. apply NoDup_filter.
  apply NoDup_fmap; [intros a b; lia|apply NoDup_seq].
Qed.

Lemma zero_bits_nonneg (t n : Z) : Forall (λ q, (0 <= q)%Z) (zero_bits t n).
Proof.
  apply Forall_forall. intros q Hq. apply zero_bits_spec in Hq. lia.
Qed.

Lemma flips_zero_bits_bit (t n i p : Z) :
  (0 <= p)%Z →
  Z.testbit (flips (zero_bits t n) i) p
    = if bool_decide (p < n)%Z
      then eqb (Z.testbit i p) (Z.testbit t p)
      else Z.testbit i p.
Proof.
  intros Hp.
  rewrite testbit_flips by auto using zero_bits_NoDup, zero_bits_nonneg.
  destruct (decide (p < n)%Z) as [Hlt|Hge].
  - rewrite (bool_decide_eq_true_2 (p < n)%Z) by done.
    destruct (Z.testbit t p) eqn:Hbit.
    + rewrite bool_decide_eq_false_2.
      * by destruct (Z.testbit i p).
      * rewrite zero_bits_spec. intros [_ Hzero]. congruence.
    + rewrite bool_decide_eq_true_2 by (apply zero_bits_spec; split; [lia|done]).
      by destruct (Z.testbit i p).
  - rewrite (bool_decide_eq_false_2 (p < n)%Z) by done.
    rewrite bool_decide_eq_false_2; [by rewrite xorb_false_r|].
    rewrite zero_bits_spec. lia.
Qed.

Lemma flips_zero_bits_involutive (t n i : Z) :
  flips (zero_bits t n) (flips (zero_bits t n) i) = i.
Proof.
  apply Z.bits_inj'. intros p Hp. rewrite !flips_zero_bits_bit by done.
  destruct (bool_decide (p < n)%Z); [|done].
  by destruct (Z.testbit i p), (Z.testbit t p).
Qed.

(** All of the qubits [0 .. n-1] are set. *)
Lemma all_set_iff (n j : Z) :
  (1 <= n)%Z →
  forallb (Z.testbit j) (range (n - 1)) && Z.testbit j (n - 1) = true ↔
  ∀ p, (0 <= p < n)%Z → Z.testbit j p = true.
Proof.
  intros Hn. rewrite andb_true_iff, forallb_forall. split.
  - intros [Hlow Htop] p Hp. destruct (decide (p = n - 1)%Z) as [->|Hne]; [done|].
    apply Hlow. apply list_elem_of_In, SearchMore.range_elem. lia.
  - intros Hall. split; [|apply Hall; lia].
    intros p Hp. apply list_elem_of_In, SearchMore.range_elem in Hp.
    apply Hall. lia.
Qed.

(** The gates of the oracle flip the sign of the target and of nothing
    else. *)
Lemma oracle_action (t n : Z) (ψ : state) :
  (1 <= n)%Z → gates_action (oracle_gates t n) ψ = phase_flip n t ψ.
Proof.
  intros Hn. unfold oracle_gates.
  rewrite !gates_action_app, !gates_action_X.
  unfold gates_action at 1. cbn [fold_left gate_action].
  rewrite controlled_Z.
  - apply functional_extensionality. intros i. unfold phase_flip.
    rewrite flips_zero_bits_involutive.
    set (j := flips (zero_bits t n) i).
    destruct (forallb (Z.testbit j) (range (n - 1)) && Z.testbit j (n - 1))
      eqn:Hset.
    + rewrite (proj2 (Z.eqb_eq _ _)); [done|].
      apply same_low_bits; [lia|]. intros p Hp.
      pose proof (proj1 (all_set_iff n j Hn) Hset p Hp) as Hbit.
      subst j. rewrite flips_zero_bits_bit in Hbit by lia.
      rewrite bool_decide_eq_true_2 in Hbit by lia.
      by apply eqb_prop in Hbit.
    + rewrite (proj2 (Z.eqb_neq _ _)); [done|]. intros Heq.
      apply not_true_iff_false in Hset. apply Hset.
      apply (proj2 (all_set_iff n j Hn)). intros p Hp. subst j.
      rewrite flips_zero_bits_bit by lia.
      rewrite bool_decide_eq_true_2 by lia.
      rewrite (proj1 (same_low_bits n i t ltac:(lia)) Heq p Hp).
      apply eqb_reflx.
  - lia.
  - apply Forall_forall. intros c Hc. apply SearchMore.range_elem in Hc. lia.
  - rewrite SearchMore.range_elem. lia.
Qed.

Lemma oracle_gates_unitary (t n : Z) :
  forallb is_unitary (oracle_gates t n) = true.
Proof.
  unfold oracle_gates. rewrite !forallb_app. cbn [forallb is_unitary andb].
  assert (∀ l, forallb is_unitary (map X l) = true) as ->; [|done].
  induction l as [|a l IH]; [done|]. done.
Qed.

(** The oracle marks its target: run on any amplitudes, the circuit
    [build_oracle] returns changes the sign of the amplitude of the basis
    state [target_index] and leaves every other amplitude as it is. *)
Theorem oracle_flips_target (t n : Z) (ψ : state) :
  (1 <= n)%Z → (0 <= t < 2 ^ n)%Z →
  ∃ qc ψ',
    build_oracle t n = Some qc ∧
    run (data qc) ψ [] = Some (ψ', []) ∧
    ∀ i, (0 <= i < 2 ^ n)%Z → ψ' i = if (i =? t)%Z then - ψ i else ψ i.
Proof.
  intros Hn Ht. eexists. exists (phase_flip n t ψ).
  split; [by apply build_oracle_gates|]. cbn [data]. split.
  - rewrite <- (app_nil_r (oracle_gates t n)).
    rewrite run_gates by apply oracle_gates_unitary.
    by rewrite oracle_action.
  - intros i Hi. unfold phase_flip. by rewrite !Z.mod_small by lia.
Qed.

Lemma oracle_flips_target_witness :
  ∃ qc ψ',
    build_oracle 5 3 = Some qc ∧
    run (data qc) ket0 [] = Some (ψ', []) ∧
    ∀ i, (0 <= i < 2 ^ 3)%Z → ψ' i = if (i =? 5)%Z then - ket0 i else ket0 i.
Proof. apply (oracle_flips_target 5 3 ket0); lia. Defined.

(** *** Layers of H gates *)

Lemma range_snoc (n : nat) :
  range (Z.of_nat (S n)) = range (Z.of_nat n) ++ [Z.of_nat n].
Proof.
  unfold range. rewrite !Nat2Z.id, seq_S, map_app. done.
Qed.

Lemma hadamards_S (n : nat) (ψ : state) :
  hadamards (S n) ψ = apply_H (Z.of_nat n) (hadamards n ψ).
Proof. unfold hadamards. by rewrite range_snoc, fold_left_app. Qed.

Lemma hadamards_linear (n : nat) (a b : state) (c : R) :
  hadamards n (λ i, a i - c * b i)
    = λ i, hadamards n a i - c * hadamards n b i.
Proof.
  induction n as [|n IH]; [done|].
  by rewrite !hadamards_S, IH, apply_H_linear.
Qed.

Lemma hadamards_comm (n : nat) (q : Z) (ψ : state) :
  (Z.of_nat n <= q)%Z →
  apply_H q (hadamards n ψ) = hadamards n (apply_H q ψ).
Proof.
  intros Hq. induction n as [|n IH]; [done|].
  rewrite !hadamards_S, <- IH by lia.
  apply apply_H_comm; lia.
Qed.

Lemma hadamards_involutive (n : nat) (ψ : state) :
  hadamards n (hadamards n ψ) = ψ.
Proof.
  revert ψ. induction n as [|n IH]; intros ψ; [done|].
  rewrite !hadamards_S, <- hadamards_comm by lia.
  rewrite apply_H_involutive by lia. apply IH.
Qed.

Lemma range_add (a b : Z) :
  (0 <= a)%Z → (0 <= b)%Z →
  range (a + b) = range a ++ map (λ j, (a + j)%Z) (range b).
Proof.
  intros Ha Hb. unfold range. rewrite Z2Nat.inj_add, seq_app, map_app by done.
  f_equal. rewrite Nat.add_0_l, <- (Nat.add_0_r (Z.to_nat a)) at 1.
  rewrite <- fmap_add_seq, !map_map. apply map_ext. intros k. lia.
Qed.

Lemma block_sum_S (n : nat) (ψ : state) (b : Z) :
  block_sum (S n) ψ b
    = block_sum n ψ b + block_sum n ψ (b + 2 ^ Z.of_nat n).
Proof.
  unfold block_sum. rewrite Nat2Z.inj_succ, Z.pow_succ_r by lia.
  assert (0 < 2 ^ Z.of_nat n)%Z by (apply Z.pow_pos_nonneg; lia).
  replace (2 * 2 ^ Z.of_nat n)%Z
    with (2 ^ Z.of_nat n + 2 ^ Z.of_nat n)%Z by lia.
  rewrite range_add, map_app, map_map by lia.
  generalize (range (2 ^ Z.of_nat n)) as l. intros l.
  assert (∀ l1 l2 : list R,
            fold_right Rplus 0 (l1 ++ l2)
              = fold_right Rplus 0 l1 + fold_right Rplus 0 l2) as Happ.
  { induction l1 as [|x l1 IH]; intros l2; cbn; [lra|]. rewrite IH. lra. }
  rewrite Happ. f_equal. f_equal. apply map_ext. intros j. f_equal. lia.
Qed.

Lemma inv_sqrt2_pow (n : nat) :
  (/ R_sqrt.sqrt 2) ^ n * (/ R_sqrt.sqrt 2) ^ n = / 2 ^ n.
Proof.
  pose proof sqrt2_pos. pose proof sqrt2_sqr as Hs.
  rewrite <- Rpow_mult_distr, <- Rinv_mult, Hs. by rewrite pow_inv.
Qed.

(** At the first basis state of a block of [2^n], the H layer leaves the
    sum of the block, scaled. *)
Lemma hadamards_block_start (n : nat) :
  ∀ (ψ : state) (b : Z),
  (b mod 2 ^ Z.of_nat n = 0)%Z →
  hadamards n ψ b = (/ R_sqrt.sqrt 2) ^ n * block_sum n ψ b.
Proof.
  induction n as [|n IH]; intros ψ b Hb.
  - unfold hadamards, block_sum.
    change (range (Z.of_nat 0)) with (@nil Z).
    change (range (2 ^ Z.of_nat 0)) with [0%Z].
    cbn [fold_left map fold_right pow]. rewrite Z.add_0_r. lra.
  - rewrite hadamards_S, block_sum_S. unfold apply_H.
    assert (0 < 2 ^ Z.of_nat n)%Z by (apply Z.pow_pos_nonneg; lia).
    pose proof (mod_pow2_succ (Z.of_nat n) b ltac:(lia)) as Hsplit.
    replace (Z.of_nat n + 1)%Z with (Z.of_nat (S n)) in Hsplit by lia.
    rewrite Hb in Hsplit.
    pose proof (Z.mod_pos_bound b (2 ^ Z.of_nat n) ltac:(lia)).
    destruct (Z.testbit b (Z.of_nat n)) eqn:Hbit; [lia|].
    rewrite flip_clear by (done || lia).
    rewrite !IH.
    + cbn [pow]. pose proof sqrt2_pos. field. lra.
    + rewrite <- Z.add_mod_idemp_r, Z.mod_same, Z.add_0_r by lia. lia.
    + lia.
Qed.

(** Amplitudes that sit on the first basis state of each block are
    spread evenly over the block. *)
Lemma hadamards_spread (n : nat) :
  ∀ (χ : state) (i : Z),
  (∀ k, (k mod 2 ^ Z.of_nat n ≠ 0)%Z → χ k = 0) →
  hadamards n χ i
    = (/ R_sqrt.sqrt 2) ^ n * χ (i - i mod 2 ^ Z.of_nat n)%Z.
Proof.
  induction n as [|n IH]; intros χ i Hχ.
  - unfold hadamards. change (range (Z.of_nat 0)) with (@nil Z).
    cbn [fold_left pow]. change (2 ^ Z.of_nat 0)%Z with 1%Z.
    rewrite Z.mod_1_r, Z.sub_0_r. lra.
  - assert (0 < 2 ^ Z.of_nat n)%Z by (apply Z.pow_pos_nonneg; lia).
    assert (∀ k, (k mod 2 ^ Z.of_nat n ≠ 0)%Z → χ k = 0) as Hχ'.
    { intros k Hk. apply Hχ.
      pose proof (mod_pow2_succ (Z.of_nat n) k ltac:(lia)) as Hsplit.
      replace (Z.of_nat n + 1)%Z with (Z.of_nat (S n)) in Hsplit by lia.
      pose proof (Z.mod_pos_bound k (2 ^ Z.of_nat n) ltac:(lia)).
      destruct (Z.testbit k (Z.of_nat n)); lia. }
    rewrite hadamards_S. unfold apply_H. rewrite !IH by done.
    pose proof (mod_pow2_succ (Z.of_nat n) i ltac:(lia)) as Hsplit.
    replace (Z.of_nat n + 1)%Z with (Z.of_nat (S n)) in Hsplit by lia.
    pose proof (Z.mod_pos_bound i (2 ^ Z.of_nat n) ltac:(lia)).
    pose proof (Z.mod_pos_bound i (2 ^ Z.of_nat (S n))
                  ltac:(apply Z.pow_pos_nonneg; lia)).
    pose proof sqrt2_pos.
    destruct (Z.testbit i (Z.of_nat n)) eqn:Hbit.
    + rewrite flip_set by (done || lia).
      replace ((i - 2 ^ Z.of_nat n) mod 2 ^ Z.of_nat n)%Z
        with (i mod 2 ^ Z.of_nat n)%Z.
      2:{ replace (i - 2 ^ Z.of_nat n)%Z
            with (i + (-1) * 2 ^ Z.of_nat n)%Z by lia.
          by rewrite Z.mod_add by lia. }
      replace (i - 2 ^ Z.of_nat n - i mod 2 ^ Z.of_nat n)%Z
        with (i - i mod 2 ^ Z.of_nat (S n))%Z by lia.
      rewrite (Hχ (i - i mod 2 ^ Z.of_nat n)%Z).
      * cbn [pow]. field. lra.
      * replace (i - i mod 2 ^ Z.of_nat n)%Z
          with (2 ^ Z.of_nat n + (i - i mod 2 ^ Z.of_nat (S n)))%Z by lia.
        pose proof (Z.mod_divide (i - i mod 2 ^ Z.of_nat (S n))
                      (2 ^ Z.of_nat (S n))
                      ltac:(lia)) as [_ Hdiv].
        rewrite <- Z.add_mod_idemp_r by lia.
        rewrite Hdiv.
        -- rewrite Z.add_0_r, Z.mod_small; [lia|].
           rewrite Nat2Z.inj_succ, Z.pow_succ_r by lia. lia.
        -- exists (i / 2 ^ Z.of_nat (S n))%Z.
           pose proof (Z.div_mod i (2 ^ Z.of_nat (S n)) ltac:(lia)). lia.
    + rewrite flip_clear by (done || lia).
      replace ((i + 2 ^ Z.of_nat n) mod 2 ^ Z.of_nat n)%Z
        with (i mod 2 ^ Z.of_nat n)%Z.
      2:{ replace (i + 2 ^ Z.of_nat n)%Z
            with (i + 1 * 2 ^ Z.of_nat n)%Z by lia.
          by rewrite Z.mod_add by lia. }
      replace (i - i mod 2 ^ Z.of_nat n)%Z
        with (i - i mod 2 ^ Z.of_nat (S n))%Z by lia.
      rewrite (Hχ (i + 2 ^ Z.of_nat n - i mod 2 ^ Z.of_nat n)%Z).
      * cbn [pow]. field. lra.
      * replace (i + 2 ^ Z.of_nat n - i mod 2 ^ Z.of_nat n)%Z
          with (2 ^ Z.of_nat n + (i - i mod 2 ^ Z.of_nat (S n)))%Z by lia.
        pose proof (Z.mod_divide (i - i mod 2 ^ Z.of_nat (S n))
                      (2 ^ Z.of_nat (S n))
                      ltac:(lia)) as [_ Hdiv].
        rewrite <- Z.add_mod_idemp_r by lia.
        rewrite Hdiv.
        -- rewrite Z.add_0_r, Z.mod_small; [lia|].
           rewrite Nat2Z.inj_succ, Z.pow_succ_r by lia. lia.
        -- exists (i / 2 ^ Z.of_nat (S n))%Z.
           pose proof (Z.div_mod i (2 ^ Z.of_nat (S n)) ltac:(lia)). lia.
Qed.

(** *** The diffuser *)

Lemma zero_bits_0 (n : Z) : zero_bits 0 n = range n.
Proof.
  unfold zero_bits. induction (range n) as [|a l IH]; [done|].
  rewrite filter_cons, IH, decide_True; [done|apply Z.bits_0].
Qed.

(** The diffuser is the oracle of basis state 0 between two H layers. *)
Lemma diffuser_gates_split (n : Z) :
  diffuser_gates n
    = map H (range n) ++ oracle_gates 0 n ++ map H (range n).
Proof.
  unfold diffuser_gates, oracle_gates. rewrite zero_bits_0.
  by rewrite <- !app_assoc.
Qed.

Lemma diffuser_gates_unitary (n : Z) :
  forallb is_unitary (diffuser_gates n) = true.
Proof.
  rewrite diffuser_gates_split, !forallb_app, oracle_gates_unitary.
  assert (∀ l, forallb is_unitary (map H l) = true) as ->; [|done].
  induction l as [|a l IH]; [done|]. done.
Qed.

Lemma diffuser_action (n : nat) (ψ : state) :
  (1 <= n)%nat →
  gates_action (diffuser_gates (Z.of_nat n)) ψ
    = λ i, ψ i
           - 2 * (block_sum n ψ (i - i mod 2 ^ Z.of_nat n)%Z / 2 ^ n).
Proof.
  intros Hn. rewrite diffuser_gates_split, !gates_action_app.
  rewrite !gates_action_H, oracle_action by lia.
  fold (hadamards n ψ).
  fold (hadamards n (phase_flip (Z.of_nat n) 0 (hadamards n ψ))).
  set (a := hadamards n ψ).
  set (b := λ i : Z, if (i mod 2 ^ Z.of_nat n =? 0)%Z then a i else 0).
  assert (phase_flip (Z.of_nat n) 0 a = λ i, a i - 2 * b i) as ->.
  { apply functional_extensionality. intros i. unfold phase_flip, b.
    rewrite Z.mod_0_l by (apply Z.pow_nonzero; lia).
    destruct (_ =? _)%Z; lra. }
  rewrite hadamards_linear. subst a. rewrite hadamards_involutive.
  apply functional_extensionality. intros i. f_equal. f_equal.
  assert (0 < 2 ^ Z.of_nat n)%Z by (apply Z.pow_pos_nonneg; lia).
  rewrite hadamards_spread.
  - unfold b. rewrite Zminus_mod_idemp_r, Z.sub_diag, Z.mod_0_l by lia.
    cbn [Z.eqb]. rewrite hadamards_block_start.
    + rewrite <- Rmult_assoc, inv_sqrt2_pow. unfold Rdiv. lra.
    + rewrite Zminus_mod_idemp_r, Z.sub_diag, Z.mod_0_l by lia. done.
  - intros k Hk. unfold b. by rewrite (proj2 (Z.eqb_neq _ _)).
Qed.

(** The diffuser inverts about the mean: run on any amplitudes, the
    circuit [diffuser] returns replaces the amplitude of each basis state
    [0 .. 2^n - 1] by its mirror image about the mean of these
    amplitudes, up to the sign of the whole state. *)
Theorem diffuser_inverts_about_mean (n : nat) (ψ : state) :
  (1 <= n)%nat →
  ∃ qc ψ',
    diffuser (Z.of_nat n) = Some qc ∧
    run (data qc) ψ [] = Some (ψ', []) ∧
    ∀ i, (0 <= i < 2 ^ Z.of_nat n)%Z →
      ψ' i = - inversion_about_mean n ψ i.
Proof.
  intros Hn. eexists. eexists.
  split; [apply diffuser_circuit; lia|]. cbn [data]. split.
  - rewrite <- (app_nil_r (diffuser_gates _)).
    rewrite run_gates by apply diffuser_gates_unitary.
    rewrite diffuser_action by done. reflexivity.
  - intros i Hi. cbv beta. rewrite Z.mod_small, Z.sub_diag by done.
    unfold inversion_about_mean, mean. lra.
Qed.

Lemma diffuser_inverts_about_mean_witness :
  ∃ qc ψ',
    diffuser (Z.of_nat 3) = Some qc ∧
    run (data qc) ket0 [] = Some (ψ', []) ∧
    ∀ i, (0 <= i < 2 ^ Z.of_nat 3)%Z →
      ψ' i = - inversion_about_mean 3 ket0 i.
Proof. apply (diffuser_inverts_about_mean 3 ket0). lia. Defined.

End AmplitudeFacts.

(** ** Grover's search on four items *)

Module FourItems.

Import Circuit CircuitFacts Statevector Unitary Rounds Grover OracleFacts
  IterationFacts UnitaryFacts AmplitudeFacts.
Local Open Scope R_scope.

(** The circuit [grover_circuit_builder] returns, given the iteration
    count. *)
Lemma grover_circuit_shape (t n k : Z) :
  (1 <= n)%Z → (0 <= t < 2 ^ n)%Z → grover_iterations n = Some k →
  grover_circuit_builder t n
    = Some (mkQC n n "circuit" (grover_gates t n (Z.to_nat k)), k,
            mkQC n 0 "Oracle" (oracle_gates t n),
            mkQC n 0 "Diffuser" (diffuser_gates n)).
Proof.
  intros Hn Ht Hk. unfold grover_circuit_builder.
  rewrite build_oracle_gates, diffuser_circuit by lia.
  cbn [mbind option_bind]. unfold new_circuit.
  destruct (Z.leb_spec 0 n); [|lia]. cbn [andb mbind option_bind].
  rewrite gate1_each_in_range by (apply range_in_range; cbn; lia).
  cbn [mbind option_bind]. rewrite Hk. cbn [mbind option_bind].
  rewrite grover_iterate_in_range
    by (try apply range_in_range; rewrite ?range_length; cbn; lia).
  cbn [mbind option_bind].
  rewrite measure_each_in_range
    by (try apply range_in_range; try apply (range_in_range (mkQC n n "" []));
        cbn; lia).
  cbn [mbind option_bind]. rewrite !extend_extend.
  unfold extend, grover_gates. cbn. done.
Qed.

Lemma diffuser_diffuse (n : nat) (ψ : state) :
  (1 <= n)%nat →
  gates_action (diffuser_gates (Z.of_nat n)) ψ = diffuse n ψ.
Proof. apply diffuser_action. Qed.

Lemma block_sum_2 (ψ : state) :
  block_sum 2 ψ 0 = ψ 0%Z + ψ 1%Z + ψ 2%Z + ψ 3%Z.
Proof.
  unfold block_sum. change (range (2 ^ Z.of_nat 2)) with [0; 1; 2; 3]%Z.
  cbn [map fold_right]. rewrite !Z.add_0_l. lra.
Qed.

Lemma diffuse_2 (ψ : state) (i : Z) :
  (0 <= i < 4)%Z →
  diffuse 2 ψ i = ψ i - (ψ 0%Z + ψ 1%Z + ψ 2%Z + ψ 3%Z) / 2.
Proof.
  intros Hi. unfold diffuse. change (2 ^ Z.of_nat 2)%Z with 4%Z.
  rewrite Z.mod_small, Z.sub_diag, block_sum_2 by done. lra.
Qed.

Lemma phase_flip_2 (t : Z) (ψ : state) (i : Z) :
  (0 <= t < 4)%Z → (0 <= i < 4)%Z →
  phase_flip (Z.of_nat 2) t ψ i = if (i =? t)%Z then - ψ i else ψ i.
Proof.
  intros Ht Hi. unfold phase_flip. change (2 ^ Z.of_nat 2)%Z with 4%Z.
  by rewrite !Z.mod_small by done.
Qed.

(** The uniform state the initial H gates prepare. *)
Lemma hadamards_2_ket0 (i : Z) :
  (0 <= i < 4)%Z → hadamards 2 ket0 i = 1 / 2.
Proof.
  intros Hi. rewrite hadamards_spread.
  - change (2 ^ Z.of_nat 2)%Z with 4%Z. rewrite Z.mod_small, Z.sub_diag by done.
    unfold ket0. cbn [Z.eqb]. pose proof (inv_sqrt2_pow 1) as Hp.
    cbn [pow] in *. nra.
  - intros k Hk. unfold ket0. destruct (Z.eqb_spec k 0) as [->|_]; [|done].
    by rewrite Z.mod_0_l in Hk by (apply Z.pow_nonzero; lia).
Qed.

Lemma four_cases (i : Z) :
  (0 <= i < 4)%Z → i = 0%Z ∨ i = 1%Z ∨ i = 2%Z ∨ i = 3%Z.
Proof. lia. Qed.

(** Rewrites a round on two qubits into sums of four amplitudes. *)
Ltac two_qubit_values :=
  unfold grover_round;
  repeat first
    [ rewrite diffuse_2 by lia
    | rewrite phase_flip_2 by lia
    | rewrite hadamards_2_ket0 by lia ];
  cbn [Z.eqb Pos.eqb].

(** One round on the uniform state of two qubits leaves all the weight
    on the target. *)
Lemma one_round_values (t i : Z) :
  (0 <= t < 4)%Z → (0 <= i < 4)%Z →
  grover_round 2 t (hadamards 2 ket0) i = if (i =? t)%Z then -1 else 0.
Proof.
  intros Ht Hi.
  destruct (four_cases t Ht) as [-> | [-> | [-> | ->]]];
    destruct (four_cases i Hi) as [-> | [-> | [-> | ->]]];
    two_qubit_values; lra.
Qed.

(** A second round spreads it again, evenly. *)
Lemma two_rounds_values (t i : Z) :
  (0 <= t < 4)%Z → (0 <= i < 4)%Z →
  grover_round 2 t (grover_round 2 t (hadamards 2 ket0)) i
    = if (i =? t)%Z then 1 / 2 else - (1 / 2).
Proof.
  intros Ht Hi. unfold grover_round at 1.
  rewrite diffuse_2 by done. rewrite !phase_flip_2 by lia.
  rewrite !one_round_values by lia.
  destruct (four_cases t Ht) as [-> | [-> | [-> | ->]]];
    destruct (four_cases i Hi) as [-> | [-> | [-> | ->]]];
    cbn [Z.eqb Pos.eqb]; lra.
Qed.

Lemma hadamard_gates_unitary (qs : list Z) :
  forallb is_unitary (map H qs) = true.
Proof. induction qs as [|q qs IH]; [done|]. done. Qed.

(** Oracle and diffuser compose to a full search on four items: after
    the initial H gates, one pass of the circuit of [build_oracle] and
    then that of [diffuser] leaves the target with probability 1 and
    every other basis state with probability 0. *)
Theorem one_round_finds_target_of_four (t : Z) :
  (0 <= t < 4)%Z →
  ∃ oracle diff ψ',
    build_oracle t 2 = Some oracle ∧
    diffuser 2 = Some diff ∧
    run (map H (range 2) ++ data oracle ++ data diff) ket0 []
      = Some (ψ', []) ∧
    ∀ i, (0 <= i < 4)%Z → ψ' i * ψ' i = if (i =? t)%Z then 1 else 0.
Proof.
  intros Ht. do 3 eexists.
  split; [apply build_oracle_gates; cbn; lia|].
  split; [apply diffuser_circuit; lia|]. cbn [data]. split.
  - rewrite <- (app_nil_r (diffuser_gates 2)), !app_assoc.
    rewrite run_gates.
    + rewrite !gates_action_app, gates_action_H, oracle_action by lia.
      rewrite (diffuser_diffuse 2) by lia. reflexivity.
    + by rewrite !forallb_app, hadamard_gates_unitary, oracle_gates_unitary,
        diffuser_gates_unitary.
  - intros i Hi.
    change (diffuse 2 (phase_flip 2 t (fold_left _ (range 2) ket0)))
      with (grover_round 2 t (hadamards 2 ket0)).
    rewrite one_round_values by done. destruct (i =? t)%Z; lra.
Qed.

Lemma one_round_finds_target_of_four_witness :
  ∃ oracle diff ψ',
    build_oracle 2 2 = Some oracle ∧
    diffuser 2 = Some diff ∧
    run (map H (range 2) ++ data oracle ++ data diff) ket0 []
      = Some (ψ', []) ∧
    ∀ i, (0 <= i < 4)%Z → ψ' i * ψ' i = if (i =? 2)%Z then 1 else 0.
Proof. apply (one_round_finds_target_of_four 2). lia. Defined.

(** The circuit the page runs for four items, with its composite gates
    replaced by their bodies. *)
Lemma grover_gates_inlined (t : Z) :
  (0 <= t < 4)%Z →
  flat_map inline (grover_gates t 2 2)
    = map H (range 2) ++ oracle_gates t 2 ++ diffuser_gates 2
        ++ oracle_gates t 2 ++ diffuser_gates 2
        ++ [Measure 0 0; Measure 1 1].
Proof.
  intros Ht.
  destruct (four_cases t Ht) as [-> | [-> | [-> | ->]]];
    vm_compute; reflexivity.
Qed.

Lemma grover_four_items_state (t : Z) :
  (0 <= t < 4)%Z →
  run (flat_map inline (grover_gates t 2 2)) ket0 []
    = Some (grover_round 2 t (grover_round 2 t (hadamards 2 ket0)),
            [(0, 0); (1, 1)]%Z).
Proof.
  intros Ht. rewrite grover_gates_inlined by done. rewrite !app_assoc.
  rewrite run_gates.
  - rewrite !gates_action_app, gates_action_H, !oracle_action by lia.
    rewrite !(diffuser_diffuse 2) by lia. reflexivity.
  - by rewrite !forallb_app, hadamard_gates_unitary, oracle_gates_unitary,
      diffuser_gates_unitary.
Qed.

(** On four items the page's search does not favour the target: with the
    two iterations [grover_circuit_builder] composes for [n = 2], every
    one of the four outcomes, the target's included, is read with
    probability 1/4. *)
Theorem grover_four_items_uniform (t : Z) :
  (0 <= t < 4)%Z →
  ∃ qc oracle diff,
    grover_circuit_builder t 2 = Some (qc, 2%Z, oracle, diff) ∧
    ∀ outcome : string, outcome ∈ ["00"; "01"; "10"; "11"] →
      ∃ p, outcome_prob (inlined qc) outcome = Some p ∧ p = 1 / 4.
Proof.
  intros Ht. do 3 eexists.
  split; [apply (grover_circuit_shape t 2 2); [lia|cbn; lia|by vm_compute]|].
  intros outcome Hin. unfold outcome_prob, inlined.
  cbn [data num_qubits num_clbits]. change (Z.to_nat 2) with 2%nat.
  rewrite grover_four_items_state by done. cbn [mbind option_bind].
  change (range (2 ^ 2)) with [0; 1; 2; 3]%Z. cbn [map fold_right].
  eexists. split; [reflexivity|].
  repeat (apply elem_of_cons in Hin as [-> | Hin]);
    [..|by apply elem_of_nil in Hin];
    EntanglementFacts.eval_conditions;
    rewrite two_rounds_values by lia; destruct (_ =? t)%Z; lra.
Qed.

Lemma grover_four_items_uniform_witness :
  ∃ qc oracle diff,
    grover_circuit_builder 3 2 = Some (qc, 2%Z, oracle, diff) ∧
    ∀ outcome : string, outcome ∈ ["00"; "01"; "10"; "11"] →
      ∃ p, outcome_prob (inlined qc) outcome = Some p ∧ p = 1 / 4.
Proof. apply (grover_four_items_uniform 3). lia. Defined.

End FourItems.

(** ** The BB84 transmission *)

Module TransmissionFacts.

Import Circuit CircuitFacts Statevector Unitary QKD DoubleFacts QKDFacts
  Transmission TransmissionParts UnitaryFacts AmplitudeFacts.
Local Open Scope R_scope.

(** The probabilities of reading 0 and 1 from one measured qubit. *)
Lemma one_qubit_outcomes (gs : list instr) (nm : string) :
  forallb is_unitary gs = true →
  outcome_prob (mkQC 1 1 nm (gs ++ [Measure 0 0])) "0"
    = Some (gates_action gs ket0 0%Z * gates_action gs ket0 0%Z + (0 + 0)) ∧
  outcome_prob (mkQC 1 1 nm (gs ++ [Measure 0 0])) "1"
    = Some (0 + (gates_action gs ket0 1%Z * gates_action gs ket0 1%Z + 0)).
Proof.
  intros Hgs. unfold outcome_prob. cbn [data num_clbits num_qubits].
  rewrite run_gates by done. cbn [run app mbind option_bind].
  change (range (2 ^ 1)) with [0; 1]%Z. cbn [map fold_right].
  split; EntanglementFacts.eval_conditions; reflexivity.
Qed.

Lemma transmit_circuit_gates (a : Z) (ba bb : string) :
  transmit_circuit a ba bb
    = Some (mkQC 1 1 "circuit" (transmit_gates a ba bb ++ [Measure 0 0])).
Proof.
  unfold transmit_circuit, transmit_gates.
  destruct (decide (ba = "Z")), (decide (a = 1%Z)), (decide (bb = "X"));
    reflexivity.
Qed.

Lemma transmit_gates_unitary (a : Z) (ba bb : string) :
  forallb is_unitary (transmit_gates a ba bb) = true.
Proof.
  unfold transmit_gates.
  by destruct (decide (ba = "Z")), (decide (a = 1%Z)), (decide (bb = "X")).
Qed.

Lemma inv_sqrt2_sqr : / R_sqrt.sqrt 2 * / R_sqrt.sqrt 2 = 1 / 2.
Proof. pose proof (inv_sqrt2_pow 1) as Hp. cbn [pow] in Hp. lra. Qed.

(** Evaluates the amplitude of a basis state after a few gates on one
    qubit and closes the equation. *)
Ltac one_qubit_amplitude :=
  unfold gates_action; cbn [fold_left gate_action];
  unfold apply_H, apply_X, apply_Z, flip, ket0; cbv beta;
  EntanglementFacts.eval_conditions;
  unfold Rdiv; generalize inv_sqrt2_sqr; generalize (/ R_sqrt.sqrt 2);
  intros; nra.

(** The amplitudes before the measurement: a basis state when the bases
    are the same, an even superposition when they differ. *)
Lemma transmit_amplitudes (a : Z) (ba bb : string) :
  let ψ := gates_action (transmit_gates a ba bb) ket0 in
  let same := bool_decide (ba = "Z" ↔ bb ≠ "X") in
  ψ 0%Z
    = (if same then (if decide (a = 1%Z) then 0 else 1)
       else / R_sqrt.sqrt 2) ∧
  ψ 1%Z
    = (if same then (if decide (a = 1%Z) then 1 else 0)
       else if decide (a = 1%Z) then - / R_sqrt.sqrt 2
       else / R_sqrt.sqrt 2).
Proof.
  cbv zeta. unfold transmit_gates.
  destruct (decide (ba = "Z")) as [Hz|Hz],
    (decide (a = 1%Z)), (decide (bb = "X")) as [Hx|Hx];
    cbn [app].
  all: (rewrite bool_decide_eq_true_2 by tauto)
       || (rewrite bool_decide_eq_false_2 by tauto).
  all: split; one_qubit_amplitude.
Qed.

(** What Bob's measurement of one qubit gives: Alice's bit for certain
    when he measures in the basis she prepared in (['Z'] and not ['X'],
    or not ['Z'] and ['X']), and 0 or 1 with probability 1/2 each when
    the bases differ. *)
Theorem transmission_outcomes (a : Z) (ba bb : string) :
  ∃ qc p0 p1,
    transmit_circuit a ba bb = Some qc ∧
    outcome_prob qc "0" = Some p0 ∧
    outcome_prob qc "1" = Some p1 ∧
    ((ba = "Z" ↔ bb ≠ "X") →
     p0 = (if decide (a = 1%Z) then 0 else 1) ∧
     p1 = (if decide (a = 1%Z) then 1 else 0)) ∧
    (¬ (ba = "Z" ↔ bb ≠ "X") → p0 = 1 / 2 ∧ p1 = 1 / 2).
Proof.
  destruct (one_qubit_outcomes (transmit_gates a ba bb) "circuit"
              (transmit_gates_unitary a ba bb)) as [H0 H1].
  destruct (transmit_amplitudes a ba bb) as [Ha0 Ha1]. cbv zeta in Ha0, Ha1.
  do 3 eexists. split; [apply transmit_circuit_gates|].
  split; [exact H0|]. split; [exact H1|].
  rewrite Ha0, Ha1. pose proof inv_sqrt2_sqr. split; intros Hsame.
  - rewrite bool_decide_eq_true_2 by done. destruct (decide (a = 1%Z)); lra.
  - rewrite bool_decide_eq_false_2 by done. destruct (decide (a = 1%Z)); lra.
Qed.

Lemma transmission_outcomes_witness :
  ∃ qc p0 p1,
    transmit_circuit 1 "X" "X" = Some qc ∧
    outcome_prob qc "0" = Some p0 ∧
    outcome_prob qc "1" = Some p1 ∧
    p0 = 0 ∧ p1 = 1.
Proof.
  destruct (transmission_outcomes 1 "X" "X")
    as (qc & p0 & p1 & Hqc & H0 & H1 & Hsame & _).
  exists qc, p0, p1. split; [exact Hqc|]. split; [exact H0|].
  split; [exact H1|]. apply Hsame. split; [discriminate|].
  intros Hx. by contradict Hx.
Defined.

(** With the same basis on both sides, Bob can only read Alice's bit. *)
Lemma same_basis_reads_bit (a r : Z) (b : string) (qc : QuantumCircuit) :
  a = 0%Z ∨ a = 1%Z → b = "Z" ∨ b = "X" →
  transmit_circuit a b b = Some qc → may_measure qc r → r = a.
Proof.
  intros Ha Hb Hqc [Hr (p & Hp & Hpos)].
  rewrite transmit_circuit_gates in Hqc. simplify_eq.
  destruct (one_qubit_outcomes (transmit_gates a b b) "circuit"
              (transmit_gates_unitary a b b)) as [H0 H1].
  destruct (transmit_amplitudes a b b) as [Ha0 Ha1]. cbv zeta in Ha0, Ha1.
  rewrite bool_decide_eq_true_2 in Ha0, Ha1
    by (destruct Hb as [-> | ->]; split; done).
  rewrite Ha0 in H0. rewrite Ha1 in H1.
  destruct Hr as [-> | ->].
  - change (pretty 0%Z) with "0" in Hp. rewrite H0 in Hp. simplify_eq.
    destruct (decide (a = 1%Z)); [lra|lia].
  - change (pretty 1%Z) with "1" in Hp. rewrite H1 in Hp. simplify_eq.
    destruct (decide (a = 1%Z)); [done|lra].
Qed.

Lemma count_equal_same (l : list Z) : count_equal l l = Z.of_nat (length l).
Proof.
  induction l as [|a l IH]; [done|]. cbn [count_equal length].
  rewrite decide_True by done. lia.
Qed.

(** A key in full agreement: exactly 100.0, unless it is empty. *)
Lemma accuracy_all_agree (t : Z) :
  (0 <= t)%Z →
  ∃ acc, accuracy t t = Some acc ∧
    verdict acc
      = if (0 <? t)%Z
        then StSuccess "Perfect key agreement — communication is secure!"
        else StError "Low key agreement — communication not secure.".
Proof.
  intros Ht. destruct (Z.ltb_spec 0 t) as [Hpos|Hle].
  - eexists. split; [apply accuracy_counts; lia|].
    rewrite percent_all by done. unfold verdict, num_eqb.
    by rewrite Z.eqb_refl.
  - assert (t = 0%Z) as -> by lia. by exists (NInt 0).
Qed.

(** The sifting and the statistics of lines 92 to 116 on results that
    the transmissions can give without noise: the keys are taken at the
    positions where the bases agree, every bit Bob read there is
    Alice's, so the two keys are the same and all of them match; the
    verdict is perfect agreement when some basis matched and low
    agreement when none did, never a partial one. *)
Theorem sifted_keys_agree (num_bits : nat) (alice_bits : list Z)
    (alice_bases bob_bases : list string) (bob_results : list Z) :
  length alice_bits = num_bits → length alice_bases = num_bits →
  length bob_bases = num_bits → length bob_results = num_bits →
  Forall (λ a, a = 0%Z ∨ a = 1%Z) alice_bits →
  Forall (λ b, b = "Z" ∨ b = "X") alice_bases →
  possible_results alice_bits alice_bases bob_bases bob_results →
  ∃ s,
    key_agreement num_bits alice_bits alice_bases bob_bases bob_results
      = Some s ∧
    s_indices s
      = filter (λ i, alice_bases !! i = bob_bases !! i) (seq 0 num_bits) ∧
    length (s_alice_key s) = length (s_indices s) ∧
    (∀ (j i : nat), s_indices s !! j = Some i →
       s_alice_key s !! j = alice_bits !! i ∧
       s_bob_key s !! j = bob_results !! i) ∧
    s_bob_key s = s_alice_key s ∧
    s_total s = Z.of_nat (length (s_indices s)) ∧
    s_matches s = s_total s ∧
    verdict (s_accuracy s)
      = match filter (λ i, alice_bases !! i = bob_bases !! i)
                (seq 0 num_bits) with
        | [] => StError "Low key agreement — communication not secure."
        | _ :: _ =>
            StSuccess "Perfect key agreement — communication is secure!"
        end.
Proof.
  intros Hab Hbases Hbob Hres Hbits Hbs Hposs.
  destruct (key_agreement_runs num_bits alice_bits alice_bases bob_bases
              bob_results Hab Hbases Hbob Hres)
    as (idxs & ak & bk & acc & Hidxs & Hak & Hbk & Hacc & Hrun).
  assert (∀ i, i ∈ idxs →
            (i < num_bits)%nat ∧ alice_bases !! i = bob_bases !! i) as Hidx.
  { intros i Hi. subst idxs. unfold agreeing_positions in Hi.
    apply list_elem_of_filter in Hi as [Hsame Hi]. apply elem_of_seq in Hi.
    split; [lia|done]. }
  destruct (sift_lookup alice_bits idxs) as (ak' & Hak' & Hlena & Hgeta).
  { apply Forall_forall. intros i Hi. apply Hidx in Hi. lia. }
  destruct (sift_lookup bob_results idxs) as (bk' & Hbk' & Hlenb & Hgetb).
  { apply Forall_forall. intros i Hi. apply Hidx in Hi. lia. }
  assert (ak' = ak) as -> by congruence.
  assert (bk' = bk) as -> by congruence.
  assert (bk = ak) as Hsame_keys.
  { apply list_eq. intros j.
    destruct (idxs !! j) as [i|] eqn:Hj.
    - destruct (Hgeta j i Hj) as [[a Ha] Hka].
      destruct (Hgetb j i Hj) as [[r Hr] Hkb].
      rewrite Hka, Hkb, Ha, Hr. f_equal.
      destruct (Hidx i) as [Hlt Hsame]; [by eapply list_elem_of_lookup_2|].
      destruct (lookup_lt_is_Some_2 alice_bases i) as [b Hb]; [lia|].
      rewrite Hb in Hsame. symmetry in Hsame.
      destruct (Hposs i a b b r Ha Hb Hsame Hr) as (qc & Hqc & Hmeas).
      eapply same_basis_reads_bit; [| |exact Hqc|exact Hmeas].
      + eapply (proj1 (Forall_forall _ _) Hbits).
        by eapply list_elem_of_lookup_2.
      + eapply (proj1 (Forall_forall _ _) Hbs).
        by eapply list_elem_of_lookup_2.
    - apply lookup_ge_None in Hj.
      rewrite (proj2 (lookup_ge_None _ _)), (proj2 (lookup_ge_None _ _)); [done|lia|lia]. }
  rewrite Hsame_keys in Hrun, Hacc, Hgetb.
  rewrite count_equal_same, Hlena in Hacc, Hrun.
  eexists. split; [exact Hrun|].
  cbn [s_indices s_alice_key s_bob_key s_matches s_total s_accuracy].
  split; [done|]. split; [done|].
  split; [intros j i Hj; split; [by apply Hgeta|by apply Hgetb]|].
  split; [done|]. split; [done|]. split; [done|].
  destruct (accuracy_all_agree (Z.of_nat (length idxs)))
    as (acc' & Hacc' & Hverdict); [lia|].
  assert (acc' = acc) as -> by congruence. rewrite Hverdict.
  unfold agreeing_positions in Hidxs. rewrite <- Hidxs.
  destruct idxs as [|i idxs]; [done|].
  by destruct (Z.ltb_spec 0 (Z.of_nat (length (i :: idxs)))).
Qed.

(** The readings a transmission allows. *)
Lemma may_measure_intro (a r : Z) (ba bb : string) :
  r = 0%Z ∨ r = 1%Z →
  ((ba = "Z" ↔ bb ≠ "X") → r = if decide (a = 1%Z) then 1%Z else 0%Z) →
  ∃ qc, transmit_circuit a ba bb = Some qc ∧ may_measure qc r.
Proof.
  intros Hr Hsame. eexists. split; [apply transmit_circuit_gates|].
  split; [done|].
  destruct (one_qubit_outcomes (transmit_gates a ba bb) "circuit"
              (transmit_gates_unitary a ba bb)) as [H0 H1].
  destruct (transmit_amplitudes a ba bb) as [Ha0 Ha1]. cbv zeta in Ha0, Ha1.
  rewrite Ha0 in H0. rewrite Ha1 in H1. pose proof inv_sqrt2_sqr.
  destruct (decide (ba = "Z" ↔ bb ≠ "X")) as [Hs|Hs].
  - rewrite bool_decide_eq_true_2 in H0, H1 by done. specialize (Hsame Hs).
    destruct (decide (a = 1%Z)); subst r.
    + change (pretty 1%Z) with "1". eexists. split; [exact H1|lra].
    + change (pretty 0%Z) with "0". eexists. split; [exact H0|lra].
  - rewrite bool_decide_eq_false_2 in H0, H1 by done.
    destruct Hr as [-> | ->].
    + change (pretty 0%Z) with "0". eexists. split; [exact H0|lra].
    + change (pretty 1%Z) with "1". eexists. split; [exact H1|].
      destruct (decide (a = 1%Z)); lra.
Qed.

Lemma sifted_keys_agree_witness :
  ∃ s,
    key_agreement 3 [1; 0; 1]%Z ["Z"; "X"; "X"] ["Z"; "Z"; "X"] [1; 0; 1]%Z
      = Some s ∧
    s_indices s
      = filter (λ i, ["Z"; "X"; "X"] !! i = ["Z"; "Z"; "X"] !! i) (seq 0 3) ∧
    length (s_alice_key s) = length (s_indices s) ∧
    (∀ (j i : nat), s_indices s !! j = Some i →
       s_alice_key s !! j = [1; 0; 1]%Z !! i ∧
       s_bob_key s !! j = [1; 0; 1]%Z !! i) ∧
    s_bob_key s = s_alice_key s ∧
    s_total s = Z.of_nat (length (s_indices s)) ∧
    s_matches s = s_total s ∧
    verdict (s_accuracy s)
      = StSuccess "Perfect key agreement — communication is secure!".
Proof.
  apply (sifted_keys_agree 3 [1; 0; 1]%Z ["Z"; "X"; "X"] ["Z"; "Z"; "X"]
           [1; 0; 1]%Z); try reflexivity.
  - repeat constructor; lia.
  - repeat constructor; tauto.
  - intros i a ba bb r Ha Hba Hbb Hr.
    destruct i as [|[|[|i]]]; cbn in Ha, Hba, Hbb, Hr; simplify_eq.
    + apply may_measure_intro; [by right|]. intros _.
      by rewrite decide_True.
    + apply may_measure_intro; [by left|]. intros [Hz _].
      by rewrite decide_False.
    + apply may_measure_intro; [by right|]. intros _.
      by rewrite decide_True.
Defined.

(** Beyond [2^53] bits the counts no longer decide the verdict: with one
    mismatch in [2^54 + 1] bits the quotient rounds to 1.0 and the
    verdict is perfect agreement. *)
Lemma verdict_perfect_with_a_mismatch :
  ∃ acc, accuracy (2 ^ 54) (2 ^ 54 + 1) = Some acc ∧
    verdict acc
      = StSuccess "Perfect key agreement — communication is secure!".
Proof. eexists. split; vm_compute; reflexivity. Qed.

(** Which of its three messages the page shows, by the counts, for keys
    of up to [2^52] bits: perfect agreement when the whole of a
    non-empty key agrees, partial agreement when more than half of it
    does, low agreement otherwise, so also at exactly one half and when
    no basis matched at all. The double-precision accuracy decides as the
    exact quotient would. *)
Theorem verdict_by_counts (matches total : Z) :
  (0 <= matches <= total)%Z → (total <= 2 ^ 52)%Z →
  ∃ acc, accuracy matches total = Some acc ∧
    verdict acc
      = if (0 <? total)%Z && (matches =? total)%Z then
          StSuccess "Perfect key agreement — communication is secure!"
        else if (0 <? total)%Z && (total <? 2 * matches)%Z then
          StWarning "Partial key agreement — some errors, possible eavesdropping or noise."
        else
          StError "Low key agreement — communication not secure.".
Proof.
  intros Hm Ht. destruct (Z.ltb_spec 0 total) as [Hpos|Hle].
  2:{ assert (total = 0%Z) as -> by lia. by exists (NInt 0). }
  eexists. split; [by apply accuracy_counts|]. cbn [andb].
  unfold verdict, num_eqb, num_gtb.
  assert (2 ^ 52 < 2 ^ 53)%Z as H53 by done.
  destruct (Z.eqb_spec matches total) as [->|Hne].
  - rewrite percent_all by done. by rewrite Z.eqb_refl.
  - pose proof (percent_less matches total ltac:(lia) ltac:(lia)) as Hless.
    destruct (Z.eqb_spec
                (round_units (round_units (matches * 2 ^ 1074) total * 100) 1)
                (100 * 2 ^ 1074)) as [Heq|_]; [lia|].
    destruct (Z.ltb_spec total (2 * matches)) as [Hhalf|Hhalf].
    + pose proof (percent_more_than_half matches total ltac:(lia) Hhalf Ht)
        as Hmore.
      by destruct (Z.ltb_spec (50 * 2 ^ 1074)
                     (round_units
                        (round_units (matches * 2 ^ 1074) total * 100) 1));
        [|lia].
    + pose proof (percent_at_most_half matches total ltac:(lia) Hpos Hhalf)
        as Hlow.
      by destruct (Z.ltb_spec (50 * 2 ^ 1074)
                     (round_units
                        (round_units (matches * 2 ^ 1074) total * 100) 1));
        [lia|].
Qed.

Lemma verdict_by_counts_witness :
  ∃ acc, accuracy 2 3 = Some acc ∧
    verdict acc
      = StWarning "Partial key agreement — some errors, possible eavesdropping or noise.".
Proof. apply (verdict_by_counts 2 3); [lia|done]. Defined.

End TransmissionFacts.

(** ** The search page between runs *)

Module SearchPageFacts.

Import Circuit CircuitFacts Grover OracleFacts IterationFacts SessionFacts
  SearchFacts SearchMore SearchPage.
Local Open Scope Z_scope.

Lemma list_index_lookup (target : pyval) (data : list Z) :
  ∀ (i idx : Z),
  list_index target data i = Some idx →
  i ≤ idx ∧ ∃ x, data !! Z.to_nat (idx - i) = Some x ∧ PInt x = target.
Proof.
  induction data as [|val rest IH]; intros i idx Hidx; [done|].
  cbn [list_index] in Hidx. destruct (decide (PInt val = target)) as [Heq|Hne].
  - simplify_eq. split; [lia|]. exists val. by rewrite Z.sub_diag.
  - apply IH in Hidx as [Hle (x & Hx & Htarget)]. split; [lia|].
    exists x. split; [|done].
    replace (Z.to_nat (idx - i)) with (S (Z.to_nat (idx - (i + 1)))) by lia.
    done.
Qed.

(** In [list(range(n))] every value is its own index. *)
Lemma list_index_range (n t : Z) :
  0 ≤ t < n → list_index (PInt t) (range n) 0 = Some t.
Proof.
  intros Ht.
  destruct (list_index_elem t (range n) (proj2 (range_elem n t) Ht) 0)
    as (idx & Hidx).
  rewrite Hidx. f_equal.
  apply list_index_lookup in Hidx as [Hle (x & Hx & Heq)].
  apply range_lookup in Hx as [-> _]. simplify_eq. lia.
Qed.

Lemma random_choice_range (r : nat) (n : Z) :
  0 < n → ∃ t, random_choice r (range n) = Some t ∧ 0 ≤ t < n.
Proof.
  intros Hn.
  destruct (random_choice_elem r (range n) (range_nonempty n Hn))
    as (t & Ht & Hin).
  exists t. split; [done|]. by apply range_elem.
Qed.

(** Every run of the page, from a fresh session or from the state an
    earlier run left, leaves the state for the selected number of items:
    the data is [list(range(num_items))], the target is one of them, and a
    changed selection replaces both. A run that is not a reset renders
    the page with the target's index, which is the target itself; a
    reset ends in a rerun. *)
Theorem script_run_keeps_session (w : widgets) (r1 r2 : nat)
    (ss : gmap string pyval) :
  num_items_selected w ∈ num_items_options →
  ss !! "data" = None ∨ (∃ n, session_for n ss) →
  ∃ e,
    script_run w r1 r2 ss = Some e ∧
    session_for (num_items_selected w) (final_session e) ∧
    match e with
    | Rerun _ => reset_target w = true
    | Rendered ss' idx =>
        reset_target w = false ∧ ss' !! "target" = Some (PInt idx)
    end.
Proof.
  intros Hsel Hss. pose proof (options_positive _ Hsel) as Hpos.
  set (n := num_items_selected w) in *.
  (* the state after lines 77 to 80 *)
  assert (∃ ss1, init_session n r1 ss = Some ss1 ∧ session_for n ss1)
    as (ss1 & Hinit & Hwf).
  { unfold init_session.
    destruct (bool_decide (ss !! "data" = None)
              || bool_decide (ss !! "num_items" ≠ Some (PInt n))) eqn:Hcond.
    - assert (session_data (<["data" := PList (range n)]> ss)
                = Some (range n)) as ->.
      { unfold session_data. by rewrite lookup_insert_eq. }
      cbn [mbind option_bind].
      destruct (random_choice_range r1 n Hpos) as (t & -> & Ht).
      cbn [mbind option_bind]. eexists. split; [done|].
      split; [|split].
      + rewrite !lookup_insert_ne by done. by rewrite lookup_insert_eq.
      + by rewrite lookup_insert_eq.
      + exists t. rewrite lookup_insert_ne by done.
        by rewrite lookup_insert_eq.
    - apply orb_false_iff in Hcond as [Hdata Hnum].
      apply bool_decide_eq_false in Hdata, Hnum.
      destruct Hss as [Hnone|(m & Hm)]; [done|].
      exists ss. split; [done|].
      destruct Hm as (Hd & Hn & Ht).
      assert (m = n) as -> by (apply dec_stable in Hnum; congruence).
      done. }
  unfold script_run. fold n. rewrite Hinit. cbn [mbind option_bind].
  destruct Hwf as (Hd & Hn & t & Htarget & Ht).
  unfold session_data, session_target. rewrite Hd, Htarget.
  cbn [mbind option_bind]. destruct (reset_target w) eqn:Hreset.
  - destruct (random_choice_range r2 n Hpos) as (t' & -> & Ht').
    cbn [mbind option_bind]. eexists. split; [done|]. split; [|done].
    cbn [final_session]. split; [|split].
    + by rewrite lookup_insert_ne.
    + by rewrite lookup_insert_ne.
    + exists t'. by rewrite lookup_insert_eq.
  - rewrite list_index_range by done. cbn [mbind option_bind].
    eexists. split; [done|]. split; [|done].
    cbn [final_session]. split; [done|]. split; [done|]. by exists t.
Qed.

Lemma script_run_keeps_session_witness :
  ∃ e,
    script_run (mkWidgets 8 false false false false) 5 0
      (∅ : gmap string pyval) = Some e ∧
    session_for 8 (final_session e) ∧
    match e with
    | Rerun _ => false = true
    | Rendered ss' idx => false = false ∧ ss' !! "target" = Some (PInt idx)
    end.
Proof.
  apply (script_run_keeps_session (mkWidgets 8 false false false false) 5 0 ∅).
  - apply list_elem_of_In. cbn. tauto.
  - left. reflexivity.
Defined.

(** "Run Classical Search" on the page's state finds the target at the
    index equal to its value, after that many steps plus one, and writes
    one line per step. *)
Theorem classical_button_steps (n : Z) (ss : gmap string pyval) :
  session_for n ss →
  ∃ t trace,
    ss !! "target" = Some (PInt t) ∧
    classical_button ss = Some ((t, t + 1), trace) ∧
    Z.of_nat (length trace) = t + 1 ∧ t + 1 ≤ n.
Proof.
  intros (Hd & _ & t & Htarget & Ht). exists t.
  unfold classical_button, session_data, session_target.
  rewrite Hd, Htarget. cbn [mbind option_bind]. unfold classical_search.
  destruct (search_from_found true (PInt t) (PInt <$> range n)) with
    (i := 0) (steps := 0) (out := @nil string)
    as (k & out' & Hk & _ & Hres & Hlen).
  { apply list_elem_of_fmap. exists t. split; [done|]. by apply range_elem. }
  rewrite list_lookup_fmap in Hk. apply fmap_Some in Hk as (x & Hx & Heq).
  apply range_lookup in Hx as [-> _]. simplify_eq.
  exists out'. split; [done|]. rewrite Hres.
  split; [do 2 f_equal; lia|]. cbn [length] in Hlen. lia.
Qed.

Lemma classical_button_steps_witness :
  ∃ t trace,
    (<["num_items" := PInt 4]>
       (<["target" := PInt 3]>
          (<["data" := PList (range 4)]> (∅ : gmap string pyval))))
      !! "target" = Some (PInt t) ∧
    classical_button
      (<["num_items" := PInt 4]>
         (<["target" := PInt 3]>
            (<["data" := PList (range 4)]> (∅ : gmap string pyval))))
      = Some ((t, t + 1), trace) ∧
    Z.of_nat (length trace) = t + 1 ∧ t + 1 ≤ 4.
Proof.
  apply (classical_button_steps 4). split; [reflexivity|].
  split; [reflexivity|]. exists 3. split; [reflexivity|lia].
Defined.

(** "Run Grover Search" on the page's state always gets its circuit: for
    each size the selectbox offers, the number of qubits is the size's
    logarithm, the oracle marks the target (whose index in the data is
    its value), and the oracle and diffuser are composed 2, 2, 3 and 4
    times for 4, 8, 16 and 32 items. *)
Theorem grover_button_builds (n : Z) (ss : gmap string pyval) :
  n ∈ num_items_options → session_for n ss →
  ∃ t q k,
    ss !! "target" = Some (PInt t) ∧
    qubits_for n = Some q ∧ 2 ^ q = n ∧
    (n, k) ∈ [(4, 2); (8, 2); (16, 3); (32, 4)] ∧
    grover_button ss n
      = Some (mkQC q q "circuit" (grover_gates t q (Z.to_nat k)), k,
              mkQC q 0 "Oracle" (oracle_gates t q),
              mkQC q 0 "Diffuser" (diffuser_gates q)).
Proof.
  intros Hn (Hd & _ & t & Htarget & Ht). exists t.
  assert (∃ q k, qubits_for n = Some q ∧ 2 ^ q = n ∧ 1 ≤ q ∧
            grover_iterations q = Some k ∧
            (n, k) ∈ [(4, 2); (8, 2); (16, 3); (32, 4)])
    as (q & k & Hq & Hpow & Hq1 & Hk & Htable).
  { unfold num_items_options in Hn.
    repeat (apply elem_of_cons in Hn as [-> | Hn]);
      [exists 2, 2|exists 3, 2|exists 4, 3|exists 5, 4|by apply elem_of_nil in Hn].
    all: split; [reflexivity|]. all: split; [reflexivity|].
    all: split; [lia|]. all: split; [by vm_compute|].
    all: apply list_elem_of_In; cbn; tauto. }
  exists q, k. split; [done|]. split; [done|]. split; [done|].
  split; [done|]. unfold grover_button, session_data, session_target.
  rewrite Hq, Hd, Htarget. cbn [mbind option_bind].
  rewrite list_index_range by done. cbn [mbind option_bind].
  apply FourItems.grover_circuit_shape; [done|lia|done].
Qed.

Lemma grover_button_builds_witness :
  ∃ t q k,
    (<["num_items" := PInt 16]>
       (<["target" := PInt 11]>
          (<["data" := PList (range 16)]> (∅ : gmap string pyval))))
      !! "target" = Some (PInt t) ∧
    qubits_for 16 = Some q ∧ 2 ^ q = 16 ∧
    (16, k) ∈ [(4, 2); (8, 2); (16, 3); (32, 4)] ∧
    grover_button
      (<["num_items" := PInt 16]>
         (<["target" := PInt 11]>
            (<["data" := PList (range 16)]> (∅ : gmap string pyval)))) 16
      = Some (mkQC q q "circuit" (grover_gates t q (Z.to_nat k)), k,
              mkQC q 0 "Oracle" (oracle_gates t q),
              mkQC q 0 "Diffuser" (diffuser_gates q)).
Proof.
  apply (grover_button_builds 16).
  - apply list_elem_of_In. cbn. tauto.
  - split; [reflexivity|]. split; [reflexivity|].
    exists 11. split; [reflexivity|lia].
Defined.

End SearchPageFacts.

(** ** The superposition and interference pages *)

Module PagesFacts.

Import Circuit CircuitFacts Statevector Unitary Superposition Interference
  UnitaryFacts AmplitudeFacts TransmissionFacts.
Local Open Scope R_scope.

(** *** superposition.py *)

(** Whatever the initial state chosen, the circuit reads 0 and 1 with
    probability 1/2 each; the state shown on the Bloch sphere has the
    amplitudes [1/sqrt 2] and [1/sqrt 2], the second negated when the
    qubit started in [|1>]. *)
Theorem superposition_half_half (initial_state : string) :
  ∃ qc qb p0 p1 ψ,
    Superposition.qc initial_state = Some qc ∧
    outcome_prob qc "0" = Some p0 ∧ p0 = 1 / 2 ∧
    outcome_prob qc "1" = Some p1 ∧ p1 = 1 / 2 ∧
    qc_bloch initial_state = Some qb ∧
    run (data qb) ket0 [] = Some (ψ, []) ∧
    ψ 0%Z = / R_sqrt.sqrt 2 ∧
    ψ 1%Z = (if decide (initial_state = "|1⟩") then - / R_sqrt.sqrt 2
             else / R_sqrt.sqrt 2).
Proof.
  set (gs := (if decide (initial_state = "|1⟩") then [X 0] else []) ++ [H 0]).
  assert (forallb is_unitary gs = true) as Hgs
    by (subst gs; by destruct (decide _)).
  assert (Superposition.qc initial_state
            = Some (mkQC 1 1 "circuit" (gs ++ [Measure 0 0]))) as Hqc
    by (unfold Superposition.qc; subst gs; by destruct (decide _)).
  assert (qc_bloch initial_state = Some (mkQC 1 0 "circuit" gs)) as Hqb
    by (unfold qc_bloch; subst gs; by destruct (decide _)).
  assert (gates_action gs ket0 0%Z = / R_sqrt.sqrt 2 ∧
          gates_action gs ket0 1%Z
            = (if decide (initial_state = "|1⟩") then - / R_sqrt.sqrt 2
               else / R_sqrt.sqrt 2)) as [Ha0 Ha1].
  { subst gs. destruct (decide _); cbn [app]; split; one_qubit_amplitude. }
  destruct (one_qubit_outcomes gs "circuit" Hgs) as [H0 H1].
  exists (mkQC 1 1 "circuit" (gs ++ [Measure 0 0])), (mkQC 1 0 "circuit" gs).
  do 2 eexists. exists (gates_action gs ket0).
  split; [done|]. split; [exact H0|]. pose proof inv_sqrt2_sqr.
  split; [rewrite Ha0; lra|]. split; [exact H1|].
  split; [rewrite Ha1; destruct (decide _); lra|]. split; [done|].
  split; [|done]. cbn [data]. rewrite <- (app_nil_r gs) at 1.
  by rewrite run_gates.
Qed.

(** *** interference.py *)

Lemma interference_state :
  run_x qc_gates ket0 []
    = Some (apply_H 1 (apply_H 0 (apply_CZ 0 1 (hadamards 2 ket0))),
            [(0, 0); (1, 1)]%Z).
Proof. reflexivity. Qed.

(** Evaluates the bit tests and basis states in the goal. *)
Ltac eval_basis :=
  repeat match goal with
  | |- context [Z.lxor ?a ?b] =>
      let v := eval vm_compute in (Z.lxor a b) in
      change (Z.lxor a b) with v
  end;
  EntanglementFacts.eval_conditions.

Lemma interference_amplitudes :
  let ψ := apply_H 1 (apply_H 0 (apply_CZ 0 1 (hadamards 2 ket0))) in
  ψ 0%Z = 1 / 2 ∧ ψ 1%Z = 1 / 2 ∧ ψ 2%Z = 1 / 2 ∧ ψ 3%Z = - (1 / 2).
Proof.
  cbv zeta. unfold apply_H, apply_CZ, flip. cbv beta.
  repeat split; eval_basis;
    rewrite ?FourItems.hadamards_2_ket0 by lia;
    unfold Rdiv; generalize inv_sqrt2_sqr; generalize (/ R_sqrt.sqrt 2);
    intros; nra.
Qed.

(** The page's circuit (H on both qubits, controlled Z, H on both again,
    measurement) reads each of the four outcomes with probability 1/4: no
    outcome is cancelled and none is amplified. *)
Theorem interference_outcomes_uniform (outcome : string) :
  outcome ∈ ["00"; "01"; "10"; "11"] →
  ∃ p, outcome_prob_x outcome = Some p ∧ p = 1 / 4.
Proof.
  intros Hin. unfold outcome_prob_x. rewrite interference_state.
  cbn [mbind option_bind]. change (range (2 ^ 2)) with [0; 1; 2; 3]%Z.
  cbn [map fold_right]. eexists. split; [reflexivity|].
  destruct interference_amplitudes as (H0 & H1 & H2 & H3). cbv zeta in *.
  repeat (apply elem_of_cons in Hin as [-> | Hin]);
    [..|by apply elem_of_nil in Hin];
    EntanglementFacts.eval_conditions; rewrite ?H0, ?H1, ?H2, ?H3; lra.
Qed.

Lemma interference_outcomes_uniform_witness :
  ∃ p, outcome_prob_x "11" = Some p ∧ p = 1 / 4.
Proof.
  apply (interference_outcomes_uniform "11").
  apply list_elem_of_In. cbn. tauto.
Defined.

(** *** The coin labels *)

Local Open Scope Z_scope.

(** The label an outcome is shown under. *)
Lemma label_cases (k : string) :
  (k ∈ (coin_labels.*1) ∧ dict_get coin_labels k k ∈ (coin_labels.*2) ∧
   (k, dict_get coin_labels k k) ∈ coin_labels) ∨
  ((k ∉ coin_labels.*1) ∧ dict_get coin_labels k k = k).
Proof.
  unfold dict_get, coin_labels. cbn [list_find fst fmap list_fmap snd].
  repeat (case_decide; [subst k; left; cbn;
    repeat split; apply list_elem_of_In; cbn; tauto|]).
  right. cbn. split; [|done]. intros Hin. apply list_elem_of_In in Hin.
  cbn in Hin. intuition congruence.
Qed.

Lemma coin_labels_functional (k1 k2 l : string) :
  (k1, l) ∈ coin_labels → (k2, l) ∈ coin_labels → k1 = k2.
Proof.
  unfold coin_labels. intros H1 H2.
  apply list_elem_of_In in H1, H2. cbn in H1, H2.
  destruct H1 as [H1|[H1|[H1|[H1|[]]]]], H2 as [H2|[H2|[H2|[H2|[]]]]];
    simplify_eq; done.
Qed.

(** No two outcomes share a label, as long as no outcome is itself one
    of the labels. *)
Lemma label_injective (k1 k2 : string) :
  k1 ∉ (coin_labels.*2) → k2 ∉ (coin_labels.*2) →
  dict_get coin_labels k1 k1 = dict_get coin_labels k2 k2 → k1 = k2.
Proof.
  intros Hk1 Hk2 Heq.
  destruct (label_cases k1) as [(_ & Hl1 & Hin1)|[_ Hsame1]],
    (label_cases k2) as [(_ & Hl2 & Hin2)|[_ Hsame2]].
  - rewrite Heq in Hin1. by eapply coin_labels_functional.
  - rewrite Hsame2 in Heq. by rewrite Heq in Hl1.
  - rewrite Hsame1 in Heq. by rewrite <- Heq in Hl2.
  - congruence.
Qed.

Lemma dict_set_new {V : Type} (d : list (string * V)) (k : string) (v : V) :
  k ∉ (d.*1) → dict_set d k v = d ++ [(k, v)].
Proof.
  induction d as [|[k' v'] d IH]; intros Hk; [done|].
  cbn [fmap list_fmap fst] in Hk. apply not_elem_of_cons in Hk as [Hne Hk].
  cbn [dict_set]. rewrite decide_False by done. by rewrite IH.
Qed.

Lemma readable_counts_from (counts acc : list (string * Z)) :
  NoDup ((acc.*1) ++ ((λ kv, dict_get coin_labels kv.1 kv.1) <$> counts)) →
  fold_left (λ d kv, dict_set d (dict_get coin_labels kv.1 kv.1) kv.2)
      counts acc
    = acc ++ ((λ kv, (dict_get coin_labels kv.1 kv.1, kv.2)) <$> counts).
Proof.
  revert acc. induction counts as [|[k v] counts IH]; intros acc Hnd.
  - cbn. by rewrite app_nil_r.
  - cbn [fold_left fmap list_fmap fst snd] in *.
    apply NoDup_app in Hnd as (Hacc & Hfresh & Hrest).
    apply NoDup_cons in Hrest as [Hk Hrest].
    rewrite dict_set_new.
    + rewrite IH; [by rewrite <- app_assoc|].
      rewrite fmap_app. cbn [fmap list_fmap fst]. rewrite <- app_assoc.
      apply NoDup_app. split; [done|]. split.
      * intros x Hx. cbn. rewrite not_elem_of_cons. split.
        -- intros ->. apply (Hfresh _ Hx). apply elem_of_cons. by left.
        -- intros Hin. apply (Hfresh _ Hx). apply elem_of_cons. by right.
      * cbn. by apply NoDup_cons.
    + intros Hin. apply (Hfresh _ Hin). apply elem_of_cons. by left.
Qed.

(** The relabelling keeps every count: when no outcome is itself one of
    the four labels (no bit string is), the dictionary shown has one entry
    per outcome, in the same order, each count under its outcome's label,
    or under the outcome itself when it has no label. *)
Theorem readable_counts_keeps_counts (counts : list (string * Z)) :
  NoDup (counts.*1) →
  (∀ k, k ∈ (counts.*1) → k ∉ (coin_labels.*2)) →
  readable_counts counts
    = (λ kv, (dict_get coin_labels kv.1 kv.1, kv.2)) <$> counts.
Proof.
  intros Hnd Hkeys. unfold readable_counts.
  rewrite readable_counts_from; [done|]. cbn [fmap list_fmap app].
  clear -Hnd Hkeys. induction counts as [|[k v] counts IH]; [constructor|].
  cbn [fmap list_fmap fst] in *. apply NoDup_cons in Hnd as [Hk Hnd].
  apply NoDup_cons. split.
  - intros Hin. apply list_elem_of_fmap in Hin as ([k' v'] & Heq & Hin').
    cbn [fst] in Heq. apply label_injective in Heq.
    + subst k'. apply Hk. apply list_elem_of_fmap. by exists (k, v').
    + apply Hkeys. apply elem_of_cons. by left.
    + apply Hkeys. apply elem_of_cons. right.
      apply list_elem_of_fmap. by exists (k', v').
  - apply IH; [done|]. intros k' Hk'. apply Hkeys. apply elem_of_cons.
    by right.
Qed.

Lemma readable_counts_keeps_counts_witness :
  readable_counts [("00", 260); ("01", 250); ("11", 270); ("10", 244)]
    = (λ kv, (dict_get coin_labels kv.1 kv.1, kv.2))
        <$> [("00", 260); ("01", 250); ("11", 270); ("10", 244)].
Proof.
  apply (readable_counts_keeps_counts
           [("00", 260); ("01", 250); ("11", 270); ("10", 244)]).
  - cbn. repeat (apply NoDup_cons; split;
      [intros Hin; apply list_elem_of_In in Hin; cbn in Hin;
       intuition discriminate|]).
    constructor.
  - intros k Hk Hl. apply list_elem_of_In in Hk, Hl. cbn in Hk, Hl.
    intuition (subst; discriminate).
Defined.

End PagesFacts.

(** ** Applying the oracle or the diffuser twice; the size limit *)

Module BuilderMore.

Import Circuit CircuitFacts Statevector Unitary Grover OracleFacts
  IterationFacts UnitaryFacts AmplitudeFacts.
Local Open Scope Z_scope.

Lemma phase_flip_twice (n t : Z) (ψ : state) :
  phase_flip n t (phase_flip n t ψ) = ψ.
Proof.
  apply functional_extensionality. intros i. unfold phase_flip.
  destruct (_ =? _); lra.
Qed.

(** The oracle and the diffuser are their own inverses: run twice in a
    row, either circuit gives back the amplitudes it started from. *)
Theorem oracle_and_diffuser_self_inverse (n : nat) (t : Z) (ψ : state) :
  (1 ≤ n)%nat → 0 ≤ t < 2 ^ Z.of_nat n →
  ∃ oracle diff,
    build_oracle t (Z.of_nat n) = Some oracle ∧
    diffuser (Z.of_nat n) = Some diff ∧
    run (data oracle ++ data oracle) ψ [] = Some (ψ, []) ∧
    run (data diff ++ data diff) ψ [] = Some (ψ, []).
Proof.
  intros Hn Ht. do 2 eexists.
  split; [apply build_oracle_gates; lia|].
  split; [apply diffuser_circuit; lia|]. cbn [data]. split.
  - rewrite <- (app_nil_r (oracle_gates _ _ ++ _)).
    rewrite run_gates by (by rewrite forallb_app, oracle_gates_unitary).
    rewrite gates_action_app, !oracle_action by lia.
    by rewrite phase_flip_twice.
  - rewrite <- (app_nil_r (diffuser_gates _ ++ _)).
    rewrite run_gates by (by rewrite forallb_app, diffuser_gates_unitary).
    rewrite gates_action_app, !diffuser_gates_split, !gates_action_app.
    rewrite !gates_action_H, !oracle_action by lia.
    assert (∀ x, fold_left (λ ψ0 q, apply_H q ψ0) (range (Z.of_nat n)) x
                 = hadamards n x) as Hfold by done.
    rewrite !Hfold, (hadamards_involutive n (phase_flip _ _ _)).
    by rewrite phase_flip_twice, hadamards_involutive.
Qed.

Lemma oracle_and_diffuser_self_inverse_witness :
  ∃ oracle diff,
    build_oracle 6 (Z.of_nat 3) = Some oracle ∧
    diffuser (Z.of_nat 3) = Some diff ∧
    run (data oracle ++ data oracle) ket0 [] = Some (ket0, []) ∧
    run (data diff ++ data diff) ket0 [] = Some (ket0, []).
Proof.
  apply (oracle_and_diffuser_self_inverse 3 6 ket0); [lia|].
  change (2 ^ Z.of_nat 3) with 8. lia.
Defined.

(** From 1024 qubits on no circuit is returned: oracle and diffuser are
    built, but the iteration count needs [math.sqrt(2 ** n)], which no
    longer fits a float. *)
Theorem grover_circuit_builder_overflows (t n : Z) :
  1024 ≤ n → 0 ≤ t < 2 ^ n →
  build_oracle t n = Some (mkQC n 0 "Oracle" (oracle_gates t n)) ∧
  diffuser n = Some (mkQC n 0 "Diffuser" (diffuser_gates n)) ∧
  grover_circuit_builder t n = None.
Proof.
  intros Hn Ht.
  split; [apply build_oracle_gates; lia|].
  split; [apply diffuser_circuit; lia|].
  unfold grover_circuit_builder.
  rewrite build_oracle_gates, diffuser_circuit by lia.
  cbn [mbind option_bind]. unfold new_circuit.
  destruct (Z.leb_spec 0 n); [|lia]. cbn [andb mbind option_bind].
  rewrite gate1_each_in_range by (apply range_in_range; cbn; lia).
  cbn [mbind option_bind]. by rewrite grover_iterations_overflow.
Qed.

Lemma grover_circuit_builder_overflows_witness :
  build_oracle 0 1024 = Some (mkQC 1024 0 "Oracle" (oracle_gates 0 1024)) ∧
  diffuser 1024 = Some (mkQC 1024 0 "Diffuser" (diffuser_gates 1024)) ∧
  grover_circuit_builder 0 1024 = None.
Proof.
  apply (grover_circuit_builder_overflows 0 1024); [lia|].
  split; [lia|]. apply Z.pow_pos_nonneg; lia.
Defined.

End BuilderMore.
